(** * Asset registry backend: the event synchronization engine

    A shallow embedding of [asset-registry-backend/eventListener.js]
    (handlers [handleAssetRegistered], [handleAssetTransferred] and the
    chunked [syncHistoricalEvents]), of the single-pass
    [syncHistoricalEvents] of the earlier listener kept beside it, and of
    the two Sequelize models of [db.js] they read and write.

    The JavaScript code is asynchronous and effectful.  Every [await] of
    an external call (a database operation, a provider request) is a
    suspension point at which the call may reject; the store is not
    transactional, so whatever was written before a rejection stays
    written.  The embedding is a state-and-exception monad over a
    [World] holding the two tables, driven by an [Env] that fixes what
    the collaborators answer.  Console logging, and the two counters of
    the chunked sync that only feed a log line, are left out.  A BIGINT
    column is described by what SQLite keeps of the text it is handed
    ([bigint_column]) and by the number a read gives back
    ([read_number]).

    Around the engine the development also covers the life cycle of the
    listener ([startListening], [stopListening] and the callbacks they
    subscribe), the start-up sequence and two routes of [index.js], and
    the contract [AssetRegistry.sol] whose events the engine reads. *)

From Stdlib Require Import ZArith List String Ascii Bool Lia.
From Stdlib Require Import DecimalString DecimalZ DecimalFacts.
From Stdlib Require Import Sorted.
From stdpp Require Import base option list gmap strings.

Import ListNotations.
Local Open Scope string_scope.
Local Open Scope list_scope.
Local Open Scope Z_scope.

(** ** JavaScript values used by the handlers *)

(** [String.prototype.toLowerCase] on the ASCII range (addresses are
    hexadecimal text). *)
Definition lower_ascii (c : ascii) : ascii :=
  let n := nat_of_ascii c in
  if (Nat.leb 65 n && Nat.leb n 90)%bool then ascii_of_nat (n + 32) else c.

Fixpoint toLowerCase (s : string) : string :=
  match s with
  | EmptyString => EmptyString
  | String c s' => String (lower_ascii c) (toLowerCase s')
  end.

(** [toString()] of an integer ([bigint] event arguments, block numbers
    and block timestamps): its decimal numeral. *)
Definition toString (z : Z) : string := NilZero.string_of_int (Z.to_int z).

(** Reading a decimal numeral back (used to state that nothing is lost). *)
Definition parseDecimal (s : string) : option Z :=
  option_map Z.of_int (NilZero.int_of_string s).

(** [a || b] on values that may be [undefined]: a string is truthy when
    it is defined and not empty. *)
Definition truthy_string (v : option string) : bool :=
  match v with
  | Some s => negb (String.eqb s EmptyString)
  | None => false
  end.

Definition js_or (a b : option string) : option string :=
  if truthy_string a then a else b.

(** A number is truthy when it is defined and not zero. *)
Definition truthy_number (v : option Z) : bool :=
  match v with
  | Some n => negb (n =? 0)
  | None => false
  end.

(** The guard [transferHash && blockNumber], returning the two values it
    lets through. *)
Definition both_truthy (transferHash : option string) (blockNumber : option Z)
  : option (string * Z) :=
  match transferHash, blockNumber with
  | Some h, Some n =>
      if (truthy_string (Some h) && truthy_number (Some n))%bool
      then Some (h, n) else None
  | _, _ => None
  end.

(** ** What a BIGINT column keeps

    db.js declares the [timestamp] and [blockNumber] columns as
    [DataTypes.BIGINT], on the SQLite dialect.  Such a column has
    integer affinity: a decimal numeral within the signed 64-bit range
    is kept as that integer, a numeral beyond it as a REAL (a binary
    floating-point number that approximates it), anything else as the
    text itself.  Read through the model, a kept integer comes back as
    a JavaScript number: the double nearest to it. *)

Inductive Column :=
| INTEGER (z : Z)
| REAL
| TEXT (s : string).

Definition in_int64 (z : Z) : bool := (- 2 ^ 63 <=? z) && (z <? 2 ^ 63).

Definition bigint_column (text : string) : Column :=
  match parseDecimal text with
  | Some z => if in_int64 z then INTEGER z else REAL
  | None => TEXT text
  end.



(** ** The data model of db.js *)

(** A row is given by the attributes handed to [create].  For the two
    BIGINT attributes that is the decimal text the handlers build with
    [toString()]; what the column keeps of it is [bigint_column] of the
    text. *)

Module Asset.
Record row := mk {
  id : string;            (* primary key *)
  owner : string;
  description : string;
  timestamp : string;     (* BIGINT column: the text handed to it *)
  registeredAt : Z        (* local Date of the insert *)
}.
Definition set_owner (a : row) (o : string) : row :=
  mk (id a) o (description a) (timestamp a) (registeredAt a).
Definition timestamp_column (a : row) : Column := bigint_column (timestamp a).
End Asset.

Module Transfer.
Record row := mk {
  id : nat;                    (* autoIncrement primary key *)
  assetId : string;            (* references Asset.id *)
  fromOwner : option string;   (* null for the initial registration *)
  toOwner : string;
  blockNumber : string;        (* BIGINT column: the text handed to it *)
  transactionHash : string;    (* unique *)
  timestamp : string;          (* BIGINT column: the text handed to it *)
  transferredAt : Z
}.
Definition blockNumber_column (t : row) : Column := bigint_column (blockNumber t).
Definition timestamp_column (t : row) : Column := bigint_column (timestamp t).
End Transfer.

(** ** Event envelopes *)

(** The object carrying the transaction metadata; any field may be
    missing. *)
Module Log.
Record t := mk {
  transactionHash : option string;
  hash : option string;
  blockNumber : option Z
}.
End Log.

Inductive Args :=
| AssetRegisteredArgs (id owner description : string) (timestamp : Z)
| AssetTransferredArgs (id newOwner : string).

(** An event as a handler receives it: from [contract.on] the metadata
    sits under [event.log], from [queryFilter] on the event itself. *)
Record Event := {
  args : Args;
  log : option Log.t;
  own : Log.t
}.

Inductive EventKind := AssetRegistered | AssetTransferred.

(** ** The world and its collaborators *)

Inductive Error :=
| Rejected (at_point : nat)        (* an awaited external call rejected *)
| UniqueConstraintError
| ForeignKeyConstraintError
| TypeError
| LoopFuel.                         (* the model's loop ran out of fuel *)

Inductive result (A : Type) :=
| Ok (a : A)
| Throw (e : Error).
Arguments Ok {A} a.
Arguments Throw {A} e.

Record World := {
  assets : list Asset.row;          (* rows in insertion order *)
  transfers : list Transfer.row;    (* rows in insertion order *)
  tick : nat;                       (* suspension points passed so far *)
  queries : list (EventKind * Z * option Z)   (* queryFilter calls issued *)
}.

Record Env := {
  rejects : nat -> bool;            (* the call awaited at this point rejects *)
  clock : nat -> Z;                 (* Date.now() read at this point *)
  chain_height : Z;                 (* provider.getBlockNumber() *)
  block_timestamp : Z -> option Z;  (* provider.getBlock(n): timestamp, or null *)
  chain_events : EventKind -> Z -> option Z -> list Event   (* queryFilter *)
}.

Definition M (A : Type) : Type := World -> result A * World.

Definition ret {A} (a : A) : M A := fun w => (Ok a, w).
Definition throw {A} (e : Error) : M A := fun w => (Throw e, w).
Definition bind {A B} (m : M A) (k : A -> M B) : M B := fun w =>
  match m w with
  | (Ok a, w') => k a w'
  | (Throw e, w') => (Throw e, w')
  end.
Definition try_catch {A} (m : M A) (handler : Error -> M A) : M A := fun w =>
  match m w with
  | (Ok a, w') => (Ok a, w')
  | (Throw e, w') => handler e w'
  end.

Notation "'let*' x ':=' m 'in' k" := (bind m (fun x => k))
  (at level 10, x name, m at level 100, k at level 200).
Notation "'do*' m 'in' k" := (bind m (fun _ => k))
  (at level 10, m at level 100, k at level 200).

Definition set_assets (l : list Asset.row) (w : World) : World :=
  {| assets := l; transfers := transfers w; tick := tick w; queries := queries w |}.
Definition set_transfers (l : list Transfer.row) (w : World) : World :=
  {| assets := assets w; transfers := l; tick := tick w; queries := queries w |}.
Definition next_point (w : World) : World :=
  {| assets := assets w; transfers := transfers w; tick := S (tick w);
     queries := queries w |}.
Definition log_query (q : EventKind * Z * option Z) (w : World) : World :=
  {| assets := assets w; transfers := transfers w; tick := tick w;
     queries := queries w ++ [q] |}.

Definition has_id (pk : string) (a : Asset.row) : bool :=
  String.eqb (Asset.id a) pk.
Definition has_hash (h : string) (t : Transfer.row) : bool :=
  String.eqb (Transfer.transactionHash t) h.
Definition of_asset (pk : string) (t : Transfer.row) : bool :=
  String.eqb (Transfer.assetId t) pk.

Definition next_transfer_id (l : list Transfer.row) : nat :=
  S (list_max (map Transfer.id l)).

Section Engine.
Context (env : Env).

(** [await call]: pass one suspension point; the call rejects there
    when the environment says so, before it has any effect. *)
Definition await {A} (call : M A) : M A := fun w =>
  if rejects env (tick w)
  then (Throw (Rejected (tick w)), next_point w)
  else call (next_point w).

(** [new Date()] and [Date.now()]. *)
Definition now : M Z := fun w => (Ok (clock env (tick w)), w).

(** [setTimeout] behind a promise: time passes, nothing can reject. *)
Definition sleep : M unit := fun w => (Ok tt, next_point w).

(** *** Sequelize models *)

Definition Asset_findByPk (pk : string) : M (option Asset.row) :=
  await (fun w => (Ok (List.find (has_id pk) (assets w)), w)).

Definition Asset_create (a : Asset.row) : M unit :=
  await (fun w =>
    if existsb (has_id (Asset.id a)) (assets w)
    then (Throw UniqueConstraintError, w)
    else (Ok tt, set_assets (assets w ++ [a]) w)).

(** [asset.save()] after [asset.owner = o]: UPDATE of the changed
    column on the row with the instance's primary key. *)
Definition Asset_save (a : Asset.row) : M unit :=
  await (fun w =>
    (Ok tt,
     set_assets
       (map (fun x => if has_id (Asset.id a) x
                      then Asset.set_owner x (Asset.owner a) else x)
            (assets w)) w)).

Definition Transfer_findOne (h : string) : M (option Transfer.row) :=
  await (fun w => (Ok (List.find (has_hash h) (transfers w)), w)).

Definition Transfer_create (assetId : string) (fromOwner : option string)
    (toOwner blockNumber transactionHash timestamp : string)
    (transferredAt : Z) : M unit :=
  await (fun w =>
    if existsb (has_hash transactionHash) (transfers w)
    then (Throw UniqueConstraintError, w)
    else if negb (existsb (has_id assetId) (assets w))
    then (Throw ForeignKeyConstraintError, w)
    else (Ok tt,
          set_transfers
            (transfers w ++
             [Transfer.mk (next_transfer_id (transfers w)) assetId fromOwner
                toOwner blockNumber transactionHash timestamp transferredAt])
            w)).

(** *** Provider and contract *)

Definition getBlockNumber : M Z :=
  await (fun w => (Ok (chain_height env), w)).

Definition getBlock (n : Z) : M (option Z) :=
  await (fun w => (Ok (block_timestamp env n), w)).

Definition queryFilter (kind : EventKind) (fromBlock : Z) (toBlock : option Z)
  : M (list Event) := fun w =>
  await (fun w' => (Ok (chain_events env kind fromBlock toBlock), w'))
        (log_query (kind, fromBlock, toBlock) w).

(** *** Event normalisation shared by both handlers *)

(** [const log = event.log || event] *)
Definition event_log (event : Event) : Log.t :=
  match log event with
  | Some l => l
  | None => own event
  end.

(** [log.transactionHash || log.hash] and [log.blockNumber], through
    the guard [if (transferHash && blockNumber)]. *)
Definition metadata (event : Event) : option (string * Z) :=
  let log := event_log event in
  let transferHash := js_or (Log.transactionHash log) (Log.hash log) in
  let blockNumber := Log.blockNumber log in
  both_truthy transferHash blockNumber.

(** *** handleAssetRegistered *)

Definition handleAssetRegistered (id owner description : string)
    (timestamp : Z) (event : Event) : M unit :=
  let assetId := id in
  let ownerAddress := toLowerCase owner in
  let timestampValue := toString timestamp in
  let* existingAsset := Asset_findByPk assetId in
  do* match existingAsset with
      | None =>
          let* registeredAt := now in
          Asset_create
            (Asset.mk assetId ownerAddress description timestampValue
               registeredAt)
      | Some _ => ret tt
      end in
  match metadata event with
  | Some (transferHash, blockNumber) =>
      let* existingTransfer := Transfer_findOne transferHash in
      match existingTransfer with
      | None =>
          let* transferredAt := now in
          Transfer_create assetId None ownerAddress (toString blockNumber)
            transferHash timestampValue transferredAt
      | Some _ => ret tt
      end
  | None => ret tt
  end.

(** *** handleAssetTransferred *)

Definition handleAssetTransferred (id newOwner : string) (event : Event)
  : M unit :=
  let assetId := id in
  let newOwnerAddress := toLowerCase newOwner in
  let* asset := Asset_findByPk assetId in
  match asset with
  | Some asset =>
      let previousOwner := Asset.owner asset in
      let asset := Asset.set_owner asset newOwnerAddress in
      do* Asset_save asset in
      match metadata event with
      | Some (transferHash, blockNumber) =>
          let* existingTransfer := Transfer_findOne transferHash in
          match existingTransfer with
          | None =>
              let* block := getBlock blockNumber in
              let* blockTimestamp :=
                match block with
                | Some timestamp => ret (toString timestamp)
                | None => let* t := now in ret (toString t)
                end in
              let* transferredAt := now in
              Transfer_create assetId (Some previousOwner) newOwnerAddress
                (toString blockNumber) transferHash blockTimestamp
                transferredAt
          | Some _ => ret tt
          end
      | None => ret tt
      end
  | None => ret tt
  end.

(** *** syncHistoricalEvents *)

(** [const [id, owner, description, timestamp] = event.args] followed
    by the handler call; destructuring the other kind's arguments
    leaves [timestamp] undefined and [toString] throws. *)
Definition apply_registered (event : Event) : M unit :=
  match args event with
  | AssetRegisteredArgs id owner description timestamp =>
      handleAssetRegistered id owner description timestamp event
  | AssetTransferredArgs _ _ => throw TypeError
  end.

(** [const [id, newOwner] = event.args] followed by the handler call;
    surplus arguments are ignored. *)
Definition apply_transferred (event : Event) : M unit :=
  match args event with
  | AssetTransferredArgs id newOwner => handleAssetTransferred id newOwner event
  | AssetRegisteredArgs id owner _ _ => handleAssetTransferred id owner event
  end.

(** [for (const event of events) { await f(event) }] *)
Fixpoint for_each (events : list Event) (f : Event -> M unit) : M unit :=
  match events with
  | [] => ret tt
  | event :: rest => do* f event in for_each rest f
  end.

(** The body of the inner [try] for one chunk. *)
Definition sync_chunk (startBlock endBlock : Z) : M unit :=
  let* registeredEvents := queryFilter AssetRegistered startBlock (Some endBlock) in
  do* for_each registeredEvents apply_registered in
  let* transferredEvents := queryFilter AssetTransferred startBlock (Some endBlock) in
  do* for_each transferredEvents apply_transferred in
  sleep.

(** [for (let startBlock = fromBlock; startBlock <= currentBlock;
    startBlock += BLOCK_CHUNK_SIZE)], with the [try]/[catch] that
    swallows a chunk's error.  The loop is unbounded in the source;
    here it runs on fuel and throws [LoopFuel] when it is used up,
    which [sync_loop_run] shows never happens for a chunk size of at
    least one block. *)
Fixpoint sync_loop (fuel : nat) (chunk_size startBlock currentBlock : Z)
  : M unit :=
  if startBlock <=? currentBlock then
    match fuel with
    | O => throw LoopFuel
    | S fuel' =>
        let endBlock := Z.min (startBlock + chunk_size - 1) currentBlock in
        do* try_catch (sync_chunk startBlock endBlock)
                      (fun chunkError => ret tt) in
        sync_loop fuel' chunk_size (startBlock + chunk_size) currentBlock
    end
  else ret tt.

(** One iteration advances by at least one block, so the number of
    blocks in the range is fuel enough. *)
Definition sync_fuel (fromBlock currentBlock : Z) : nat :=
  Z.to_nat (currentBlock - fromBlock + 1).

(** The chunked backfill with the chunk size left open. *)
Definition syncHistoricalEvents_by (chunk_size fromBlock : Z) : M unit :=
  try_catch
    (let* currentBlock := getBlockNumber in
     sync_loop (sync_fuel fromBlock currentBlock) chunk_size fromBlock
               currentBlock)
    (fun error => throw error).

Definition BLOCK_CHUNK_SIZE : Z := 10.

(** eventListener.js *)
Definition syncHistoricalEvents (fromBlock : Z) : M unit :=
  syncHistoricalEvents_by BLOCK_CHUNK_SIZE fromBlock.

(** The listener without chunking (the earlier [syncHistoricalEvents],
    also the one of the test listener): one query per event kind,
    from [fromBlock] to the latest block. *)
Definition syncHistoricalEvents_single_pass (fromBlock : Z) : M unit :=
  try_catch
    (let* registeredEvents := queryFilter AssetRegistered fromBlock None in
     do* for_each registeredEvents apply_registered in
     let* transferredEvents := queryFilter AssetTransferred fromBlock None in
     for_each transferredEvents apply_transferred)
    (fun error => throw error).

End Engine.

(** ** Reading the tables *)

Definition find_asset (pk : string) (w : World) : option Asset.row :=
  List.find (has_id pk) (assets w).
Definition find_transfer (h : string) (w : World) : option Transfer.row :=
  List.find (has_hash h) (transfers w).
Definition count_assets (pk : string) (w : World) : nat :=
  length (List.filter (has_id pk) (assets w)).
Definition count_transfers (h : string) (w : World) : nat :=
  length (List.filter (has_hash h) (transfers w)).
Definition transfers_of (pk : string) (w : World) : list Transfer.row :=
  List.filter (of_asset pk) (transfers w).

(** The primary key of Asset and the unique column of Transfer. *)
Definition unique_keys (w : World) : Prop :=
  NoDup (map Asset.id (assets w)) /\
  NoDup (map Transfer.transactionHash (transfers w)).

(** No awaited call ever rejects. *)
Definition fault_free (env : Env) : Prop := forall n, rejects env n = false.

(** What a run returns and the world it leaves. *)
Definition outcome {A} (m : M A) (w : World) : result A := fst (m w).
Definition after {A} (m : M A) (w : World) : World := snd (m w).

(** ** What the handlers do to the tables when nothing rejects

    These functions are read off the handlers' control flow; the lemmas
    [handleAssetRegistered_run] and [handleAssetTransferred_run] below
    tie them to the handlers themselves. *)

Definition retarget (pk o : string) (x : Asset.row) : Asset.row :=
  if has_id pk x then Asset.set_owner x o else x.

Definition registered_assets (at_ : Z) (id owner description : string)
    (timestamp : Z) (l : list Asset.row) : list Asset.row :=
  match List.find (has_id id) l with
  | Some _ => l
  | None =>
      l ++ [Asset.mk id (toLowerCase owner) description (toString timestamp) at_]
  end.

Definition registered_transfers (at_ : Z) (id owner : string) (timestamp : Z)
    (event : Event) (l : list Transfer.row) : list Transfer.row :=
  match metadata event with
  | Some (h, bn) =>
      match List.find (has_hash h) l with
      | Some _ => l
      | None =>
          l ++ [Transfer.mk (next_transfer_id l) id None (toLowerCase owner)
                  (toString bn) h (toString timestamp) at_]
      end
  | None => l
  end.

Definition transferred_assets (id newOwner : string) (l : list Asset.row)
  : list Asset.row :=
  match List.find (has_id id) l with
  | Some _ => map (retarget id (toLowerCase newOwner)) l
  | None => l
  end.

Definition transferred_transfers (block_ts : Z -> option Z) (fallback at_ : Z)
    (id newOwner : string) (event : Event) (la : list Asset.row)
    (l : list Transfer.row) : list Transfer.row :=
  match List.find (has_id id) la with
  | Some a =>
      match metadata event with
      | Some (h, bn) =>
          match List.find (has_hash h) l with
          | Some _ => l
          | None =>
              l ++ [Transfer.mk (next_transfer_id l) id (Some (Asset.owner a))
                      (toLowerCase newOwner) (toString bn) h
                      (toString (match block_ts bn with
                                 | Some t => t
                                 | None => fallback
                                 end)) at_]
          end
      | None => l
      end
  | None => l
  end.

(** ** Sample data

    The scenario of the specification: asset A1 registered by 0xAA in
    block 10 (transaction 0xt1), then transferred to 0xBB in block 20
    (transaction 0xt2, block time 2000). *)

Definition quiet_env : Env :=
  {| rejects := fun _ => false;
     clock := fun n => 1700000000000 + Z.of_nat n;
     chain_height := 25;
     block_timestamp := fun n => if n =? 20 then Some 2000 else None;
     chain_events := fun _ _ _ => [] |}.

Definition empty_world : World :=
  {| assets := []; transfers := []; tick := 0; queries := [] |}.

(** An event as [queryFilter] returns it. *)
Definition queried (a : Args) (tx : string) (block : Z) : Event :=
  {| args := a; log := None; own := Log.mk (Some tx) None (Some block) |}.

(** An event as the subscription delivers it. *)
Definition delivered (a : Args) (tx : string) (block : Z) : Event :=
  {| args := a; log := Some (Log.mk (Some tx) None (Some block));
     own := Log.mk None None None |}.

Definition register_A1 : Event :=
  queried (AssetRegisteredArgs "A1" "0xAA" "Doc" 1000) "0xt1" 10.
Definition transfer_A1 : Event :=
  queried (AssetTransferredArgs "A1" "0xBB") "0xt2" 20.

Definition world_A1 : World :=
  after (handleAssetRegistered quiet_env "A1" "0xAA" "Doc" 1000 register_A1)
        empty_world.

(** The quiet environment, except that the call awaited at suspension
    point [k] rejects. *)
Definition rejecting_at (k : nat) : Env :=
  {| rejects := fun n => Nat.eqb n k;
     clock := clock quiet_env;
     chain_height := chain_height quiet_env;
     block_timestamp := block_timestamp quiet_env;
     chain_events := chain_events quiet_env |}.

(** A Transferred event for A1 whose block number is zero. *)
Definition transfer_A1_block0 : Event :=
  queried (AssetTransferredArgs "A1" "0xBB") "0xt3" 0.

(** ** The chunks of a block range

    The partition of [[fromBlock, currentBlock]] into consecutive ranges
    of [chunk_size] blocks (the last one possibly shorter), written
    down in closed form to compare the loop against. *)

Definition chunk_count (chunk_size fromBlock currentBlock : Z) : nat :=
  if fromBlock <=? currentBlock
  then Z.to_nat ((currentBlock - fromBlock) / chunk_size + 1)
  else O.

Definition chunk_range (chunk_size fromBlock currentBlock : Z) (i : nat)
  : Z * Z :=
  let startBlock := fromBlock + Z.of_nat i * chunk_size in
  (startBlock, Z.min (startBlock + chunk_size - 1) currentBlock).

Definition chunk_ranges (chunk_size fromBlock currentBlock : Z) : list (Z * Z) :=
  map (chunk_range chunk_size fromBlock currentBlock)
      (seq 0 (chunk_count chunk_size fromBlock currentBlock)).

(** The world one chunk's body leaves behind, whether it completed or
    threw on the way. *)
Definition attempt_chunk (env : Env) (w : World) (range : Z * Z) : World :=
  after (sync_chunk env (fst range) (snd range)) w.

(** The block ranges of the [queryFilter] calls issued for one kind of
    event, in the order of the calls. *)
Definition queried_ranges (kind : EventKind)
    (qs : list (EventKind * Z * option Z)) : list (Z * option Z) :=
  flat_map (fun q =>
              match q, kind with
              | (AssetRegistered, a, b), AssetRegistered => [(a, b)]
              | (AssetTransferred, a, b), AssetTransferred => [(a, b)]
              | _, _ => []
              end) qs.

(** ** A chain as event source

    The contract's event log: each entry has its arguments, the hash of
    the transaction that emitted it and the number of the block holding
    that transaction.  [chain_source] is the environment in which the
    provider and the contract answer from such a log and never reject. *)

Record EventLog := {
  el_args : Args;
  el_tx : string;
  el_block : Z
}.

Definition kind_of (a : Args) : EventKind :=
  match a with
  | AssetRegisteredArgs _ _ _ _ => AssetRegistered
  | AssetTransferredArgs _ _ => AssetTransferred
  end.

Definition asset_of (a : Args) : string :=
  match a with
  | AssetRegisteredArgs id _ _ _ => id
  | AssetTransferredArgs id _ => id
  end.

Definition same_kind (k k' : EventKind) : bool :=
  match k, k' with
  | AssetRegistered, AssetRegistered => true
  | AssetTransferred, AssetTransferred => true
  | _, _ => false
  end.

(** The event object [queryFilter] builds from a log entry. *)
Definition as_event (l : EventLog) : Event :=
  queried (el_args l) (el_tx l) (el_block l).

(** The entries of one kind in blocks [a] to [b], in log order. *)
Definition logs_between (history : list EventLog) (kind : EventKind) (a b : Z)
  : list EventLog :=
  List.filter (fun l => same_kind (kind_of (el_args l)) kind
                        && ((a <=? el_block l) && (el_block l <=? b)))
              history.

Definition chain_source (history : list EventLog) (height : Z)
    (timestamps : Z -> option Z) (local_clock : nat -> Z) : Env :=
  {| rejects := fun _ => false;
     clock := local_clock;
     chain_height := height;
     block_timestamp := timestamps;
     chain_events := fun kind fromBlock toBlock =>
       map as_event
         (logs_between history kind fromBlock
            (match toBlock with
             | Some b => Z.min b height
             | None => height       (* toBlock defaults to the latest block *)
             end)) |}.

(** The same collaborators, with the rejections of [r]. *)
Definition with_rejections (r : nat -> bool) (env : Env) : Env :=
  {| rejects := r;
     clock := clock env;
     chain_height := chain_height env;
     block_timestamp := block_timestamp env;
     chain_events := chain_events env |}.

(** *** What a real chain guarantees about its log *)

(** Entries come in ascending block order. *)
Fixpoint blocks_ascending (history : list EventLog) : bool :=
  match history with
  | [] => true
  | l :: rest =>
      forallb (fun l' => el_block l <=? el_block l') rest
      && blocks_ascending rest
  end.

(** A transaction lies in one block: entries with the same transaction
    hash have the same block number. *)
Definition tx_in_one_block (history : list EventLog) : bool :=
  forallb (fun l =>
    forallb (fun l' =>
      implb (String.eqb (el_tx l) (el_tx l')) (el_block l =? el_block l'))
      history) history.

(** No Transferred entry of an asset lies in a block before a Registered
    entry of that asset. *)
Definition registered_first (history : list EventLog) : bool :=
  forallb (fun t =>
    forallb (fun r =>
      implb (same_kind (kind_of (el_args t)) AssetTransferred
             && same_kind (kind_of (el_args r)) AssetRegistered
             && String.eqb (asset_of (el_args t)) (asset_of (el_args r)))
            (el_block r <=? el_block t))
      history) history.

(** The chain reports a timestamp for every block holding a Transferred
    entry. *)
Definition transfer_blocks_timestamped (timestamps : Z -> option Z)
    (history : list EventLog) : bool :=
  forallb (fun l =>
    implb (same_kind (kind_of (el_args l)) AssetTransferred)
          (match timestamps (el_block l) with Some _ => true | None => false end))
    history.

(** *** Rows without their local columns *)

(** An Asset row without [registeredAt]. *)
Definition asset_facts (a : Asset.row) : string * string * string * string :=
  (Asset.id a, Asset.owner a, Asset.description a, Asset.timestamp a).

(** A Transfer row without [id] and [transferredAt]. *)
Definition transfer_facts (t : Transfer.row)
  : string * option string * string * string * string * string :=
  (Transfer.assetId t, Transfer.fromOwner t, Transfer.toOwner t,
   Transfer.blockNumber t, Transfer.transactionHash t, Transfer.timestamp t).

(** *** The store as two finite maps

    The store up to insertion order and local columns: Asset facts by
    id, Transfer facts by transaction hash.  [facts_registered] and
    [facts_transferred] restate the two handlers on this view; they are
    compared with the handlers in [registered_refines] and
    [transferred_refines]. *)

Abbreviation AssetFacts := (string * string * string * string)%type.
Abbreviation TransferFacts :=
  (string * option string * string * string * string * string)%type.

Record Facts := {
  asset_map : gmap string AssetFacts;
  transfer_map : gmap string TransferFacts
}.

Definition represents (w : World) (s : Facts) : Prop :=
  (forall pk, asset_map s !! pk = option_map asset_facts (find_asset pk w)) /\
  (forall h, transfer_map s !! h = option_map transfer_facts (find_transfer h w)).

Definition facts_of (w : World) : Facts :=
  {| asset_map :=
       foldr (fun a m => <[Asset.id a := asset_facts a]> m) ∅ (assets w);
     transfer_map :=
       foldr (fun t m => <[Transfer.transactionHash t := transfer_facts t]> m)
             ∅ (transfers w) |}.

Definition facts_registered (id owner description : string) (timestamp : Z)
    (event : Event) (s : Facts) : Facts :=
  {| asset_map :=
       match asset_map s !! id with
       | Some _ => asset_map s
       | None =>
           <[id := (id, toLowerCase owner, description, toString timestamp)]>
             (asset_map s)
       end;
     transfer_map :=
       match metadata event with
       | Some (h, bn) =>
           match transfer_map s !! h with
           | Some _ => transfer_map s
           | None =>
               <[h := (id, None, toLowerCase owner, toString bn, h,
                       toString timestamp)]> (transfer_map s)
           end
       | None => transfer_map s
       end |}.

Definition facts_transferred (timestamps : Z -> option Z) (id newOwner : string)
    (event : Event) (s : Facts) : Facts :=
  match asset_map s !! id with
  | Some (pk, previousOwner, description, timestamp) =>
      {| asset_map :=
           <[id := (pk, toLowerCase newOwner, description, timestamp)]>
             (asset_map s);
         transfer_map :=
           match metadata event with
           | Some (h, bn) =>
               match transfer_map s !! h with
               | Some _ => transfer_map s
               | None =>
                   <[h := (id, Some previousOwner, toLowerCase newOwner,
                           toString bn, h,
                           toString (default 0 (timestamps bn)))]>
                     (transfer_map s)
               end
           | None => transfer_map s
           end |}
  | None => s
  end.

(** One log entry applied to the facts. *)
Definition facts_apply (timestamps : Z -> option Z) (s : Facts) (l : EventLog)
  : Facts :=
  match el_args l with
  | AssetRegisteredArgs id owner description timestamp =>
      facts_registered id owner description timestamp (as_event l) s
  | AssetTransferredArgs id newOwner =>
      facts_transferred timestamps id newOwner (as_event l) s
  end.

(** *** A log on which chunking shows

    A1 is registered in block 5 and transferred in block 6; A2 is
    registered in block 15. *)
Definition two_chunk_history : list EventLog :=
  [ {| el_args := AssetRegisteredArgs "A1" "0xAA" "Doc" 1000;
       el_tx := "0xt1"; el_block := 5 |};
    {| el_args := AssetTransferredArgs "A1" "0xBB";
       el_tx := "0xt2"; el_block := 6 |};
    {| el_args := AssetRegisteredArgs "A2" "0xCC" "Deed" 1500;
       el_tx := "0xt3"; el_block := 15 |} ].

Definition two_chunk_chain : Env :=
  chain_source two_chunk_history 20 (fun n => Some (100 * n)) (fun _ => 0).

(** *** Logs no real chain produces

    A transfer in a block before the asset's registration; one
    transaction hash in two blocks; entries out of block order. *)
Definition early_transfer_history : list EventLog :=
  [ {| el_args := AssetTransferredArgs "A1" "0xBB";
       el_tx := "0xt1"; el_block := 5 |};
    {| el_args := AssetRegisteredArgs "A1" "0xAA" "Doc" 1000;
       el_tx := "0xt2"; el_block := 15 |} ].

Definition split_tx_history : list EventLog :=
  [ {| el_args := AssetRegisteredArgs "A1" "0xAA" "Doc" 1000;
       el_tx := "0xt1"; el_block := 2 |};
    {| el_args := AssetTransferredArgs "A1" "0xBB";
       el_tx := "0xtx"; el_block := 5 |};
    {| el_args := AssetRegisteredArgs "A2" "0xCC" "Deed" 1500;
       el_tx := "0xtx"; el_block := 15 |} ].

Definition unordered_history : list EventLog :=
  [ {| el_args := AssetRegisteredArgs "A1" "0xCC" "Doc" 1500;
       el_tx := "0xt3"; el_block := 15 |};
    {| el_args := AssetRegisteredArgs "A1" "0xAA" "Doc" 1000;
       el_tx := "0xt1"; el_block := 5 |} ].

(** What the chunked backfill and the single pass of [[0, 20]] leave,
    seen through [view], from an empty store. *)
Definition both_backfills {A} (history : list EventLog)
    (timestamps : Z -> option Z) (local_clock : nat -> Z) (view : World -> A)
  : A * A :=
  let env := chain_source history 20 timestamps local_clock in
  (view (after (syncHistoricalEvents env 0) empty_world),
   view (after (syncHistoricalEvents_single_pass env 0) empty_world)).

(** ** An asset's history: its Registered event, then its transfers *)

(** The Transferred events of one asset, handled one after the other;
    each step is the new owner and the event envelope. *)
Fixpoint transfer_each (env : Env) (id : string)
    (steps : list (string * Event)) : M unit :=
  match steps with
  | [] => ret tt
  | (newOwner, event) :: rest =>
      do* handleAssetTransferred env id newOwner event in
      transfer_each env id rest
  end.

Definition register_then_transfer (env : Env) (id owner description : string)
    (timestamp : Z) (event : Event) (steps : list (string * Event)) : M unit :=
  do* handleAssetRegistered env id owner description timestamp event in
  transfer_each env id steps.

(** The rows form a chain: the first has no previous owner, every other
    one starts from the owner the row before it ended with. *)
Definition is_chain (rows : list Transfer.row) : Prop :=
  (forall r, nth_error rows 0 = Some r -> Transfer.fromOwner r = None) /\
  (forall i r r',
     nth_error rows i = Some r -> nth_error rows (S i) = Some r' ->
     Transfer.fromOwner r' = Some (Transfer.toOwner r)).

(** The same, by recursion from the owner before the first row. *)
Fixpoint linked (prev : option string) (rows : list Transfer.row) : Prop :=
  match rows with
  | [] => True
  | r :: rest =>
      Transfer.fromOwner r = prev /\ linked (Some (Transfer.toOwner r)) rest
  end.

(** The owner a chain of rows ends with. *)
Fixpoint end_of (prev : option string) (rows : list Transfer.row)
  : option string :=
  match rows with
  | [] => prev
  | r :: rest => end_of (Some (Transfer.toOwner r)) rest
  end.

(** The transaction hash a step's event carries, if the handler's guard
    lets its metadata through. *)
Definition step_hash (step : string * Event) : option string :=
  option_map fst (metadata (snd step)).

(** What the steps still have to find: metadata on every event, with
    hashes that are new to the store and differ from one another. *)
Fixpoint fresh_steps (steps : list (string * Event)) (w : World) : Prop :=
  match steps with
  | [] => True
  | (_, event) :: rest =>
      (exists h bn,
         metadata event = Some (h, bn) /\ find_transfer h w = None /\
         forall o e h' bn', In (o, e) rest -> metadata e = Some (h', bn') ->
                            h' <> h) /\
      fresh_steps rest w
  end.

(** A1 transferred twice within one transaction (0xt2), then once
    more. *)
Definition batched_transfers : list (string * Event) :=
  [ ("0xBB", queried (AssetTransferredArgs "A1" "0xBB") "0xt2" 20);
    ("0xCC", queried (AssetTransferredArgs "A1" "0xCC") "0xt2" 20);
    ("0xDD", queried (AssetTransferredArgs "A1" "0xDD") "0xt4" 30) ].

(** A1 transferred by an event without transaction metadata, then by
    one with it. *)
Definition bare_transfers : list (string * Event) :=
  [ ("0xBB", {| args := AssetTransferredArgs "A1" "0xBB"; log := None;
                own := Log.mk None None None |});
    ("0xCC", queried (AssetTransferredArgs "A1" "0xCC") "0xt3" 30) ].

(** Two ordinary transfers of A1. *)
Definition plain_transfers : list (string * Event) :=
  [ ("0xBB", queried (AssetTransferredArgs "A1" "0xBB") "0xt2" 20);
    ("0xCC", queried (AssetTransferredArgs "A1" "0xCC") "0xt3" 30) ].


(** What one pass over the blocks [a] to [b] of a log does to the
    facts: registrations first, then transfers. *)
Definition facts_pass (history : list EventLog) (timestamps : Z -> option Z)
    (a b : Z) (s : Facts) : Facts :=
  fold_left (facts_apply timestamps)
    (logs_between history AssetTransferred a b)
    (fold_left (facts_apply timestamps)
       (logs_between history AssetRegistered a b) s).

(** ** Predicates on runs *)

(** The rows that record an initial registration under a given hash. *)
Definition is_registration_of (h : string) (t : Transfer.row) : bool :=
  has_hash h t && bool_decide (Transfer.fromOwner t = None).

(** [m] keeps the property [P] of the world, however it ends. *)
Definition preserves {A} (P : World -> Prop) (m : M A) : Prop :=
  forall w, P w -> P (after m w).

(** The two-chunk chain with the call at suspension point 1 rejecting:
    point 0 is the height query, point 1 the Registered query of the
    first chunk. *)
Definition flaky_chain : Env :=
  with_rejections (fun n => Nat.eqb n 1) two_chunk_chain.

(** ** Invariants of the store *)

(** [m] relates every world to the one it leaves, however it ends. *)
Definition keeps {A} (R : World -> World -> Prop) (m : M A) : Prop :=
  forall w, R w (after m w).

(** Every Transfer row refers to an Asset row of the store. *)
Definition references_hold (w : World) : Prop :=
  forall t, In t (transfers w) ->
            existsb (has_id (Transfer.assetId t)) (assets w) = true.

(** The columns of an Asset row that are set once. *)
Definition frozen (a : Asset.row) : string * string * string * Z :=
  (Asset.id a, Asset.description a, Asset.timestamp a, Asset.registeredAt a).

(** [w'] holds everything [w] holds: the Transfer rows of [w] are its
    first rows, unchanged, and the Asset rows of [w] are its first rows,
    unchanged but for their owners. *)
Definition grows (w w' : World) : Prop :=
  (exists added, transfers w' = transfers w ++ added) /\
  (exists added, map frozen (assets w') = map frozen (assets w) ++ added).

(** Every address the store holds is in lower case. *)
Definition addresses_lowercase (w : World) : Prop :=
  (forall a, In a (assets w) -> toLowerCase (Asset.owner a) = Asset.owner a) /\
  (forall t, In t (transfers w) ->
     toLowerCase (Transfer.toOwner t) = Transfer.toOwner t /\
     forall o, Transfer.fromOwner t = Some o -> toLowerCase o = o).

(** ** Block ranges of queries *)

(** Block [b] lies in the range of a query; a query without [toBlock]
    runs to the latest block. *)
Definition covers (b : Z) (q : Z * option Z) : bool :=
  match q with
  | (fromBlock, Some toBlock) => (fromBlock <=? b) && (b <=? toBlock)
  | (fromBlock, None) => fromBlock <=? b
  end.

(** ** The owner a log gives an asset *)

(** The owner of asset [k] after the Transferred entries of [logs], in
    log order, when it was [o] before them. *)
Definition last_owner (k o : string) (logs : list EventLog) : string :=
  fold_left (fun o l =>
               match el_args l with
               | AssetTransferredArgs id newOwner =>
                   if String.eqb id k then toLowerCase newOwner else o
               | AssetRegisteredArgs _ _ _ _ => o
               end) logs o.

(** The entry registers asset [k]. *)
Definition registers (k : string) (l : EventLog) : bool :=
  String.eqb (asset_of (el_args l)) k.

(** The facts of the Asset row a Registered entry creates. *)
Definition registered_facts (l : EventLog) : option AssetFacts :=
  match el_args l with
  | AssetRegisteredArgs id owner description timestamp =>
      Some (id, toLowerCase owner, description, toString timestamp)
  | AssetTransferredArgs _ _ => None
  end.

(** What the log says about asset [k] over the blocks [a] to [b], given
    what the store held before: the row it held, or else the one of the
    first Registered entry of [k], with its owner carried through the
    Transferred entries. *)
Definition chain_facts (history : list EventLog) (a b : Z) (k : string)
    (before : option AssetFacts) : option AssetFacts :=
  let created :=
    match before with
    | Some row => Some row
    | None =>
        match List.find (registers k)
                (logs_between history AssetRegistered a b) with
        | Some l => registered_facts l
        | None => None
        end
    end in
  match created with
  | Some (pk, o, d, t) =>
      Some (pk, last_owner k o (logs_between history AssetTransferred a b), d, t)
  | None => None
  end.

(** ** The listener object and its subscriptions

    [isListening] and the callbacks the contract object holds, in the
    order [contract.on] registered them; each callback is the one
    [startListening] passes for its event name. *)

Module Listener.
Record t := mk {
  isListening : bool;
  subscriptions : list EventKind
}.
End Listener.

(** [new EventListener(contractAddress, rpcUrl, contractABI)] *)
Definition new_listener : Listener.t := Listener.mk false [].

Definition startListening (l : Listener.t) : Listener.t :=
  if Listener.isListening l then l
  else Listener.mk true
         (Listener.subscriptions l ++ [AssetRegistered; AssetTransferred]).

Definition stopListening (l : Listener.t) : Listener.t :=
  if Listener.isListening l
  then Listener.mk false []          (* contract.removeAllListeners() *)
  else l.

Inductive ListenerCall := StartListening | StopListening.

Definition call (l : Listener.t) (c : ListenerCall) : Listener.t :=
  match c with
  | StartListening => startListening l
  | StopListening => stopListening l
  end.

(** The handler an event's arguments select. *)
Definition handle (env : Env) (event : Event) : M unit :=
  match args event with
  | AssetRegisteredArgs id owner description timestamp =>
      handleAssetRegistered env id owner description timestamp event
  | AssetTransferredArgs id newOwner =>
      handleAssetTransferred env id newOwner event
  end.

(** The callback of [startListening] for the event's name: the handler
    inside [try]/[catch], the error only logged. *)
Definition callback (env : Env) (event : Event) : M unit :=
  try_catch (handle env event) (fun error => ret tt).

(** The contract object delivering an event: every callback subscribed
    under the event's name is called with it, here one after the
    other. *)
Fixpoint call_each (subscribed : list EventKind) (m : M unit) : M unit :=
  match subscribed with
  | [] => ret tt
  | _ :: rest => do* m in call_each rest m
  end.

Definition deliver (env : Env) (l : Listener.t) (event : Event) : M unit :=
  call_each
    (List.filter (same_kind (kind_of (args event))) (Listener.subscriptions l))
    (callback env event).

(** ** Start-up (index.js)

    [sequelize.sync({ alter: true }).then(async () => { ... }).catch(...)].
    Two parts come from libraries and are taken as given: the schema
    synchronisation, an action that may change the tables in any way
    and may reject, and whether [new EventListener(...)], which calls
    the constructors of ethers, returns or throws.  [SYNC_FROM_BLOCK]
    is taken as unset or as the decimal numeral of an integer, so that
    the comparison [syncFromBlock > 0] and [parseInt(syncFromBlock)]
    read the same number. *)

(** What became of the process: [process.exit(code)], or [app.listen]
    reached with this value of the global [eventListener]. *)
Inductive Process :=
| Exited (code : Z)
| Serving (eventListener : option Listener.t).

Section Startup.
Context (env : Env) (schema_sync : M unit) (constructs : bool).

Definition startup (contractAddress rpcUrl : option string)
    (SYNC_FROM_BLOCK : option Z) : M Process :=
  try_catch
    (do* schema_sync in
     let syncFromBlock := default 0 SYNC_FROM_BLOCK in
     let* eventListener :=
       if truthy_string contractAddress && truthy_string rpcUrl then
         if constructs then
           let eventListener := new_listener in
           try_catch
             (do* (if syncFromBlock >? 0
                   then syncHistoricalEvents env syncFromBlock
                   else ret tt) in
              do* sleep in
              ret (Some (startListening eventListener)))
             (fun error => ret (Some eventListener))
         else ret None     (* thrown before the assignment, and caught *)
       else ret None in
     ret (Serving eventListener))
    (fun error => ret (Exited 1)).

End Startup.

(** ** Two routes of the REST API (index.js)

    A response is the status with the fields of the body that depend
    on the store; the queries are Sequelize's [findAll] with a [where],
    an [order] and an [include]. *)

Inductive Response (A : Type) :=
| Json (echo : string) (count : nat) (data : list A)   (* 200 *)
| BadRequest                                           (* 400 *)
| ServerError.                                         (* 500 *)
Arguments Json {A}.
Arguments BadRequest {A}.
Arguments ServerError {A}.

(** [ORDER BY]: rows with the smaller key first.  Rows with equal keys
    stay in table order, which is one of the orders the database may
    give them. *)
Fixpoint insert_by {A} (le : A -> A -> bool) (x : A) (l : list A) : list A :=
  match l with
  | [] => [x]
  | y :: rest => if le x y then x :: l else y :: insert_by le x rest
  end.

Definition order_by {A} (le : A -> A -> bool) (l : list A) : list A :=
  fold_right (insert_by le) [] l.

Definition transferredAt_asc (t t' : Transfer.row) : bool :=
  Transfer.transferredAt t <=? Transfer.transferredAt t'.
Definition registeredAt_desc (a a' : Asset.row) : bool :=
  Asset.registeredAt a' <=? Asset.registeredAt a.

(** [attributes: ['id', 'description', 'owner']] of the included Asset. *)
Definition asset_attributes (a : Asset.row) : string * string * string :=
  (Asset.id a, Asset.description a, Asset.owner a).

(** [attributes: ['id', 'fromOwner', 'toOwner', 'blockNumber',
    'transactionHash', 'transferredAt']] of the included Transfers. *)
Definition transfer_attributes (t : Transfer.row)
  : nat * option string * string * string * string * Z :=
  (Transfer.id t, Transfer.fromOwner t, Transfer.toOwner t,
   Transfer.blockNumber t, Transfer.transactionHash t,
   Transfer.transferredAt t).

Definition owned_by (o : string) (a : Asset.row) : bool :=
  String.eqb (Asset.owner a) o.

Abbreviation TransferWithAsset :=
  (Transfer.row * option (string * string * string))%type.
Abbreviation AssetWithTransfers :=
  (Asset.row * list (nat * option string * string * string * string * Z))%type.

Section Routes.
Context (env : Env).

(** [Transfer.findAll({ where: { assetId }, order: [['transferredAt',
    'ASC']], include: [{ model: Asset, as: 'asset', ... }] })] *)
Definition Transfer_findAll_of (assetId : string) : M (list TransferWithAsset) :=
  await env (fun w =>
    (Ok (map (fun t =>
                (t, option_map asset_attributes
                      (List.find (has_id (Transfer.assetId t)) (assets w))))
             (order_by transferredAt_asc
                (List.filter (of_asset assetId) (transfers w)))), w)).

(** [Asset.findAll({ where: { owner }, order: [['registeredAt',
    'DESC']], include: [{ model: Transfer, as: 'transfers', ... }] })] *)
Definition Asset_findAll_owned (owner : string) : M (list AssetWithTransfers) :=
  await env (fun w =>
    (Ok (map (fun a =>
                (a, map transfer_attributes
                      (List.filter (of_asset (Asset.id a)) (transfers w))))
             (order_by registeredAt_desc
                (List.filter (owned_by owner) (assets w)))), w)).

(** GET /api/assets/:assetId/transfers *)
Definition get_asset_transfers (assetId : string)
  : M (Response TransferWithAsset) :=
  try_catch
    (if negb (truthy_string (Some assetId))
        || negb (String.prefix "0x" assetId)
        || Nat.ltb (String.length assetId) 3
     then ret BadRequest
     else
       let* transfers := Transfer_findAll_of assetId in
       ret (Json assetId (length transfers) transfers))
    (fun error => ret ServerError).

(** GET /api/assets/owner/:address *)
Definition get_assets_by_owner (address : string)
  : M (Response AssetWithTransfers) :=
  try_catch
    (if negb (truthy_string (Some address))
        || negb (Nat.eqb (String.length address) 42)
        || negb (String.prefix "0x" address)
     then ret BadRequest
     else
       let normalizedAddress := toLowerCase address in
       let* assets := Asset_findAll_owned normalizedAddress in
       ret (Json normalizedAddress (length assets) assets))
    (fun error => ret ServerError).

End Routes.

(** A well-formed address, and a store holding an asset whose id is
    hexadecimal text, registered by that address. *)
Definition sample_address : string :=
  "0xABCDEFabcdef0123456789ABCDEFabcdef012345".

Definition world_0x01 : World :=
  after (handleAssetRegistered quiet_env "0x01" sample_address "Doc" 1000
           (queried (AssetRegisteredArgs "0x01" sample_address "Doc" 1000)
              "0xt1" 10))
        empty_world.

(** ** The contract (AssetRegistry.sol)

    Addresses, ids and times are the integers they denote ([address(0)]
    is 0); a mapping is a finite map read with the zero value for keys
    never written; a call that fails a [require] reverts, which leaves
    the state as it was. *)

Module AssetRegistry.

Module Asset.
Record t := mk {
  id : Z;
  owner : Z;
  description : string;
  timestamp : Z
}.
End Asset.

Definition no_asset : Asset.t := Asset.mk 0 0 EmptyString 0.

Inductive Emitted :=
| AssetRegistered (id owner : Z) (description : string) (timestamp : Z)
| AssetTransferred (id newOwner : Z).

Record State := {
  owner : Z;
  _assets : gmap Z Asset.t;
  _assetsByOwner : gmap Z (list Asset.t);
  emitted : list Emitted          (* the event log, oldest first *)
}.

Inductive Call :=
| RegisterNewAsset (_description : string)
| TransferAsset (_id _newOwner : Z).

(** A transaction: [msg.sender], [block.timestamp] and the call. *)
Record Transaction := {
  tx_sender : Z;
  tx_time : Z;
  tx_call : Call
}.

Section Contract.
Context (keccak256 : Z -> string -> Z -> Z).

Definition constructor (msg_sender : Z) : State :=
  {| owner := msg_sender; _assets := ∅; _assetsByOwner := ∅; emitted := [] |}.

Definition getAsset (_id : Z) (s : State) : Asset.t :=
  default no_asset (_assets s !! _id).

Definition getAssetsByOwner (_owner : Z) (s : State) : list Asset.t :=
  default [] (_assetsByOwner s !! _owner).

Definition registerNewAsset (msg_sender now : Z) (_description : string)
    (s : State) : option State :=
  let id := keccak256 msg_sender _description now in
  if negb (Asset.owner (getAsset id s) =? 0) then None
  else
    let asset := Asset.mk id msg_sender _description now in
    Some {| owner := owner s;
            _assets := <[id := asset]> (_assets s);
            _assetsByOwner :=
              <[msg_sender := getAssetsByOwner msg_sender s ++ [asset]]>
                (_assetsByOwner s);
            emitted :=
              emitted s ++ [AssetRegistered id msg_sender _description now] |}.

Definition transferAsset (msg_sender _id _newOwner : Z) (s : State)
  : option State :=
  let asset := getAsset _id s in
  if negb (Asset.owner asset =? msg_sender) then None
  else if _newOwner =? 0 then None
  else if Asset.owner asset =? _newOwner then None
  else
    Some {| owner := owner s;
            _assets :=
              <[_id := Asset.mk (Asset.id asset) _newOwner
                         (Asset.description asset) (Asset.timestamp asset)]>
                (_assets s);
            _assetsByOwner := _assetsByOwner s;
            emitted := emitted s ++ [AssetTransferred _id _newOwner] |}.

(** One transaction against the contract. *)
Definition attempt (s : State) (tx : Transaction) : option State :=
  match tx_call tx with
  | RegisterNewAsset _description =>
      registerNewAsset (tx_sender tx) (tx_time tx) _description s
  | TransferAsset _id _newOwner => transferAsset (tx_sender tx) _id _newOwner s
  end.

Definition transact (s : State) (tx : Transaction) : State :=
  default s (attempt s tx).

End Contract.

(** *** Reading the event log *)

Definition registered_ids (log : list Emitted) : list Z :=
  flat_map (fun e => match e with
                     | AssetRegistered id _ _ _ => [id]
                     | AssetTransferred _ _ => []
                     end) log.

(** The owner the log gives an id: the one of its last entry for the
    id, or [address(0)]. *)
Definition log_owner (id : Z) (log : list Emitted) : Z :=
  fold_left (fun o e =>
               match e with
               | AssetRegistered id' owner _ _ => if id' =? id then owner else o
               | AssetTransferred id' newOwner =>
                   if id' =? id then newOwner else o
               end) log 0.

(** The structs pushed for the Registered entries of one sender. *)
Definition registrations_of (who : Z) (log : list Emitted) : list Asset.t :=
  flat_map (fun e => match e with
                     | AssetRegistered id owner description timestamp =>
                         if owner =? who
                         then [Asset.mk id owner description timestamp]
                         else []
                     | AssetTransferred _ _ => []
                     end) log.

(** The state agrees with the event log, and the log is one a backfill
    can replay: no id is registered twice, an id is transferred only
    after it was registered, and only to an address that is neither
    [address(0)] nor its owner. *)
Definition consistent (s : State) : Prop :=
  NoDup (registered_ids (emitted s)) /\
  (forall id, Asset.owner (getAsset id s) = log_owner id (emitted s)) /\
  (forall id, In id (registered_ids (emitted s))
              <-> log_owner id (emitted s) <> 0) /\
  (forall before id newOwner rest,
     emitted s = before ++ AssetTransferred id newOwner :: rest ->
     In id (registered_ids before) /\ newOwner <> 0 /\
     log_owner id before <> newOwner).

(** A hash function for examples. *)
Definition sample_keccak256 (sender : Z) (description : string) (now : Z) : Z :=
  1000 * sender + now.

End AssetRegistry.

(** ** The contract's log as the backend receives it

    The library decodes a log entry into the arguments of the event: the
    id as hexadecimal text, an address as text, the time as a bigint.
    [hex_id] and [hex_address] stand for the two renderings. *)

Section Decoding.
Context (hex_id hex_address : Z -> string).

Definition decoded (e : AssetRegistry.Emitted) : Args :=
  match e with
  | AssetRegistry.AssetRegistered id owner description timestamp =>
      AssetRegisteredArgs (hex_id id) (hex_address owner) description timestamp
  | AssetRegistry.AssetTransferred id newOwner =>
      AssetTransferredArgs (hex_id id) (hex_address newOwner)
  end.

End Decoding.

(** What the backfill needs of a log: no id registered twice, and no id
    transferred before it is registered. *)
Definition replayable (log : list AssetRegistry.Emitted) : Prop :=
  NoDup (AssetRegistry.registered_ids log) /\
  forall before id newOwner rest,
    log = before ++ AssetRegistry.AssetTransferred id newOwner :: rest ->
    In id (AssetRegistry.registered_ids before).

(** The entries of one kind, whatever their block. *)
Definition of_kind (kind : EventKind) (l : EventLog) : bool :=
  same_kind (kind_of (el_args l)) kind.

(** Three transactions: address 1 registers an asset and transfers it to
    address 2, which transfers it to address 3; and the log they leave,
    one entry per block from block 5 on. *)
Definition sample_transactions : list AssetRegistry.Transaction :=
  [ {| AssetRegistry.tx_sender := 1; AssetRegistry.tx_time := 100;
       AssetRegistry.tx_call := AssetRegistry.RegisterNewAsset "Doc" |};
    {| AssetRegistry.tx_sender := 1; AssetRegistry.tx_time := 110;
       AssetRegistry.tx_call := AssetRegistry.TransferAsset 1100 2 |};
    {| AssetRegistry.tx_sender := 2; AssetRegistry.tx_time := 120;
       AssetRegistry.tx_call := AssetRegistry.TransferAsset 1100 3 |} ].

Definition sample_contract_history : list EventLog :=
  [ {| el_args := AssetRegisteredArgs (toString 1100) (toString 1) "Doc" 100;
       el_tx := "0xt1"; el_block := 5 |};
    {| el_args := AssetTransferredArgs (toString 1100) (toString 2);
       el_tx := "0xt2"; el_block := 6 |};
    {| el_args := AssetTransferredArgs (toString 1100) (toString 3);
       el_tx := "0xt3"; el_block := 17 |} ].

(** ** Runs that end at the first rejection *)

(** A rejecting suspension point that [m] passes is the last one it
    passes, and its rejection is what [m] throws. *)
Definition fail_fast (env : Env) {A} (m : M A) : Prop :=
  forall w k,
    (tick w <= k < tick (after m w))%nat -> rejects env k = true ->
    outcome m w = Throw (Rejected k) /\ tick (after m w) = S k.

(** ** A chunk whose calls are all answered *)

(** The events handled one after the other, each to its handler's end
    before the next. *)
Definition handled (env : Env) (events : list Event) (w : World) : World :=
  fold_left (fun w event => after (handle env event) w) events w.

(** The world a chunk leaves when it runs to its end: the Registered
    query, its events handled, the Transferred query, its events
    handled, the pause. *)
Definition chunk_applied (env : Env) (w : World) (range : Z * Z) : World :=
  let startBlock := fst range in
  let endBlock := snd range in
  let w1 :=
    next_point (log_query (AssetRegistered, startBlock, Some endBlock) w) in
  let w2 :=
    handled env (chain_events env AssetRegistered startBlock (Some endBlock))
            w1 in
  let w3 :=
    next_point (log_query (AssetTransferred, startBlock, Some endBlock) w2) in
  let w4 :=
    handled env (chain_events env AssetTransferred startBlock (Some endBlock))
            w3 in
  next_point w4.

(** A query for one kind of event returns events of that kind. *)
Definition well_kinded (env : Env) : Prop :=
  forall kind fromBlock toBlock event,
    In event (chain_events env kind fromBlock toBlock) ->
    kind_of (args event) = kind.

(** No call awaited at the suspension points from [w] up to [w'] rejects. *)
Definition answered (env : Env) (w w' : World) : Prop :=
  forall k, (tick w <= k < tick w')%nat -> rejects env k = false.

(** ** Numbers that persist *)



(** ** Basic facts about the tables *)

Lemma existsb_find {A} (f : A -> bool) (l : list A) :
  existsb f l = match List.find f l with Some _ => true | None => false end.
Proof.
  induction l as [|x l IH]; simpl; [reflexivity|].
  destruct (f x); simpl; [reflexivity|exact IH].
Qed.

Lemma find_has_id pk l a :
  List.find (has_id pk) l = Some a -> Asset.id a = pk.
Proof.
  intros H. apply find_some in H as [_ H].
  unfold has_id in H. now apply String.eqb_eq in H.
Qed.

Lemma find_has_hash h l t :
  List.find (has_hash h) l = Some t -> Transfer.transactionHash t = h.
Proof.
  intros H. apply find_some in H as [_ H].
  unfold has_hash in H. now apply String.eqb_eq in H.
Qed.

Lemma has_id_retarget pk pk' o x :
  has_id pk (retarget pk' o x) = has_id pk x.
Proof. unfold retarget. destruct (has_id pk' x); reflexivity. Qed.

Lemma existsb_retarget pk pk' o l :
  existsb (has_id pk) (map (retarget pk' o) l) = existsb (has_id pk) l.
Proof.
  induction l as [|x l IH]; simpl; [reflexivity|].
  now rewrite has_id_retarget, IH.
Qed.

Lemma find_retarget pk pk' o l :
  List.find (has_id pk) (map (retarget pk' o) l)
  = option_map (retarget pk' o) (List.find (has_id pk) l).
Proof.
  induction l as [|x l IH]; simpl; [reflexivity|].
  rewrite has_id_retarget. destruct (has_id pk x); [reflexivity|exact IH].
Qed.

Lemma find_snoc {A} (f : A -> bool) (l : list A) (x : A) :
  List.find f (l ++ [x])
  = match List.find f l with
    | Some y => Some y
    | None => if f x then Some x else None
    end.
Proof.
  induction l as [|y l IH]; simpl; [reflexivity|].
  destruct (f y); [reflexivity|exact IH].
Qed.

Lemma filter_none {A} (f : A -> bool) (l : list A) :
  List.find f l = None -> List.filter f l = [].
Proof.
  induction l as [|x l IH]; simpl; [reflexivity|].
  destruct (f x); [discriminate|exact IH].
Qed.

(** Under a unique key a filter on that key returns one row at most. *)
Lemma filter_key_le1 {A} (key : A -> string) (k : string) (l : list A) :
  NoDup (map key l) ->
  (length (List.filter (fun x => String.eqb (key x) k) l) <= 1)%nat.
Proof.
  induction l as [|x l IH]; simpl; intros Hnd; [lia|].
  inversion Hnd as [|? ? Hnotin Hnd']; subst.
  destruct (String.eqb (key x) k) eqn:E; [|auto].
  apply String.eqb_eq in E. subst k.
  rewrite filter_none; [simpl; lia|].
  destruct (List.find _ l) as [y|] eqn:F; [|reflexivity].
  apply find_some in F as [Hin Heq]. apply String.eqb_eq in Heq.
  exfalso. apply Hnotin. rewrite <- Heq. apply list_elem_of_In. now apply in_map.
Qed.

Lemma filter_key_found {A} (key : A -> string) (k : string) (l : list A) y :
  NoDup (map key l) ->
  List.find (fun x => String.eqb (key x) k) l = Some y ->
  length (List.filter (fun x => String.eqb (key x) k) l) = 1%nat.
Proof.
  intros Hnd F. pose proof (filter_key_le1 key k l Hnd) as Hle.
  apply find_some in F as [Hin Heq].
  assert (In y (List.filter (fun x => String.eqb (key x) k) l)) as Hy
    by (apply filter_In; auto).
  destruct (List.filter _ l); [destruct Hy|simpl in *; lia].
Qed.

(** ** Running the primitives *)

(** Closes a goal [exists t1 t2 n, run = (Ok tt, w')] once [run] has been
    evaluated: local times that the run did not read are set to 0. *)
Ltac simpl_world :=
  cbn [next_point set_assets set_transfers log_query
       assets transfers tick queries fst snd negb].

Ltac close_run :=
  first [ solve [exists 0, 0; eexists; reflexivity]
        | solve [exists 0; eexists; eexists; reflexivity]
        | solve [eexists; exists 0; eexists; reflexivity]
        | solve [eexists; eexists; eexists; reflexivity] ].

Section Runs.
Context (env : Env) (Hff : fault_free env).

Lemma await_run {A} (call : M A) w :
  await env call w = call (next_point w).
Proof. unfold await. now rewrite Hff. Qed.

(** [handleAssetRegistered] never fails when nothing rejects, and
    changes the tables as [registered_assets] and
    [registered_transfers] say. *)
Lemma handleAssetRegistered_run id owner description timestamp event w :
  exists t1 t2 n,
    handleAssetRegistered env id owner description timestamp event w
    = (Ok tt,
       {| assets := registered_assets t1 id owner description timestamp (assets w);
          transfers := registered_transfers t2 id owner timestamp event (transfers w);
          tick := n; queries := queries w |}).
Proof.
  unfold handleAssetRegistered, registered_assets, registered_transfers,
    bind, Asset_findByPk, Asset_create, Transfer_findOne, Transfer_create,
    now, ret.
  rewrite await_run; simpl_world.
  destruct (List.find (has_id id) (assets w)) as [a|] eqn:Fa.
  - destruct (metadata event) as [[h bn]|].
    + rewrite await_run; simpl_world.
      destruct (List.find (has_hash h) (transfers w)) as [t|] eqn:Ft.
      * close_run.
      * rewrite await_run; simpl_world.
        rewrite !existsb_find, Ft, Fa. cbn.
        close_run.
    + close_run.
  - rewrite await_run; simpl_world; cbn [Asset.id].
    rewrite existsb_find, Fa; simpl_world.
    destruct (metadata event) as [[h bn]|].
    + rewrite await_run; simpl_world.
      destruct (List.find (has_hash h) (transfers w)) as [t|] eqn:Ft.
      * close_run.
      * rewrite await_run; simpl_world.
        rewrite !existsb_find, Ft, find_snoc, Fa.
        unfold has_id at 1. cbn [Asset.id]. rewrite String.eqb_refl. cbn.
        close_run.
    + close_run.
Qed.

(** The same for [handleAssetTransferred]; the Transfer row is built
    from the Asset table as it was before the owner changed. *)
Lemma handleAssetTransferred_run id newOwner event w :
  exists t1 t2 n,
    handleAssetTransferred env id newOwner event w
    = (Ok tt,
       {| assets := transferred_assets id newOwner (assets w);
          transfers :=
            transferred_transfers (block_timestamp env) t1 t2 id newOwner
              event (assets w) (transfers w);
          tick := n; queries := queries w |}).
Proof.
  unfold handleAssetTransferred, transferred_assets, transferred_transfers,
    bind, Asset_findByPk, Asset_save, Transfer_findOne, Transfer_create,
    getBlock, now, ret.
  rewrite await_run; simpl_world.
  destruct (List.find (has_id id) (assets w)) as [a|] eqn:Fa.
  - rewrite await_run; simpl_world.
    assert (Asset.id (Asset.set_owner a (toLowerCase newOwner)) = id) as ->
      by (cbn; eauto using find_has_id).
    cbn [Asset.owner Asset.set_owner].
    change (fun x => if has_id id x
                     then Asset.set_owner x (toLowerCase newOwner) else x)
      with (retarget id (toLowerCase newOwner)).
    destruct (metadata event) as [[h bn]|].
    + rewrite await_run; simpl_world.
      destruct (List.find (has_hash h) (transfers w)) as [t|] eqn:Ft.
      * close_run.
      * rewrite await_run; simpl_world.
        destruct (block_timestamp env bn) as [ts|];
          simpl_world; rewrite await_run; simpl_world;
          rewrite (existsb_find (has_hash h)), Ft, existsb_retarget,
            existsb_find, Fa; cbn;
          close_run.
    + close_run.
  - close_run.
Qed.

End Runs.

(** ** Facts about the table functions *)

Lemma retarget_idem pk o x : retarget pk o (retarget pk o x) = retarget pk o x.
Proof.
  unfold retarget. destruct (has_id pk x) eqn:E; [|now rewrite E].
  unfold has_id in *. cbn. now rewrite E.
Qed.

Lemma retarget_owner pk o x :
  has_id pk x = true -> Asset.owner (retarget pk o x) = o.
Proof. unfold retarget. now intros ->. Qed.

Lemma filter_snoc {A} (f : A -> bool) (l : list A) (x : A) :
  List.filter f (l ++ [x]) = (List.filter f l ++ (if f x then [x] else []))%list.
Proof. rewrite List.filter_app. reflexivity. Qed.

Lemma transferred_assets_found id newOwner l a :
  List.find (has_id id) l = Some a ->
  transferred_assets id newOwner l = map (retarget id (toLowerCase newOwner)) l.
Proof. unfold transferred_assets. now intros ->. Qed.

Lemma transferred_assets_idem id newOwner l :
  transferred_assets id newOwner (transferred_assets id newOwner l)
  = transferred_assets id newOwner l.
Proof.
  unfold transferred_assets.
  destruct (List.find (has_id id) l) as [a|] eqn:F.
  - rewrite find_retarget, F. cbn. rewrite map_map.
    apply map_ext. intros x. apply retarget_idem.
  - now rewrite F.
Qed.

Lemma transferred_transfers_settled block_ts fb at_ id newOwner event la l h bn t :
  metadata event = Some (h, bn) ->
  List.find (has_hash h) l = Some t ->
  transferred_transfers block_ts fb at_ id newOwner event la l = l.
Proof.
  unfold transferred_transfers. intros -> ->. now destruct (List.find _ la).
Qed.

Lemma count_after_insert h l (t : Transfer.row) :
  NoDup (map Transfer.transactionHash l) ->
  Transfer.transactionHash t = h ->
  length (List.filter (has_hash h)
            (match List.find (has_hash h) l with
             | Some _ => l
             | None => l ++ [t]
             end)) = 1%nat.
Proof.
  intros Hnd Hh. destruct (List.find (has_hash h) l) as [y|] eqn:F.
  - exact (filter_key_found Transfer.transactionHash h l y Hnd F).
  - rewrite filter_snoc, (filter_none _ _ F).
    unfold has_hash at 1. rewrite Hh, String.eqb_refl. reflexivity.
Qed.

(** ** The two envelope shapes *)

(** Metadata under [event.log] and metadata on the event itself are read
    alike. *)
Lemma metadata_either_shape a tx block :
  metadata (delivered a tx block) = metadata (queried a tx block).
Proof. reflexivity. Qed.

(** A hash under the name [hash] is taken when [transactionHash] is
    missing or empty. *)
Lemma metadata_hash_field a h block :
  h <> EmptyString -> block <> 0 ->
  metadata {| args := a; log := None;
              own := Log.mk (Some EmptyString) (Some h) (Some block) |}
  = Some (h, block).
Proof.
  intros Hh Hb. unfold metadata, both_truthy, js_or. cbn.
  destruct (String.eqb_spec h EmptyString); [contradiction|].
  destruct (Z.eqb_spec block 0); [contradiction|]. reflexivity.
Qed.

(** The scenario of the specification, run on the handlers. *)
Example scenario_register_transfer_replay :
  let w1 := world_A1 in
  let w2 := after (handleAssetTransferred quiet_env "A1" "0xBB" transfer_A1) w1 in
  let w3 := after (handleAssetTransferred quiet_env "A1" "0xBB" transfer_A1) w2 in
  map asset_facts (assets w1) = [("A1", "0xaa", "Doc", "1000")] /\
  map transfer_facts (transfers w1)
  = [("A1", None, "0xaa", "10", "0xt1", "1000")] /\
  map asset_facts (assets w2) = [("A1", "0xbb", "Doc", "1000")] /\
  map transfer_facts (transfers w2)
  = [("A1", None, "0xaa", "10", "0xt1", "1000");
     ("A1", Some "0xaa", "0xbb", "20", "0xt2", "2000")] /\
  assets w3 = assets w2 /\ transfers w3 = transfers w2.
Proof. vm_compute. repeat split. Qed.

(** ** Idempotence of the two handlers *)

(** C1.  A Transferred event applied twice to an existing asset: both
    applications complete, the store then holds exactly one Transfer
    row with the event's transaction hash, the asset's owner is the
    lower-cased new owner, and the second application changed neither
    table.  The event carries its transaction metadata (a hash and a
    block number that pass the handler's guard), nothing rejects, and the
    store respects its keys. *)
Theorem transferred_twice_settles env w id newOwner event h bn a :
  fault_free env ->
  unique_keys w ->
  find_asset id w = Some a ->
  metadata event = Some (h, bn) ->
  let once := handleAssetTransferred env id newOwner event in
  let w1 := after once w in
  let w2 := after once w1 in
  outcome once w = Ok tt /\ outcome once w1 = Ok tt /\
  count_transfers h w2 = 1%nat /\
  option_map Asset.owner (find_asset id w2) = Some (toLowerCase newOwner) /\
  assets w2 = assets w1 /\ transfers w2 = transfers w1.
Proof.
  intros Hff [_ Hnd] Ha Hm. unfold find_asset in Ha. cbv zeta.
  unfold outcome, after, count_transfers, find_asset.
  destruct (handleAssetTransferred_run env Hff id newOwner event w)
    as (f1 & t1 & n1 & ->). cbn [fst snd].
  match goal with |- context [handleAssetTransferred _ _ _ _ ?w] =>
    destruct (handleAssetTransferred_run env Hff id newOwner event w)
      as (f2 & t2 & n2 & ->) end.
  cbn [fst snd assets transfers].
  rewrite transferred_assets_idem.
  assert (exists t,
    List.find (has_hash h)
      (transferred_transfers (block_timestamp env) f1 t1 id newOwner event
         (assets w) (transfers w)) = Some t) as [t Ht].
  { unfold transferred_transfers. rewrite Ha, Hm.
    destruct (List.find (has_hash h) (transfers w)) as [t|] eqn:F.
    - now exists t.
    - rewrite find_snoc, F. unfold has_hash at 1. cbn.
      rewrite String.eqb_refl. eauto. }
  rewrite (transferred_transfers_settled _ _ _ _ _ _ _ _ _ _ t Hm Ht).
  repeat split.
  - unfold transferred_transfers. rewrite Ha, Hm.
    now apply count_after_insert.
  - rewrite (transferred_assets_found _ _ _ _ Ha), find_retarget, Ha. cbn.
    f_equal. apply retarget_owner. now apply find_some in Ha.
Qed.

(** The scenario of the specification: the transfer of A1 applied twice. *)
Lemma transferred_twice_settles_witness :
  let once := handleAssetTransferred quiet_env "A1" "0xBB" transfer_A1 in
  let w1 := after once world_A1 in
  let w2 := after once w1 in
  outcome once world_A1 = Ok tt /\ outcome once w1 = Ok tt /\
  count_transfers "0xt2" w2 = 1%nat /\
  option_map Asset.owner (find_asset "A1" w2) = Some "0xbb" /\
  assets w2 = assets w1 /\ transfers w2 = transfers w1.
Proof.
  apply (transferred_twice_settles quiet_env world_A1 "A1" "0xBB" transfer_A1
           "0xt2" 20
           (Asset.mk "A1" "0xaa" "Doc" "1000" 1700000000001)).
  - intros n. reflexivity.
  - split; apply (bool_decide_unpack _); vm_compute; exact I.
  - vm_compute. reflexivity.
  - vm_compute. reflexivity.
Defined.

Lemma filter_key_insert {A} (key : A -> string) (k : string) (l : list A) x :
  NoDup (map key l) ->
  key x = k ->
  length (List.filter (fun y => String.eqb (key y) k)
            (match List.find (fun y => String.eqb (key y) k) l with
             | Some _ => l
             | None => l ++ [x]
             end)) = 1%nat.
Proof.
  intros Hnd Hk. destruct (List.find _ l) as [y|] eqn:F.
  - exact (filter_key_found key k l y Hnd F).
  - rewrite filter_snoc, (filter_none _ _ F). cbn beta.
    rewrite Hk, String.eqb_refl. reflexivity.
Qed.

Lemma NoDup_key_insert {A} (key : A -> string) (k : string) (l : list A) x :
  NoDup (map key l) ->
  key x = k ->
  NoDup (map key (match List.find (fun y => String.eqb (key y) k) l with
                  | Some _ => l
                  | None => l ++ [x]
                  end)).
Proof.
  intros Hnd Hk. destruct (List.find _ l) as [y|] eqn:F; [exact Hnd|].
  rewrite map_app. cbn [map]. apply NoDup_app. split; [exact Hnd|].
  split; [|apply NoDup_singleton].
  intros z Hz Hz'. apply list_elem_of_singleton in Hz'. subst z.
  apply list_elem_of_In, in_map_iff in Hz as (y & Hy & Hin).
  apply (find_none _ _ F) in Hin. cbn beta in Hin.
  rewrite Hy, Hk, String.eqb_refl in Hin. discriminate.
Qed.

Lemma filter_and_le {A} (f g : A -> bool) (l : list A) :
  (length (List.filter (fun x => f x && g x) l) <= length (List.filter f l))%nat.
Proof.
  induction l as [|x l IH]; simpl; [lia|].
  destruct (f x), (g x); simpl; lia.
Qed.

Lemma registered_find id owner description timestamp at_ l :
  exists a,
    List.find (has_id id)
      (registered_assets at_ id owner description timestamp l) = Some a.
Proof.
  unfold registered_assets.
  destruct (List.find (has_id id) l) as [a|] eqn:F; [eauto|].
  rewrite find_snoc, F. unfold has_id at 1. cbn.
  rewrite String.eqb_refl. eauto.
Qed.

Lemma registered_assets_settled id owner description timestamp at_ l a :
  List.find (has_id id) l = Some a ->
  registered_assets at_ id owner description timestamp l = l.
Proof. unfold registered_assets. now intros ->. Qed.

Lemma registered_transfers_settled id owner timestamp event at1 at2 l :
  let l1 := registered_transfers at1 id owner timestamp event l in
  registered_transfers at2 id owner timestamp event l1 = l1.
Proof.
  unfold registered_transfers.
  destruct (metadata event) as [[h bn]|]; [|reflexivity].
  destruct (List.find (has_hash h) l) as [t|] eqn:F; cbv zeta.
  - now rewrite F.
  - rewrite find_snoc, F. unfold has_hash at 1. cbn.
    now rewrite String.eqb_refl.
Qed.

Lemma registered_transfers_NoDup id owner timestamp event at_ l :
  NoDup (map Transfer.transactionHash l) ->
  NoDup (map Transfer.transactionHash
           (registered_transfers at_ id owner timestamp event l)).
Proof.
  intros Hnd. unfold registered_transfers.
  destruct (metadata event) as [[h bn]|]; [|exact Hnd].
  now apply (NoDup_key_insert Transfer.transactionHash h).
Qed.

(** C2.  A Registered event applied twice: both applications complete,
    the store then holds exactly one Asset row with the event's id, that
    row and both tables are as the first application left them, and for
    no transaction hash is there more than one Transfer row with a null
    [fromOwner]. *)
Theorem registered_twice_settles env w id owner description timestamp event :
  fault_free env ->
  unique_keys w ->
  let once := handleAssetRegistered env id owner description timestamp event in
  let w1 := after once w in
  let w2 := after once w1 in
  outcome once w = Ok tt /\ outcome once w1 = Ok tt /\
  count_assets id w2 = 1%nat /\
  find_asset id w2 = find_asset id w1 /\
  assets w2 = assets w1 /\ transfers w2 = transfers w1 /\
  forall h,
    (length (List.filter (is_registration_of h) (transfers w2)) <= 1)%nat.
Proof.
  intros Hff [Hna Hnt]. cbv zeta.
  unfold outcome, after, count_assets, find_asset.
  destruct (handleAssetRegistered_run env Hff id owner description timestamp
              event w) as (a1 & t1 & n1 & ->). cbn [fst snd].
  match goal with |- context [handleAssetRegistered _ _ _ _ _ _ ?w] =>
    destruct (handleAssetRegistered_run env Hff id owner description timestamp
                event w) as (a2 & t2 & n2 & ->) end.
  cbn [fst snd assets transfers].
  destruct (registered_find id owner description timestamp a1 (assets w))
    as [a Ha].
  rewrite (registered_assets_settled _ _ _ _ _ _ _ Ha).
  rewrite registered_transfers_settled.
  repeat split.
  - unfold registered_assets.
    now apply (filter_key_insert Asset.id id).
  - intros h. etransitivity; [apply filter_and_le|].
    apply (filter_key_le1 Transfer.transactionHash h).
    now apply registered_transfers_NoDup.
Qed.

(** The registration of A1 applied twice to an empty store. *)
Lemma registered_twice_settles_witness :
  let once := handleAssetRegistered quiet_env "A1" "0xAA" "Doc" 1000 register_A1 in
  let w1 := after once empty_world in
  let w2 := after once w1 in
  outcome once empty_world = Ok tt /\ outcome once w1 = Ok tt /\
  count_assets "A1" w2 = 1%nat /\
  find_asset "A1" w2 = find_asset "A1" w1 /\
  assets w2 = assets w1 /\ transfers w2 = transfers w1 /\
  forall h,
    (length (List.filter (is_registration_of h) (transfers w2)) <= 1)%nat.
Proof.
  apply (registered_twice_settles quiet_env empty_world "A1" "0xAA" "Doc" 1000
           register_A1).
  - intros n. reflexivity.
  - split; apply (bool_decide_unpack _); vm_compute; exact I.
Defined.

(** ** Runs in which calls may reject *)

(** Unfolds a handler down to the environment's answers. *)
Ltac unfold_run :=
  unfold outcome, after, find_asset, find_transfer, count_transfers,
    handleAssetRegistered, handleAssetTransferred, bind,
    Asset_findByPk, Asset_create, Asset_save, Transfer_findOne,
    Transfer_create, getBlock, await, now, ret;
  simpl_world.

Lemma falsy_block_no_metadata event :
  truthy_number (Log.blockNumber (event_log event)) = false ->
  metadata event = None.
Proof.
  unfold metadata, both_truthy. intros H.
  destruct (js_or _ _) as [h|]; [|reflexivity].
  destruct (Log.blockNumber (event_log event)) as [n|]; [|reflexivity].
  rewrite H. now rewrite andb_false_r.
Qed.

Lemma registered_no_metadata env id owner description timestamp event w :
  metadata event = None ->
  transfers (after (handleAssetRegistered env id owner description timestamp
                      event) w) = transfers w.
Proof.
  intros Hm. unfold_run. rewrite Hm.
  destruct (rejects env (tick w)); [reflexivity|]. simpl_world.
  destruct (List.find (has_id id) (assets w)); simpl_world; [reflexivity|].
  destruct (rejects env (S (tick w))); [reflexivity|]. simpl_world.
  destruct (existsb _ _); reflexivity.
Qed.

Lemma transferred_no_metadata env id newOwner event w :
  metadata event = None ->
  transfers (after (handleAssetTransferred env id newOwner event) w)
  = transfers w.
Proof.
  intros Hm. unfold_run. rewrite Hm.
  destruct (rejects env (tick w)); [reflexivity|]. simpl_world.
  destruct (List.find (has_id id) (assets w)); simpl_world; [|reflexivity].
  destruct (rejects env (S (tick w))); reflexivity.
Qed.

(** ** Orphan events *)

(** C6.  A Transferred event for an asset id with no Asset row leaves
    both tables as they were (no Asset row, no Transfer row, nothing
    else touched), whatever the environment does; and when the lookup
    itself is answered the handler returns normally. *)
Theorem orphan_transfer_skipped env w id newOwner event :
  find_asset id w = None ->
  let run := handleAssetTransferred env id newOwner event in
  assets (after run w) = assets w /\
  transfers (after run w) = transfers w /\
  queries (after run w) = queries w /\
  (rejects env (tick w) = false -> outcome run w = Ok tt).
Proof.
  intros Hnone. cbv zeta. unfold_run. unfold find_asset in Hnone.
  destruct (rejects env (tick w)); simpl_world.
  - repeat split; intros; discriminate.
  - rewrite Hnone. simpl_world. repeat split.
Qed.

(** A transfer of A9, which was never registered. *)
Lemma orphan_transfer_skipped_witness :
  let run := handleAssetTransferred quiet_env "A9" "0xBB" transfer_A1 in
  assets (after run world_A1) = assets world_A1 /\
  transfers (after run world_A1) = transfers world_A1 /\
  queries (after run world_A1) = queries world_A1 /\
  (rejects quiet_env (tick world_A1) = false -> outcome run world_A1 = Ok tt).
Proof.
  apply (orphan_transfer_skipped quiet_env world_A1 "A9" "0xBB" transfer_A1).
  vm_compute. reflexivity.
Defined.

(** ** The metadata guard *)

(** C9.  When the block number of the envelope is missing or zero the
    guard [transferHash && blockNumber] fails, whatever the hash: neither
    handler adds a Transfer row, in any environment.  The Asset side
    still happens when nothing rejects: a Registered event for a new id
    appends its Asset row, a Transferred event for an existing asset sets
    its owner. *)
Theorem falsy_block_number_drops_transfer
    env w id owner description timestamp newOwner event :
  truthy_number (Log.blockNumber (event_log event)) = false ->
  let reg := handleAssetRegistered env id owner description timestamp event in
  let tfr := handleAssetTransferred env id newOwner event in
  (transfers (after reg w) = transfers w /\
   (fault_free env -> outcome reg w = Ok tt /\
      (find_asset id w = None ->
       exists at_,
         assets (after reg w)
         = assets w ++ [Asset.mk id (toLowerCase owner) description
                          (toString timestamp) at_]))) /\
  (transfers (after tfr w) = transfers w /\
   (fault_free env -> outcome tfr w = Ok tt /\
      forall a, find_asset id w = Some a ->
        find_asset id (after tfr w)
        = Some (Asset.set_owner a (toLowerCase newOwner)))).
Proof.
  intros Hfalsy. apply falsy_block_no_metadata in Hfalsy as Hm. cbv zeta.
  split; split.
  - now apply registered_no_metadata.
  - intros Hff. unfold outcome, after, find_asset.
    destruct (handleAssetRegistered_run env Hff id owner description timestamp
                event w) as (a1 & t1 & n1 & ->). simpl_world.
    split; [reflexivity|]. intros Hnone. exists a1.
    unfold registered_assets. now rewrite Hnone.
  - now apply transferred_no_metadata.
  - intros Hff. unfold outcome, after, find_asset.
    destruct (handleAssetTransferred_run env Hff id newOwner event w)
      as (f1 & t1 & n1 & ->). simpl_world.
    split; [reflexivity|]. intros a Ha.
    rewrite (transferred_assets_found _ _ _ _ Ha), find_retarget, Ha. cbn.
    unfold retarget. apply find_some in Ha as [_ ->]. reflexivity.
Qed.

(** An event in block 0, handled as a registration of A2 and as a transfer
    of A2. *)
Lemma falsy_block_number_drops_transfer_witness :
  let reg :=
    handleAssetRegistered quiet_env "A2" "0xCC" "Deed" 1500 transfer_A1_block0 in
  let tfr := handleAssetTransferred quiet_env "A2" "0xBB" transfer_A1_block0 in
  (transfers (after reg world_A1) = transfers world_A1 /\
   (fault_free quiet_env -> outcome reg world_A1 = Ok tt /\
      (find_asset "A2" world_A1 = None ->
       exists at_,
         assets (after reg world_A1)
         = assets world_A1 ++ [Asset.mk "A2" (toLowerCase "0xCC") "Deed"
                                 (toString 1500) at_]))) /\
  (transfers (after tfr world_A1) = transfers world_A1 /\
   (fault_free quiet_env -> outcome tfr world_A1 = Ok tt /\
      forall a, find_asset "A2" world_A1 = Some a ->
        find_asset "A2" (after tfr world_A1)
        = Some (Asset.set_owner a (toLowerCase "0xBB")))).
Proof.
  apply (falsy_block_number_drops_transfer quiet_env world_A1 "A2" "0xCC" "Deed"
           1500 "0xBB" transfer_A1_block0).
  reflexivity.
Defined.

(** ** Rejections after the owner was saved *)

(** C10.  [handleAssetTransferred] is not atomic.  On an existing asset
    with metadata present the calls go: findByPk, save, findOne and, when
    no Transfer has the hash yet, getBlock, create.  When the first two
    are answered and a later one that is reached rejects, the handler
    throws, the Asset row already carries the new owner, and the Transfer
    table is as it was: no row was added for the event. *)
Theorem transferred_not_atomic env w id newOwner event h bn a :
  find_asset id w = Some a ->
  metadata event = Some (h, bn) ->
  rejects env (tick w) = false ->
  rejects env (S (tick w)) = false ->
  rejects env (S (S (tick w))) = true \/
  (find_transfer h w = None /\
   (rejects env (S (S (S (tick w)))) = true \/
    rejects env (S (S (S (S (tick w))))) = true)) ->
  let run := handleAssetTransferred env id newOwner event in
  (exists e, outcome run w = Throw e) /\
  find_asset id (after run w) = Some (Asset.set_owner a (toLowerCase newOwner)) /\
  transfers (after run w) = transfers w.
Proof.
  intros Ha Hm R0 R1 Hlater. cbv zeta. unfold_run.
  unfold find_asset, find_transfer in Ha, Hlater.
  rewrite R0. simpl_world. rewrite Ha. simpl_world. rewrite R1. simpl_world.
  rewrite Hm. simpl_world.
  assert (List.find (has_id id)
            (map (fun x => if has_id (Asset.id (Asset.set_owner a
                                                  (toLowerCase newOwner))) x
                           then Asset.set_owner x
                                  (Asset.owner (Asset.set_owner a
                                                  (toLowerCase newOwner)))
                           else x) (assets w))
          = Some (Asset.set_owner a (toLowerCase newOwner))) as Hsaved.
  { cbn [Asset.id Asset.owner Asset.set_owner].
    rewrite (find_has_id _ _ _ Ha).
    change (fun x => if has_id id x
                     then Asset.set_owner x (toLowerCase newOwner) else x)
      with (retarget id (toLowerCase newOwner)).
    rewrite find_retarget, Ha. cbn. unfold retarget.
    apply find_some in Ha as [_ ->]. reflexivity. }
  destruct (rejects env (S (S (tick w)))) eqn:R2; simpl_world.
  { repeat split; eauto. }
  destruct Hlater as [?|[Ht Hlater]]; [discriminate|].
  rewrite Ht. simpl_world.
  destruct (rejects env (S (S (S (tick w))))) eqn:R3; simpl_world.
  { repeat split; eauto. }
  destruct Hlater as [?|R4]; [discriminate|].
  destruct (block_timestamp env bn); simpl_world; rewrite R4; simpl_world;
    repeat split; eauto.
Qed.

(** The insert of the Transfer row rejects (suspension point 8). *)
Lemma transferred_not_atomic_witness :
  let run := handleAssetTransferred (rejecting_at 8) "A1" "0xBB" transfer_A1 in
  (exists e, outcome run world_A1 = Throw e) /\
  find_asset "A1" (after run world_A1)
  = Some (Asset.set_owner (Asset.mk "A1" "0xaa" "Doc" "1000" 1700000000001)
            (toLowerCase "0xBB")) /\
  transfers (after run world_A1) = transfers world_A1.
Proof.
  apply (transferred_not_atomic (rejecting_at 8) world_A1 "A1" "0xBB"
           transfer_A1 "0xt2" 20).
  - vm_compute. reflexivity.
  - vm_compute. reflexivity.
  - vm_compute. reflexivity.
  - vm_compute. reflexivity.
  - right. split; [vm_compute; reflexivity|]. right. vm_compute. reflexivity.
Defined.

(** ** Resolving the Transfer timestamp *)

(** C5 as stated fails when the block lookup rejects: the asset exists,
    the metadata is present and the hash is new, yet the handler throws
    the provider's error and leaves no Transfer row, instead of falling
    back to the local clock. *)
Lemma block_lookup_rejection_surfaces :
  let run := handleAssetTransferred (rejecting_at 7) "A1" "0xBB" transfer_A1 in
  find_asset "A1" world_A1
  = Some (Asset.mk "A1" "0xaa" "Doc" "1000" 1700000000001) /\
  metadata transfer_A1 = Some ("0xt2", 20) /\
  find_transfer "0xt2" world_A1 = None /\
  outcome run world_A1 = Throw (Rejected 7) /\
  find_transfer "0xt2" (after run world_A1) = None.
Proof. vm_compute. repeat split. Qed.

(** C5, amended.  On an existing asset, with metadata present and no
    Transfer yet under the hash, and the three calls before the lookup
    answered: when the block lookup rejects, the handler throws that
    rejection and adds no Transfer row; when it is answered (and the
    insert is too) the handler returns normally and the new row's
    timestamp is the decimal text of the block's timestamp, or, when the
    lookup returned nothing, of the local clock read right after it. *)
Theorem transfer_timestamp_resolution env w id newOwner event h bn a :
  find_asset id w = Some a ->
  metadata event = Some (h, bn) ->
  find_transfer h w = None ->
  rejects env (tick w) = false ->
  rejects env (S (tick w)) = false ->
  rejects env (S (S (tick w))) = false ->
  let run := handleAssetTransferred env id newOwner event in
  let lookup := S (S (S (tick w))) in
  (rejects env lookup = true ->
   outcome run w = Throw (Rejected lookup) /\
   transfers (after run w) = transfers w) /\
  (rejects env lookup = false ->
   rejects env (S lookup) = false ->
   outcome run w = Ok tt /\
   exists row,
     find_transfer h (after run w) = Some row /\
     Transfer.timestamp row
     = toString (match block_timestamp env bn with
                 | Some ts => ts
                 | None => clock env (S lookup)
                 end)).
Proof.
  intros Ha Hm Ht R0 R1 R2. cbv zeta. unfold_run.
  unfold find_asset, find_transfer in Ha, Ht.
  rewrite R0. simpl_world. rewrite Ha. simpl_world. rewrite R1. simpl_world.
  rewrite Hm. simpl_world. rewrite R2. simpl_world. rewrite Ht. simpl_world.
  split.
  - intros ->. simpl_world. split; reflexivity.
  - intros -> R4. simpl_world.
    assert (existsb (has_id id)
              (map (fun x => if has_id (Asset.id (Asset.set_owner a
                                                    (toLowerCase newOwner))) x
                             then Asset.set_owner x
                                    (Asset.owner (Asset.set_owner a
                                                    (toLowerCase newOwner)))
                             else x) (assets w)) = true) as Hfk.
    { cbn [Asset.id Asset.owner Asset.set_owner].
      rewrite (find_has_id _ _ _ Ha).
      change (fun x => if has_id id x
                       then Asset.set_owner x (toLowerCase newOwner) else x)
        with (retarget id (toLowerCase newOwner)).
      now rewrite existsb_retarget, existsb_find, Ha. }
    destruct (block_timestamp env bn) as [ts|]; simpl_world;
      rewrite R4; simpl_world;
      rewrite (existsb_find (has_hash h)), Ht, Hfk; simpl_world;
      (split; [reflexivity|]);
      rewrite find_snoc, Ht; unfold has_hash at 1; cbn [Transfer.transactionHash];
      rewrite String.eqb_refl; eexists; split; reflexivity.
Qed.

(** The transfer of A1 in block 20, whose timestamp the chain reports. *)
Lemma transfer_timestamp_resolution_witness :
  let run := handleAssetTransferred quiet_env "A1" "0xBB" transfer_A1 in
  let lookup := S (S (S (tick world_A1))) in
  (rejects quiet_env lookup = true ->
   outcome run world_A1 = Throw (Rejected lookup) /\
   transfers (after run world_A1) = transfers world_A1) /\
  (rejects quiet_env lookup = false ->
   rejects quiet_env (S lookup) = false ->
   outcome run world_A1 = Ok tt /\
   exists row,
     find_transfer "0xt2" (after run world_A1) = Some row /\
     Transfer.timestamp row
     = toString (match block_timestamp quiet_env 20 with
                 | Some ts => ts
                 | None => clock quiet_env (S lookup)
                 end)).
Proof.
  apply (transfer_timestamp_resolution quiet_env world_A1 "A1" "0xBB"
           transfer_A1 "0xt2" 20
           (Asset.mk "A1" "0xaa" "Doc" "1000" 1700000000001)).
  - vm_compute. reflexivity.
  - vm_compute. reflexivity.
  - vm_compute. reflexivity.
  - reflexivity.
  - reflexivity.
  - reflexivity.
Defined.

(** ** The chunked loop *)

Lemma chunk_ranges_done K start cur :
  cur < start -> chunk_ranges K start cur = [].
Proof.
  intros H. unfold chunk_ranges, chunk_count.
  destruct (Z.leb_spec start cur); [lia|reflexivity].
Qed.

Lemma chunk_ranges_step K start cur :
  1 <= K -> start <= cur ->
  chunk_ranges K start cur
  = (start, Z.min (start + K - 1) cur) :: chunk_ranges K (start + K) cur.
Proof.
  intros HK Hle. unfold chunk_ranges, chunk_count.
  destruct (Z.leb_spec start cur); [|lia].
  assert (Z.to_nat ((cur - start) / K + 1)
          = S (if start + K <=? cur
               then Z.to_nat ((cur - (start + K)) / K + 1) else O)) as ->.
  { destruct (Z.leb_spec (start + K) cur).
    - replace (cur - start) with (cur - (start + K) + 1 * K) by lia.
      rewrite Z.div_add by lia.
      assert (0 <= (cur - (start + K)) / K) by (apply Z.div_pos; lia).
      lia.
    - rewrite Z.div_small by lia. reflexivity. }
  cbn [seq map]. f_equal.
  - unfold chunk_range. cbn. repeat f_equal; lia.
  - rewrite <- seq_shift, map_map. apply map_ext. intros i.
    unfold chunk_range. cbv zeta. f_equal; [|f_equal]; lia.
Qed.

Lemma try_catch_swallow (m : M unit) w :
  try_catch m (fun _ => ret tt) w = (Ok tt, after m w).
Proof.
  unfold try_catch, after, ret. destruct (m w) as [[[]|e] w']; reflexivity.
Qed.

(** The loop never runs out of fuel, always completes, and leaves the
    world obtained by attempting every chunk in ascending order. *)
Lemma sync_loop_run env K cur :
  1 <= K ->
  forall fuel start w,
    (Z.to_nat (cur - start + 1) <= fuel)%nat ->
    sync_loop env fuel K start cur w
    = (Ok tt, fold_left (attempt_chunk env) (chunk_ranges K start cur) w).
Proof.
  intros HK. induction fuel as [|fuel IH]; intros start w Hfuel.
  - cbn [sync_loop]. destruct (Z.leb_spec start cur); [lia|].
    now rewrite chunk_ranges_done by lia.
  - cbn [sync_loop]. destruct (Z.leb_spec start cur).
    + rewrite chunk_ranges_step by lia. cbn [fold_left].
      unfold bind at 1. rewrite try_catch_swallow.
      rewrite IH by lia. reflexivity.
    + now rewrite chunk_ranges_done by lia.
Qed.

Lemma sync_fuel_enough env K fromBlock w :
  1 <= K ->
  rejects env (tick w) = false ->
  syncHistoricalEvents_by env K fromBlock w
  = (Ok tt,
     fold_left (attempt_chunk env)
       (chunk_ranges K fromBlock (chain_height env)) (next_point w)).
Proof.
  intros HK R0.
  unfold syncHistoricalEvents_by, try_catch, bind, getBlockNumber, await.
  rewrite R0. rewrite (sync_loop_run env K (chain_height env) HK)
    by (unfold sync_fuel; lia).
  reflexivity.
Qed.

(** *** The queries a sync issues *)

Ltac split_answers :=
  repeat (simpl_world;
          match goal with
          | |- context [rejects ?e ?n] => destruct (rejects e n)
          | |- context [metadata ?e] => destruct (metadata e) as [[? ?]|]
          | |- context [List.find ?f ?l] => destruct (List.find f l)
          | |- context [existsb ?f ?l] => destruct (existsb f l)
          | |- context [block_timestamp ?e ?n] => destruct (block_timestamp e n)
          end);
  simpl_world.

Lemma handleAssetRegistered_queries env id owner description timestamp event w :
  queries (after (handleAssetRegistered env id owner description timestamp
                    event) w) = queries w.
Proof. unfold_run. split_answers; reflexivity. Qed.

Lemma handleAssetTransferred_queries env id newOwner event w :
  queries (after (handleAssetTransferred env id newOwner event) w) = queries w.
Proof. unfold_run. split_answers; reflexivity. Qed.

Lemma for_each_queries (f : Event -> M unit) events :
  (forall e w, queries (after (f e) w) = queries w) ->
  forall w, queries (after (for_each events f) w) = queries w.
Proof.
  intros Hf. induction events as [|e events IH]; intros w; [reflexivity|].
  unfold after in *. cbn [for_each]. unfold bind.
  specialize (Hf e w). destruct (f e w) as [[[]|err] w1]; cbn [snd] in *.
  - now rewrite IH.
  - exact Hf.
Qed.

Lemma apply_registered_queries env e w :
  queries (after (apply_registered env e) w) = queries w.
Proof.
  unfold apply_registered. destruct (args e).
  - apply handleAssetRegistered_queries.
  - reflexivity.
Qed.

Lemma apply_transferred_queries env e w :
  queries (after (apply_transferred env e) w) = queries w.
Proof.
  unfold apply_transferred.
  destruct (args e); apply handleAssetTransferred_queries.
Qed.

Lemma queried_ranges_app kind qs qs' :
  queried_ranges kind (qs ++ qs')
  = queried_ranges kind qs ++ queried_ranges kind qs'.
Proof. unfold queried_ranges. apply flat_map_app. Qed.

(** Whatever rejects inside it, a chunk issues exactly one query for
    Registered events, over its own range. *)
Lemma attempt_chunk_queries env w range :
  queried_ranges AssetRegistered (queries (attempt_chunk env w range))
  = queried_ranges AssetRegistered (queries w)
    ++ [(fst range, Some (snd range))].
Proof.
  destruct range as [a b]. unfold attempt_chunk, sync_chunk, after. cbn [fst snd].
  unfold bind at 1. unfold queryFilter at 1, await at 1. simpl_world.
  destruct (rejects env (tick w)); simpl_world.
  { now rewrite queried_ranges_app. }
  unfold bind at 1.
  pose proof (for_each_queries (apply_registered env)
                (chain_events env AssetRegistered a (Some b))
                (apply_registered_queries env)
                (next_point (log_query (AssetRegistered, a, Some b) w))) as Hq.
  unfold after in Hq.
  destruct (for_each _ _ _) as [[[]|err] w1]; cbn [snd] in Hq.
  2:{ cbn [snd]. rewrite Hq. simpl_world. now rewrite queried_ranges_app. }
  unfold bind at 1. unfold queryFilter at 1, await at 1. simpl_world.
  destruct (rejects env (tick w1)); simpl_world.
  { rewrite Hq. simpl_world. rewrite !queried_ranges_app. cbn.
    now rewrite app_nil_r. }
  unfold bind at 1.
  pose proof (for_each_queries (apply_transferred env)
                (chain_events env AssetTransferred a (Some b))
                (apply_transferred_queries env)
                (next_point (log_query (AssetTransferred, a, Some b) w1))) as Hq2.
  unfold after in Hq2.
  destruct (for_each _ _ _) as [[[]|err] w2]; cbn [snd] in Hq2;
    unfold sleep; simpl_world; rewrite Hq2; simpl_world; rewrite Hq; simpl_world;
    rewrite !queried_ranges_app; cbn; now rewrite app_nil_r.
Qed.

Lemma fold_attempt_queries env ranges w :
  queried_ranges AssetRegistered
    (queries (fold_left (attempt_chunk env) ranges w))
  = queried_ranges AssetRegistered (queries w)
    ++ map (fun r => (fst r, Some (snd r))) ranges.
Proof.
  revert w. induction ranges as [|r ranges IH]; intros w; cbn [fold_left map].
  - now rewrite app_nil_r.
  - rewrite IH, attempt_chunk_queries, <- app_assoc. reflexivity.
Qed.

(** ** Resilience of the backfill *)

(** The first chunk's query rejects: the sync still returns normally,
    the chunks [[10, 19]] and [[20, 20]] are fetched and applied, and A2
    (registered in block 15) is in the store; A1, whose events lie in
    the failed chunk, is not. *)
Example sync_skips_failed_chunk :
  let run := syncHistoricalEvents flaky_chain 0 in
  outcome run empty_world = Ok tt /\
  queries (after run empty_world)
  = [(AssetRegistered, 0, Some 9);
     (AssetRegistered, 10, Some 19); (AssetTransferred, 10, Some 19);
     (AssetRegistered, 20, Some 20); (AssetTransferred, 20, Some 20)] /\
  map Asset.id (assets (after run empty_world)) = ["A2"] /\
  map Transfer.transactionHash (transfers (after run empty_world)) = ["0xt3"].
Proof. vm_compute. repeat split. Qed.

(** ** The store as finite maps: refinement *)

Lemma has_id_decide pk a : has_id pk a = bool_decide (Asset.id a = pk).
Proof.
  unfold has_id. destruct (String.eqb_spec (Asset.id a) pk).
  - now rewrite bool_decide_eq_true_2.
  - now rewrite bool_decide_eq_false_2.
Qed.

Lemma has_hash_decide h t :
  has_hash h t = bool_decide (Transfer.transactionHash t = h).
Proof.
  unfold has_hash. destruct (String.eqb_spec (Transfer.transactionHash t) h).
  - now rewrite bool_decide_eq_true_2.
  - now rewrite bool_decide_eq_false_2.
Qed.

Lemma facts_of_represents w : represents w (facts_of w).
Proof.
  split; intros k; unfold facts_of, find_asset, find_transfer; cbn.
  - induction (assets w) as [|a l IH]; cbn; [apply lookup_empty|].
    rewrite lookup_insert, has_id_decide.
    destruct (decide (Asset.id a = k)).
    + now rewrite bool_decide_eq_true_2.
    + now rewrite bool_decide_eq_false_2.
  - induction (transfers w) as [|t l IH]; cbn; [apply lookup_empty|].
    rewrite lookup_insert, has_hash_decide.
    destruct (decide (Transfer.transactionHash t = k)).
    + now rewrite bool_decide_eq_true_2.
    + now rewrite bool_decide_eq_false_2.
Qed.

(** Appending a row under a key that is not in the table yet. *)
Lemma lookup_insert_snoc {A B} (key : A -> string) (facts : A -> B)
    (m : gmap string B) (l : list A) (x : A) k :
  (forall j, m !! j
             = option_map facts (List.find (fun y => String.eqb (key y) j) l)) ->
  List.find (fun y => String.eqb (key y) (key x)) l = None ->
  <[key x := facts x]> m !! k
  = option_map facts (List.find (fun y => String.eqb (key y) k) (l ++ [x])).
Proof.
  intros Hm Hfresh. rewrite lookup_insert, find_snoc.
  destruct (decide (key x = k)) as [<-|Hne].
  - rewrite Hfresh, String.eqb_refl. reflexivity.
  - rewrite Hm.
    destruct (List.find (fun y => String.eqb (key y) k) l); [reflexivity|].
    destruct (String.eqb_spec (key x) k); [contradiction|reflexivity].
Qed.

Lemma registered_assets_refines (m : gmap string AssetFacts) l at_ id owner
    description timestamp :
  (forall pk, m !! pk = option_map asset_facts (List.find (has_id pk) l)) ->
  forall pk,
    match m !! id with
    | Some _ => m
    | None => <[id := (id, toLowerCase owner, description, toString timestamp)]> m
    end !! pk
    = option_map asset_facts
        (List.find (has_id pk)
           (registered_assets at_ id owner description timestamp l)).
Proof.
  intros Hm pk. unfold registered_assets. rewrite (Hm id).
  destruct (List.find (has_id id) l) as [a|] eqn:F; cbn [option_map]; [apply Hm|].
  exact (lookup_insert_snoc Asset.id asset_facts m l
           (Asset.mk id (toLowerCase owner) description (toString timestamp) at_)
           pk Hm F).
Qed.

Lemma registered_transfers_refines (m : gmap string TransferFacts) l at_ id
    owner timestamp event :
  (forall h, m !! h = option_map transfer_facts (List.find (has_hash h) l)) ->
  forall k,
    match metadata event with
    | Some (h, bn) =>
        match m !! h with
        | Some _ => m
        | None => <[h := (id, None, toLowerCase owner, toString bn, h,
                          toString timestamp)]> m
        end
    | None => m
    end !! k
    = option_map transfer_facts
        (List.find (has_hash k)
           (registered_transfers at_ id owner timestamp event l)).
Proof.
  intros Hm k. unfold registered_transfers.
  destruct (metadata event) as [[h bn]|]; [|apply Hm].
  rewrite (Hm h).
  destruct (List.find (has_hash h) l) as [t|] eqn:F; cbn [option_map]; [apply Hm|].
  exact (lookup_insert_snoc Transfer.transactionHash transfer_facts m l
           (Transfer.mk (next_transfer_id l) id None (toLowerCase owner)
              (toString bn) h (toString timestamp) at_) k Hm F).
Qed.

Lemma transferred_assets_refines (m : gmap string AssetFacts) l id newOwner a :
  (forall pk, m !! pk = option_map asset_facts (List.find (has_id pk) l)) ->
  List.find (has_id id) l = Some a ->
  forall pk,
    <[id := (Asset.id a, toLowerCase newOwner, Asset.description a,
             Asset.timestamp a)]> m !! pk
    = option_map asset_facts
        (List.find (has_id pk) (transferred_assets id newOwner l)).
Proof.
  intros Hm Ha pk. rewrite (transferred_assets_found _ _ _ _ Ha), find_retarget.
  rewrite lookup_insert. destruct (decide (id = pk)) as [<-|Hne].
  - rewrite Ha. cbn. unfold retarget.
    apply find_some in Ha as [_ ->]. reflexivity.
  - rewrite Hm. destruct (List.find (has_id pk) l) as [x|] eqn:F; [|reflexivity].
    cbn. unfold retarget. apply find_has_id in F.
    destruct (String.eqb_spec (Asset.id x) id) as [E|E];
      unfold has_id; destruct (String.eqb_spec (Asset.id x) id);
      congruence.
Qed.

Lemma transferred_transfers_refines timestamps (m : gmap string TransferFacts)
    l la fb at_ id newOwner event a :
  (forall h, m !! h = option_map transfer_facts (List.find (has_hash h) l)) ->
  List.find (has_id id) la = Some a ->
  (forall h bn, metadata event = Some (h, bn) -> timestamps bn <> None) ->
  forall k,
    match metadata event with
    | Some (h, bn) =>
        match m !! h with
        | Some _ => m
        | None => <[h := (id, Some (Asset.owner a), toLowerCase newOwner,
                          toString bn, h,
                          toString (default 0 (timestamps bn)))]> m
        end
    | None => m
    end !! k
    = option_map transfer_facts
        (List.find (has_hash k)
           (transferred_transfers timestamps fb at_ id newOwner event la l)).
Proof.
  intros Hm Ha Hts k. unfold transferred_transfers. rewrite Ha.
  destruct (metadata event) as [[h bn]|] eqn:M; [|apply Hm].
  rewrite (Hm h).
  destruct (List.find (has_hash h) l) as [t|] eqn:F; cbn [option_map]; [apply Hm|].
  specialize (Hts h bn eq_refl).
  destruct (timestamps bn) as [ts|]; [|contradiction]. cbn [default].
  exact (lookup_insert_snoc Transfer.transactionHash transfer_facts m l
           (Transfer.mk (next_transfer_id l) id (Some (Asset.owner a))
              (toLowerCase newOwner) (toString bn) h (toString ts) at_)
           k Hm F).
Qed.

Section Refinement.
Context (env : Env) (Hff : fault_free env).

(** [handleAssetRegistered] is [facts_registered] on the facts. *)
Lemma registered_refines id owner description timestamp event w s :
  represents w s ->
  let run := handleAssetRegistered env id owner description timestamp event in
  outcome run w = Ok tt /\
  represents (after run w) (facts_registered id owner description timestamp event s).
Proof.
  intros [HA HT]. cbv zeta. unfold outcome, after.
  destruct (handleAssetRegistered_run env Hff id owner description timestamp
              event w) as (a1 & t1 & n1 & ->). cbn [fst snd].
  split; [reflexivity|]. split; cbn [facts_registered asset_map transfer_map].
  - now apply registered_assets_refines.
  - now apply registered_transfers_refines.
Qed.

(** [handleAssetTransferred] is [facts_transferred] on the facts, when
    the chain has a timestamp for the event's block. *)
Lemma transferred_refines id newOwner event w s :
  represents w s ->
  (forall h bn, metadata event = Some (h, bn) -> block_timestamp env bn <> None) ->
  let run := handleAssetTransferred env id newOwner event in
  outcome run w = Ok tt /\
  represents (after run w) (facts_transferred (block_timestamp env) id newOwner event s).
Proof.
  intros [HA HT] Hts. cbv zeta. unfold outcome, after.
  destruct (handleAssetTransferred_run env Hff id newOwner event w)
    as (f1 & t1 & n1 & ->). cbn [fst snd].
  split; [reflexivity|]. unfold facts_transferred. rewrite (HA id).
  unfold find_asset.
  destruct (List.find (has_id id) (assets w)) as [a|] eqn:Fa; cbn [option_map].
  - unfold asset_facts at 1.
    split; cbn [asset_map transfer_map]; unfold find_asset, find_transfer;
      cbn [assets transfers].
    + now apply transferred_assets_refines.
    + now apply transferred_transfers_refines.
  - split; unfold find_asset, find_transfer; cbn [assets transfers];
      unfold transferred_assets, transferred_transfers; rewrite Fa.
    + apply HA.
    + apply HT.
Qed.

End Refinement.

(** ** Independent events commute on the facts *)

Lemma metadata_as_event l h bn :
  metadata (as_event l) = Some (h, bn) -> h = el_tx l /\ bn = el_block l.
Proof.
  unfold metadata, as_event, queried, event_log, js_or, both_truthy. cbn.
  repeat match goal with
         | |- context [if ?c then _ else _] => destruct c; cbn
         end;
    intros H; inversion H; auto.
Qed.

Lemma facts_transferred_none timestamps id newOwner event s :
  asset_map s !! id = None ->
  facts_transferred timestamps id newOwner event s = s.
Proof. unfold facts_transferred. now intros ->. Qed.

Lemma facts_transferred_some timestamps id newOwner event s pk prev d ts :
  asset_map s !! id = Some (pk, prev, d, ts) ->
  facts_transferred timestamps id newOwner event s
  = {| asset_map := <[id := (pk, toLowerCase newOwner, d, ts)]> (asset_map s);
       transfer_map :=
         match metadata event with
         | Some (h, bn) =>
             match transfer_map s !! h with
             | Some _ => transfer_map s
             | None =>
                 <[h := (id, Some prev, toLowerCase newOwner, toString bn, h,
                         toString (default 0 (timestamps bn)))]>
                   (transfer_map s)
             end
         | None => transfer_map s
         end |}.
Proof. unfold facts_transferred. now intros ->. Qed.

Lemma facts_registered_other id owner description timestamp event s pk :
  pk <> id ->
  asset_map (facts_registered id owner description timestamp event s) !! pk
  = asset_map s !! pk.
Proof.
  intros Hne. unfold facts_registered. cbn [asset_map].
  destruct (asset_map s !! id); [reflexivity|]. now rewrite lookup_insert_ne.
Qed.

(** A Transferred entry and a Registered entry for different assets and
    from different transactions can be applied in either order. *)
Lemma facts_apply_commute timestamps s t r :
  kind_of (el_args t) = AssetTransferred ->
  kind_of (el_args r) = AssetRegistered ->
  asset_of (el_args t) <> asset_of (el_args r) ->
  el_tx t <> el_tx r ->
  facts_apply timestamps (facts_apply timestamps s t) r
  = facts_apply timestamps (facts_apply timestamps s r) t.
Proof.
  unfold facts_apply.
  destruct (el_args t) as [|idt newOwner]; [discriminate|].
  destruct (el_args r) as [idr owner description timestamp|]; [|discriminate].
  cbn [asset_of]. intros _ _ Hid Htx.
  assert (forall ht bt hr br,
            metadata (as_event t) = Some (ht, bt) ->
            metadata (as_event r) = Some (hr, br) -> ht <> hr) as Hh.
  { intros ht bt hr br Mt Mr.
    apply metadata_as_event in Mt as [-> _].
    apply metadata_as_event in Mr as [-> _]. exact Htx. }
  pose proof (facts_registered_other idr owner description timestamp
                (as_event r) s idt Hid) as Hother.
  destruct (asset_map s !! idt) as [[[[pk prev] d] ts]|] eqn:At.
  - rewrite (facts_transferred_some _ _ _ _ s pk prev d ts At).
    rewrite (facts_transferred_some _ _ _ _ _ pk prev d ts Hother).
    destruct s as [A T]. unfold facts_registered. cbn [asset_map transfer_map] in *.
    rewrite lookup_insert_ne by exact Hid.
    f_equal.
    + destruct (A !! idr); [reflexivity|]. now apply insert_insert_ne.
    + destruct (metadata (as_event t)) as [[ht bt]|] eqn:Mt;
        destruct (metadata (as_event r)) as [[hr br]|] eqn:Mr; try reflexivity.
      specialize (Hh ht bt hr br eq_refl eq_refl).
      destruct (T !! ht) eqn:Tt, (T !! hr) eqn:Tr;
        rewrite ?lookup_insert_ne, ?Tt, ?Tr by congruence;
        try reflexivity.
      now apply insert_insert_ne.
  - rewrite (facts_transferred_none _ _ _ _ s At).
    now rewrite (facts_transferred_none _ _ _ _ _ Hother).
Qed.

Lemma fold_left_push {S X} (f : S -> X -> S) (x : X) (l : list X) :
  (forall y s, In y l -> f (f s x) y = f (f s y) x) ->
  forall s, fold_left f l (f s x) = f (fold_left f l s) x.
Proof.
  induction l as [|y l IH]; intros Hc s; cbn [fold_left]; [reflexivity|].
  rewrite Hc by (now left). apply IH. intros; apply Hc. now right.
Qed.

Lemma fold_left_swap {S X} (f : S -> X -> S) (l1 l2 : list X) :
  (forall x y s, In x l1 -> In y l2 -> f (f s x) y = f (f s y) x) ->
  forall s, fold_left f l2 (fold_left f l1 s) = fold_left f l1 (fold_left f l2 s).
Proof.
  induction l1 as [|x l1 IH]; intros Hc s; cbn [fold_left]; [reflexivity|].
  rewrite IH by (intros; apply Hc; auto using in_cons).
  rewrite fold_left_push; [reflexivity|].
  intros y s' Hy. apply Hc; auto using in_eq.
Qed.

(** ** Ranges of an ascending log *)

Lemma logs_between_nil history kind a b :
  b < a -> logs_between history kind a b = [].
Proof.
  intros H. unfold logs_between.
  induction history as [|l history IH]; cbn; [reflexivity|].
  rewrite IH.
  destruct (Z.leb_spec a (el_block l)), (Z.leb_spec (el_block l) b);
    rewrite ?andb_false_r; cbn; try reflexivity; lia.
Qed.

Lemma logs_between_below history kind a b m :
  forallb (fun l => m <=? el_block l) history = true ->
  b < m -> logs_between history kind a b = [].
Proof.
  intros Hall Hb. unfold logs_between.
  induction history as [|l history IH]; cbn in *; [reflexivity|].
  apply andb_prop in Hall as [Hl Hall]. rewrite (IH Hall).
  apply Z.leb_le in Hl.
  destruct (Z.leb_spec (el_block l) b); [lia|].
  now rewrite !andb_false_r.
Qed.

Lemma forallb_le_trans history m m' :
  m' <= m ->
  forallb (fun l => m <=? el_block l) history = true ->
  forallb (fun l => m' <=? el_block l) history = true.
Proof.
  intros Hle H. rewrite forallb_forall in *. intros l Hl.
  specialize (H l Hl). apply Z.leb_le in H. apply Z.leb_le. lia.
Qed.

(** In an ascending log the entries of [[a, c]] are those of the first
    chunk followed by those from the next chunk's start on. *)
Lemma logs_between_split history kind a m c :
  blocks_ascending history = true ->
  a <= m ->
  logs_between history kind a c
  = logs_between history kind a (Z.min (m - 1) c)
    ++ logs_between history kind m c.
Proof.
  intros Hasc Ham.
  induction history as [|l history IH]; [reflexivity|].
  cbn [blocks_ascending] in Hasc. apply andb_prop in Hasc as [Hall Hasc].
  specialize (IH Hasc).
  destruct (Z.le_gt_cases m (el_block l)) as [Hq|Hq].
  - (* from here on every entry is at or after [m] *)
    assert (logs_between history kind a (Z.min (m - 1) c) = []) as Hnil.
    { apply (logs_between_below _ _ _ _ m); [|lia].
      now apply (forallb_le_trans _ (el_block l)). }
    rewrite Hnil in IH. cbn [app] in IH.
    unfold logs_between in *. cbn [List.filter].
    rewrite Hnil, IH.
    destruct (same_kind _ _); cbn [andb]; [|reflexivity].
    destruct (Z.leb_spec a (el_block l)), (Z.leb_spec m (el_block l)),
      (Z.leb_spec (el_block l) c), (Z.leb_spec (el_block l) (Z.min (m - 1) c));
      cbn; try reflexivity; lia.
  - unfold logs_between in *. cbn [List.filter]. rewrite IH.
    destruct (same_kind _ _); cbn [andb]; [|reflexivity].
    destruct (Z.leb_spec a (el_block l)), (Z.leb_spec m (el_block l)),
      (Z.leb_spec (el_block l) c), (Z.leb_spec (el_block l) (Z.min (m - 1) c));
      cbn; try reflexivity; lia.
Qed.

Lemma logs_between_kind history kind a b l :
  In l (logs_between history kind a b) ->
  In l history /\ kind_of (el_args l) = kind /\ a <= el_block l <= b.
Proof.
  unfold logs_between. rewrite filter_In. intros [Hin H].
  apply andb_prop in H as [Hk H]. apply andb_prop in H as [Ha Hb].
  apply Z.leb_le in Ha, Hb. repeat split; auto.
  destruct (kind_of (el_args l)), kind; auto; discriminate.
Qed.

(** ** Sync runs on a chain, seen on the facts *)

Lemma represents_same_tables w w' s :
  assets w' = assets w -> transfers w' = transfers w ->
  represents w s -> represents w' s.
Proof.
  intros HA HT [H1 H2]. unfold represents, find_asset, find_transfer.
  rewrite HA, HT. now split.
Qed.

Lemma registered_first_spec history t r :
  registered_first history = true ->
  In t history -> In r history ->
  kind_of (el_args t) = AssetTransferred ->
  kind_of (el_args r) = AssetRegistered ->
  asset_of (el_args t) = asset_of (el_args r) ->
  el_block r <= el_block t.
Proof.
  unfold registered_first. rewrite forallb_forall. intros H Ht Hr Kt Kr Heq.
  specialize (H t Ht). rewrite forallb_forall in H. specialize (H r Hr).
  rewrite Kt, Kr, Heq, String.eqb_refl in H. cbn in H. now apply Z.leb_le.
Qed.

Lemma tx_in_one_block_spec history l l' :
  tx_in_one_block history = true ->
  In l history -> In l' history ->
  el_tx l = el_tx l' -> el_block l = el_block l'.
Proof.
  unfold tx_in_one_block. rewrite forallb_forall. intros H Hl Hl' Heq.
  specialize (H l Hl). rewrite forallb_forall in H. specialize (H l' Hl').
  rewrite Heq, String.eqb_refl in H. cbn in H. now apply Z.eqb_eq.
Qed.

Lemma transfer_blocks_timestamped_spec timestamps history l :
  transfer_blocks_timestamped timestamps history = true ->
  In l history ->
  kind_of (el_args l) = AssetTransferred ->
  timestamps (el_block l) <> None.
Proof.
  unfold transfer_blocks_timestamped. rewrite forallb_forall. intros H Hl K.
  specialize (H l Hl). rewrite K in H. cbn in H.
  now destruct (timestamps (el_block l)).
Qed.

Section OnChain.
Context (history : list EventLog) (height : Z) (timestamps : Z -> option Z)
        (local_clock : nat -> Z).
Context (Hasc : blocks_ascending history = true)
        (Htx : tx_in_one_block history = true)
        (Hreg : registered_first history = true)
        (Hts : transfer_blocks_timestamped timestamps history = true).

Let env := chain_source history height timestamps local_clock.
Let step := facts_apply timestamps.
Let pass := facts_pass history timestamps.

Lemma chain_source_fault_free : fault_free env.
Proof. intros n. reflexivity. Qed.

Lemma for_each_registered_refines logs :
  (forall l, In l logs -> kind_of (el_args l) = AssetRegistered) ->
  forall w s,
    represents w s ->
    exists w',
      for_each (map as_event logs) (apply_registered env) w = (Ok tt, w') /\
      represents w' (fold_left step logs s).
Proof.
  induction logs as [|l logs IH]; intros Hk w s Hrep.
  - exists w. split; [reflexivity|exact Hrep].
  - cbn [map for_each fold_left]. unfold bind.
    assert (kind_of (el_args l) = AssetRegistered) as Kl by (apply Hk; now left).
    destruct (el_args l) as [id owner description timestamp|] eqn:El;
      [|discriminate].
    assert (apply_registered env (as_event l)
            = handleAssetRegistered env id owner description timestamp
                (as_event l)) as ->
      by (unfold apply_registered; cbn [as_event queried args]; now rewrite El).
    destruct (registered_refines env chain_source_fault_free id owner
                description timestamp (as_event l) w s Hrep) as [Hok Hrep'].
    unfold outcome, after in Hok, Hrep'.
    destruct (handleAssetRegistered _ _ _ _ _ _ w) as [r w1].
    cbn [fst snd] in Hok, Hrep'. subst r.
    apply IH; [intros; apply Hk; now right|].
    unfold step, facts_apply. rewrite El. exact Hrep'.
Qed.

Lemma for_each_transferred_refines logs :
  (forall l, In l logs ->
             In l history /\ kind_of (el_args l) = AssetTransferred) ->
  forall w s,
    represents w s ->
    exists w',
      for_each (map as_event logs) (apply_transferred env) w = (Ok tt, w') /\
      represents w' (fold_left step logs s).
Proof.
  induction logs as [|l logs IH]; intros Hk w s Hrep.
  - exists w. split; [reflexivity|exact Hrep].
  - cbn [map for_each fold_left]. unfold bind.
    destruct (Hk l (or_introl eq_refl)) as [Hin Kl].
    destruct (el_args l) as [|id newOwner] eqn:El; [discriminate|].
    assert (apply_transferred env (as_event l)
            = handleAssetTransferred env id newOwner (as_event l)) as ->
      by (unfold apply_transferred; cbn [as_event queried args]; now rewrite El).
    assert (forall h bn, metadata (as_event l) = Some (h, bn) ->
                         block_timestamp env bn <> None) as Hknown.
    { intros h bn M. apply metadata_as_event in M as [_ ->].
      apply (transfer_blocks_timestamped_spec timestamps history l Hts Hin).
      now rewrite El. }
    destruct (transferred_refines env chain_source_fault_free id newOwner
                (as_event l) w s Hrep Hknown) as [Hok Hrep'].
    unfold outcome, after in Hok, Hrep'.
    destruct (handleAssetTransferred _ _ _ _ w) as [r w1].
    cbn [fst snd] in Hok, Hrep'. subst r.
    apply IH; [intros; apply Hk; now right|].
    unfold step, facts_apply. rewrite El. exact Hrep'.
Qed.

Lemma queries_then_handlers_refine a (toBlock : option Z) b w s :
  b = match toBlock with Some t => Z.min t height | None => height end ->
  represents w s ->
  exists w',
    (let* registeredEvents := queryFilter env AssetRegistered a toBlock in
     do* for_each registeredEvents (apply_registered env) in
     let* transferredEvents := queryFilter env AssetTransferred a toBlock in
     for_each transferredEvents (apply_transferred env)) w = (Ok tt, w') /\
    represents w' (pass a b s).
Proof.
  intros Hb Hrep.
  unfold bind at 1. unfold queryFilter at 1, await at 1.
  cbn [rejects env chain_source]. simpl_world.
  cbn [chain_events env chain_source]. rewrite <- Hb.
  unfold bind at 1.
  destruct (for_each_registered_refines (logs_between history AssetRegistered a b)
              (fun l Hl => proj1 (proj2 (logs_between_kind _ _ _ _ l Hl)))
              (next_point (log_query (AssetRegistered, a, toBlock) w)) s)
    as (w1 & -> & Hrep1).
  { now apply (represents_same_tables w). }
  unfold bind at 1. unfold queryFilter at 1, await at 1.
  cbn [rejects env chain_source]. simpl_world.
  cbn [chain_events env chain_source]. rewrite <- Hb.
  apply for_each_transferred_refines.
  - intros l Hl. apply logs_between_kind in Hl. tauto.
  - now apply (represents_same_tables w1).
Qed.

Lemma sync_chunk_refines a b w s :
  b <= height ->
  represents w s ->
  represents (attempt_chunk env w (a, b)) (pass a b s).
Proof.
  intros Hb Hrep. unfold attempt_chunk, after, sync_chunk. cbn [fst snd].
  destruct (queries_then_handlers_refine a (Some b) b w s) as (w' & Hrun & Hrep');
    [lia|exact Hrep|].
  revert Hrun. unfold bind.
  destruct (queryFilter env AssetRegistered a (Some b) w) as [[evs|e] w1];
    [|discriminate].
  destruct (for_each evs (apply_registered env) w1) as [[[]|e] w2];
    [|discriminate].
  destruct (queryFilter env AssetTransferred a (Some b) w2) as [[evs'|e] w3];
    [|discriminate].
  destruct (for_each evs' (apply_transferred env) w3) as [[[]|e] w4];
    [|discriminate].
  intros [= <-]. unfold sleep. cbn [snd].
  now apply (represents_same_tables w4).
Qed.

(** Transfers of a chunk commute with the registrations of later
    chunks. *)
Lemma pass_split a m c s :
  a <= m ->
  pass m c (pass a (Z.min (m - 1) c) s) = pass a c s.
Proof.
  intros Ham. unfold pass, facts_pass.
  rewrite (logs_between_split history AssetRegistered a m c Hasc Ham).
  rewrite (logs_between_split history AssetTransferred a m c Hasc Ham).
  rewrite !fold_left_app. f_equal.
  apply fold_left_swap. intros t r s' Ht Hr.
  apply logs_between_kind in Ht as (Hint & Kt & Bt).
  apply logs_between_kind in Hr as (Hinr & Kr & Br).
  apply facts_apply_commute; auto.
  - intros Heq.
    pose proof (registered_first_spec history t r Hreg Hint Hinr Kt Kr Heq). lia.
  - intros Heq.
    pose proof (tx_in_one_block_spec history t r Htx Hint Hinr Heq). lia.
Qed.

Lemma pass_empty a c s : c < a -> pass a c s = s.
Proof.
  intros H. unfold pass, facts_pass. now rewrite !logs_between_nil by lia.
Qed.

(** Attempting every chunk of [[start, height]] amounts to one pass over
    that range. *)
Lemma chunks_refine K :
  1 <= K ->
  forall n start w s,
    (Z.to_nat (height - start + 1) <= n)%nat ->
    represents w s ->
    represents (fold_left (attempt_chunk env) (chunk_ranges K start height) w)
               (pass start height s).
Proof.
  intros HK. induction n as [|n IH]; intros start w s Hn Hrep.
  - rewrite chunk_ranges_done by lia. now rewrite pass_empty by lia.
  - destruct (Z.le_gt_cases start height) as [Hle|Hgt].
    + rewrite chunk_ranges_step by lia. cbn [fold_left].
      rewrite <- (pass_split start (start + K) height s) by lia.
      apply IH; [lia|].
      apply sync_chunk_refines; [lia|exact Hrep].
    + rewrite chunk_ranges_done by lia. now rewrite pass_empty by lia.
Qed.

Lemma chunked_sync_refines K fromBlock w s :
  1 <= K ->
  represents w s ->
  outcome (syncHistoricalEvents_by env K fromBlock) w = Ok tt /\
  represents (after (syncHistoricalEvents_by env K fromBlock) w)
             (pass fromBlock height s).
Proof.
  intros HK Hrep. unfold outcome, after.
  rewrite (sync_fuel_enough env K fromBlock w HK) by reflexivity.
  cbn [fst snd]. split; [reflexivity|].
  apply (chunks_refine K HK (Z.to_nat (height - fromBlock + 1))); [lia|].
  now apply (represents_same_tables w).
Qed.

Lemma single_pass_sync_refines fromBlock w s :
  represents w s ->
  outcome (syncHistoricalEvents_single_pass env fromBlock) w = Ok tt /\
  represents (after (syncHistoricalEvents_single_pass env fromBlock) w)
             (pass fromBlock height s).
Proof.
  intros Hrep. unfold outcome, after, syncHistoricalEvents_single_pass, try_catch.
  destruct (queries_then_handlers_refine fromBlock None height w s eq_refl Hrep)
    as (w' & -> & Hrep').
  cbn [fst snd]. split; [reflexivity|exact Hrep'].
Qed.

End OnChain.

(** ** The keys stay unique

    [unique_keys] is an invariant of the store under every entry point
    of the engine, whatever the environment does: the inserts check the
    key themselves. *)

Lemma preserves_ret {A} P (a : A) : preserves P (ret a).
Proof. intros w H. exact H. Qed.

Lemma preserves_throw {A} P e : preserves P (@throw A e).
Proof. intros w H. exact H. Qed.

Lemma preserves_bind {A B} P (m : M A) (k : A -> M B) :
  preserves P m -> (forall a, preserves P (k a)) -> preserves P (bind m k).
Proof.
  intros Hm Hk w H. unfold after, bind. specialize (Hm w H). unfold after in Hm.
  destruct (m w) as [[a|e] w1]; cbn [snd] in *; [now apply Hk|exact Hm].
Qed.

Lemma preserves_try_catch {A} P (m : M A) (h : Error -> M A) :
  preserves P m -> (forall e, preserves P (h e)) -> preserves P (try_catch m h).
Proof.
  intros Hm Hh w H. unfold after, try_catch. specialize (Hm w H).
  unfold after in Hm.
  destruct (m w) as [[a|e] w1]; cbn [snd] in *; [exact Hm|now apply Hh].
Qed.

Lemma preserves_for_each P (f : Event -> M unit) events :
  (forall e, preserves P (f e)) -> preserves P (for_each events f).
Proof.
  intros Hf. induction events as [|e events IH]; cbn [for_each].
  - apply preserves_ret.
  - apply preserves_bind; auto.
Qed.

Section UniqueKeys.
Context (env : Env).

Lemma unique_keys_tables w w' :
  assets w' = assets w -> transfers w' = transfers w ->
  unique_keys w -> unique_keys w'.
Proof. unfold unique_keys. now intros -> ->. Qed.

Lemma preserves_await {A} (call : M A) :
  preserves unique_keys call -> preserves unique_keys (await env call).
Proof.
  intros Hc w H. unfold after, await.
  destruct (rejects env (tick w)); cbn [snd].
  - now apply (unique_keys_tables w).
  - apply Hc. now apply (unique_keys_tables w).
Qed.

Lemma NoDup_snoc_fresh {A} (key : A -> string) (l : list A) (x : A) :
  NoDup (map key l) ->
  existsb (fun y => String.eqb (key y) (key x)) l = false ->
  NoDup (map key (l ++ [x])).
Proof.
  intros Hnd Hex. rewrite existsb_find in Hex.
  pose proof (NoDup_key_insert key (key x) l x Hnd eq_refl) as H.
  destruct (List.find (fun y => String.eqb (key y) (key x)) l);
    [discriminate|exact H].
Qed.

Lemma Asset_findByPk_unique pk : preserves unique_keys (Asset_findByPk env pk).
Proof. apply preserves_await. intros w H. exact H. Qed.

Lemma Transfer_findOne_unique h : preserves unique_keys (Transfer_findOne env h).
Proof. apply preserves_await. intros w H. exact H. Qed.

Lemma getBlock_unique n : preserves unique_keys (getBlock env n).
Proof. apply preserves_await. intros w H. exact H. Qed.

Lemma now_unique : preserves unique_keys (now env).
Proof. intros w H. exact H. Qed.

Lemma Asset_create_unique a : preserves unique_keys (Asset_create env a).
Proof.
  apply preserves_await. intros w [HA HT]. unfold after.
  destruct (existsb (has_id (Asset.id a)) (assets w)) eqn:E; cbn [snd].
  - now split.
  - split; [|exact HT]. cbn [set_assets assets].
    now apply (NoDup_snoc_fresh Asset.id).
Qed.

Lemma Asset_save_unique a : preserves unique_keys (Asset_save env a).
Proof.
  apply preserves_await. intros w [HA HT]. unfold after. cbn [snd].
  split; [|exact HT]. cbn [set_assets assets].
  rewrite map_map.
  erewrite map_ext; [exact HA|].
  intros x. cbn beta. now destruct (has_id (Asset.id a) x).
Qed.

Lemma Transfer_create_unique assetId fromOwner toOwner blockNumber h timestamp at_ :
  preserves unique_keys
    (Transfer_create env assetId fromOwner toOwner blockNumber h timestamp at_).
Proof.
  apply preserves_await. intros w [HA HT]. unfold after.
  destruct (existsb (has_hash h) (transfers w)) eqn:E; cbn [snd]; [now split|].
  destruct (negb (existsb (has_id assetId) (assets w))); cbn [snd]; [now split|].
  split; [exact HA|]. cbn [set_transfers transfers].
  now apply (NoDup_snoc_fresh Transfer.transactionHash).
Qed.

Lemma handleAssetRegistered_unique id owner description timestamp event :
  preserves unique_keys
    (handleAssetRegistered env id owner description timestamp event).
Proof.
  unfold handleAssetRegistered.
  apply preserves_bind; [apply Asset_findByPk_unique|]. intros existing.
  apply preserves_bind.
  { destruct existing; [apply preserves_ret|].
    apply preserves_bind; [apply now_unique|]. intros at_.
    apply Asset_create_unique. }
  intros _. destruct (metadata event) as [[h bn]|]; [|apply preserves_ret].
  apply preserves_bind; [apply Transfer_findOne_unique|]. intros existing'.
  destruct existing'; [apply preserves_ret|].
  apply preserves_bind; [apply now_unique|]. intros at_.
  apply Transfer_create_unique.
Qed.

Lemma handleAssetTransferred_unique id newOwner event :
  preserves unique_keys (handleAssetTransferred env id newOwner event).
Proof.
  unfold handleAssetTransferred.
  apply preserves_bind; [apply Asset_findByPk_unique|]. intros asset.
  destruct asset as [asset|]; [|apply preserves_ret].
  apply preserves_bind; [apply Asset_save_unique|]. intros _.
  destruct (metadata event) as [[h bn]|]; [|apply preserves_ret].
  apply preserves_bind; [apply Transfer_findOne_unique|]. intros existing.
  destruct existing; [apply preserves_ret|].
  apply preserves_bind; [apply getBlock_unique|]. intros block.
  apply preserves_bind.
  { destruct block; [apply preserves_ret|].
    apply preserves_bind; [apply now_unique|]. intros; apply preserves_ret. }
  intros ts. apply preserves_bind; [apply now_unique|]. intros at_.
  apply Transfer_create_unique.
Qed.

Lemma apply_registered_unique e : preserves unique_keys (apply_registered env e).
Proof.
  unfold apply_registered. destruct (args e).
  - apply handleAssetRegistered_unique.
  - apply preserves_throw.
Qed.

Lemma apply_transferred_unique e : preserves unique_keys (apply_transferred env e).
Proof.
  unfold apply_transferred.
  destruct (args e); apply handleAssetTransferred_unique.
Qed.

Lemma queryFilter_unique kind a b : preserves unique_keys (queryFilter env kind a b).
Proof.
  intros w H. unfold after, queryFilter.
  apply (preserves_await (fun w' => (Ok (chain_events env kind a b), w'))).
  - intros w' H'. exact H'.
  - now apply (unique_keys_tables w).
Qed.

Lemma sync_chunk_unique a b : preserves unique_keys (sync_chunk env a b).
Proof.
  unfold sync_chunk.
  apply preserves_bind; [apply queryFilter_unique|]. intros evs.
  apply preserves_bind;
    [apply preserves_for_each, apply_registered_unique|]. intros _.
  apply preserves_bind; [apply queryFilter_unique|]. intros evs'.
  apply preserves_bind;
    [apply preserves_for_each, apply_transferred_unique|]. intros _.
  intros w H. now apply (unique_keys_tables w).
Qed.

Lemma sync_loop_unique fuel K start cur :
  preserves unique_keys (sync_loop env fuel K start cur).
Proof.
  revert start. induction fuel as [|fuel IH]; intros start; cbn [sync_loop];
    destruct (start <=? cur); try apply preserves_ret; try apply preserves_throw.
  apply preserves_bind; [|intros _; apply IH].
  apply preserves_try_catch; [apply sync_chunk_unique|].
  intros e. apply preserves_ret.
Qed.

(** The chunked backfill keeps the keys unique. *)
Lemma syncHistoricalEvents_by_unique K fromBlock :
  preserves unique_keys (syncHistoricalEvents_by env K fromBlock).
Proof.
  unfold syncHistoricalEvents_by.
  apply preserves_try_catch; [|intros e; apply preserves_throw].
  apply preserves_bind.
  - apply preserves_await. intros w H. exact H.
  - intros cur. apply sync_loop_unique.
Qed.

(** So does the single pass. *)
Lemma syncHistoricalEvents_single_pass_unique fromBlock :
  preserves unique_keys (syncHistoricalEvents_single_pass env fromBlock).
Proof.
  unfold syncHistoricalEvents_single_pass.
  apply preserves_try_catch; [|intros e; apply preserves_throw].
  apply preserves_bind; [apply queryFilter_unique|]. intros evs.
  apply preserves_bind;
    [apply preserves_for_each, apply_registered_unique|]. intros _.
  apply preserves_bind; [apply queryFilter_unique|]. intros evs'.
  apply preserves_for_each, apply_transferred_unique.
Qed.

End UniqueKeys.

(** ** Tables with the same lookups hold the same rows *)

Lemma NoDup_key_inj {A} (key : A -> string) (l : list A) y y' :
  NoDup (map key l) -> In y l -> In y' l -> key y = key y' -> y = y'.
Proof.
  induction l as [|x l IH]; cbn; intros Hnd Hy Hy' Heq; [contradiction|].
  inversion Hnd as [|? ? Hnotin Hnd']; subst.
  destruct Hy as [->|Hy], Hy' as [->|Hy']; auto.
  - exfalso. apply Hnotin. rewrite Heq. apply list_elem_of_In. now apply in_map.
  - exfalso. apply Hnotin. rewrite <- Heq. apply list_elem_of_In. now apply in_map.
Qed.

Lemma NoDup_map_facts {A B} (key : A -> string) (facts : A -> B)
    (proj : B -> string) (l : list A) :
  (forall x, proj (facts x) = key x) ->
  NoDup (map key l) -> NoDup (map facts l).
Proof.
  intros Hproj. induction l as [|x l IH]; cbn; intros Hnd; [constructor|].
  inversion Hnd as [|? ? Hnotin Hnd']; subst. constructor; [|auto].
  intros Hin. apply Hnotin.
  apply list_elem_of_In, in_map_iff in Hin as (y & Hy & Hyl).
  apply list_elem_of_In, in_map_iff. exists y. split; [|exact Hyl].
  now rewrite <- !Hproj, Hy.
Qed.

Lemma in_facts_find {A B} (key : A -> string) (facts : A -> B)
    (proj : B -> string) (l : list A) (x : B) :
  (forall y, proj (facts y) = key y) ->
  NoDup (map key l) ->
  In x (map facts l)
  <-> option_map facts (List.find (fun y => String.eqb (key y) (proj x)) l)
      = Some x.
Proof.
  intros Hproj Hnd. split.
  - intros Hin. apply in_map_iff in Hin as (y & <- & Hy).
    rewrite Hproj.
    destruct (List.find (fun z => String.eqb (key z) (key y)) l) as [y'|] eqn:F.
    + apply find_some in F as [Hy' E]. apply String.eqb_eq in E.
      cbn. f_equal. f_equal. now apply (NoDup_key_inj key l).
    + apply (find_none _ _ F) in Hy. cbn beta in Hy.
      now rewrite String.eqb_refl in Hy.
  - destruct (List.find _ l) as [y|] eqn:F; [|discriminate].
    cbn. intros [= <-]. apply find_some in F as [Hy _]. now apply in_map.
Qed.

Lemma same_rows_by_key {A B} (key : A -> string) (facts : A -> B)
    (proj : B -> string) (l l' : list A) :
  (forall y, proj (facts y) = key y) ->
  NoDup (map key l) -> NoDup (map key l') ->
  (forall k,
     option_map facts (List.find (fun y => String.eqb (key y) k) l)
     = option_map facts (List.find (fun y => String.eqb (key y) k) l')) ->
  Permutation (map facts l) (map facts l').
Proof.
  intros Hproj Hnd Hnd' Hsame. apply NoDup_Permutation.
  - now apply (NoDup_map_facts key facts proj).
  - now apply (NoDup_map_facts key facts proj).
  - intros x. rewrite !list_elem_of_In.
    rewrite (in_facts_find key facts proj l x Hproj Hnd).
    rewrite (in_facts_find key facts proj l' x Hproj Hnd').
    now rewrite Hsame.
Qed.

(** ** Chunked backfill against the single pass *)

(** C4 as stated fails: on a chain where A1 is registered in block 5 and
    transferred in block 6 and A2 is registered in block 15, the chunked
    backfill of [[0, 20]] inserts A1's transfer before A2's registration
    row and the single pass after it, so the two Transfer tables differ
    (in row order and in the ids the rows were given), although the
    local clock is constant and the Asset tables are equal. *)
Lemma chunking_reorders_transfer_rows :
  let chunked := after (syncHistoricalEvents two_chunk_chain 0) empty_world in
  let single :=
    after (syncHistoricalEvents_single_pass two_chunk_chain 0) empty_world in
  assets chunked = assets single /\
  map Transfer.transactionHash (transfers chunked) = ["0xt1"; "0xt2"; "0xt3"] /\
  map Transfer.transactionHash (transfers single) = ["0xt1"; "0xt3"; "0xt2"] /\
  transfers chunked <> transfers single.
Proof. vm_compute. repeat split. discriminate. Qed.

(** C4, amended.  On a chain whose log is in ascending block order,
    where a transaction lies in one block, no Transferred entry of an
    asset precedes the block of a Registered entry of that asset, and
    every block holding a Transferred entry has a timestamp: for every
    chunk size of at least one block, every start block and every
    store, the chunked backfill and the single pass both complete, and
    they leave the same Asset rows and the same Transfer rows up to the
    locally assigned columns ([registeredAt], Transfer [id],
    [transferredAt]): the same row is found under every asset id and
    under every transaction hash, and when the store's keys were unique
    the two Asset tables and the two Transfer tables are permutations of
    each other. *)
Theorem chunked_backfill_agrees
    history height timestamps local_clock chunk_size fromBlock w :
  1 <= chunk_size ->
  blocks_ascending history = true ->
  tx_in_one_block history = true ->
  registered_first history = true ->
  transfer_blocks_timestamped timestamps history = true ->
  let env := chain_source history height timestamps local_clock in
  let chunked := syncHistoricalEvents_by env chunk_size fromBlock in
  let single := syncHistoricalEvents_single_pass env fromBlock in
  outcome chunked w = Ok tt /\ outcome single w = Ok tt /\
  (forall pk,
     option_map asset_facts (find_asset pk (after chunked w))
     = option_map asset_facts (find_asset pk (after single w))) /\
  (forall h,
     option_map transfer_facts (find_transfer h (after chunked w))
     = option_map transfer_facts (find_transfer h (after single w))) /\
  (unique_keys w ->
   Permutation (map asset_facts (assets (after chunked w)))
               (map asset_facts (assets (after single w))) /\
   Permutation (map transfer_facts (transfers (after chunked w)))
               (map transfer_facts (transfers (after single w)))).
Proof.
  intros HK Hasc Htx Hreg Hts. cbv zeta.
  pose proof (facts_of_represents w) as Hrep.
  destruct (chunked_sync_refines history height timestamps local_clock
              Hasc Htx Hreg Hts chunk_size fromBlock w (facts_of w) HK Hrep)
    as [Hok1 [HA1 HT1]].
  destruct (single_pass_sync_refines history height timestamps local_clock
              Hts fromBlock w (facts_of w) Hrep)
    as [Hok2 [HA2 HT2]].
  assert (forall pk,
     option_map asset_facts
       (find_asset pk (after (syncHistoricalEvents_by
          (chain_source history height timestamps local_clock) chunk_size
          fromBlock) w))
     = option_map asset_facts
         (find_asset pk (after (syncHistoricalEvents_single_pass
            (chain_source history height timestamps local_clock)
            fromBlock) w))) as HA
    by (intros pk; now rewrite <- HA1, <- HA2).
  assert (forall h,
     option_map transfer_facts
       (find_transfer h (after (syncHistoricalEvents_by
          (chain_source history height timestamps local_clock) chunk_size
          fromBlock) w))
     = option_map transfer_facts
         (find_transfer h (after (syncHistoricalEvents_single_pass
            (chain_source history height timestamps local_clock)
            fromBlock) w))) as HT
    by (intros h; now rewrite <- HT1, <- HT2).
  repeat split; auto.
  - destruct (syncHistoricalEvents_by_unique
                (chain_source history height timestamps local_clock)
                chunk_size fromBlock w H)
      as [Hc _].
    destruct (syncHistoricalEvents_single_pass_unique
                (chain_source history height timestamps local_clock)
                fromBlock w H)
      as [Hs _].
    exact (same_rows_by_key Asset.id asset_facts
             (fun f => fst (fst (fst f))) _ _ (fun _ => eq_refl) Hc Hs HA).
  - destruct (syncHistoricalEvents_by_unique
                (chain_source history height timestamps local_clock)
                chunk_size fromBlock w H)
      as [_ Hc].
    destruct (syncHistoricalEvents_single_pass_unique
                (chain_source history height timestamps local_clock)
                fromBlock w H)
      as [_ Hs].
    exact (same_rows_by_key Transfer.transactionHash transfer_facts
             (fun f => snd (fst f)) _ _ (fun _ => eq_refl) Hc Hs HT).
Qed.

(** The two-chunk chain, in chunks of 10 blocks. *)
Lemma chunked_backfill_agrees_witness :
  let env := two_chunk_chain in
  let chunked := syncHistoricalEvents_by env 10 0 in
  let single := syncHistoricalEvents_single_pass env 0 in
  let w := empty_world in
  outcome chunked w = Ok tt /\ outcome single w = Ok tt /\
  (forall pk,
     option_map asset_facts (find_asset pk (after chunked w))
     = option_map asset_facts (find_asset pk (after single w))) /\
  (forall h,
     option_map transfer_facts (find_transfer h (after chunked w))
     = option_map transfer_facts (find_transfer h (after single w))) /\
  (unique_keys w ->
   Permutation (map asset_facts (assets (after chunked w)))
               (map asset_facts (assets (after single w))) /\
   Permutation (map transfer_facts (transfers (after chunked w)))
               (map transfer_facts (transfers (after single w)))).
Proof.
  apply (chunked_backfill_agrees two_chunk_history 20 (fun n => Some (100 * n))
           (fun _ => 0) 10 0 empty_world).
  - lia.
  - vm_compute. reflexivity.
  - vm_compute. reflexivity.
  - vm_compute. reflexivity.
  - vm_compute. reflexivity.
Defined.

(** Each condition on the log is needed.  A transfer that precedes its
    asset's registration is dropped by the chunked backfill and applied
    by the single pass. *)
Example early_transfer_disagrees :
  registered_first early_transfer_history = false /\
  both_backfills early_transfer_history (fun n => Some (100 * n)) (fun _ => 0)
    (fun w => option_map Asset.owner (find_asset "A1" w))
  = (Some "0xaa", Some "0xbb").
Proof. vm_compute. split; reflexivity. Qed.

(** One hash in two blocks: each run records the event it meets
    first. *)
Example split_tx_disagrees :
  tx_in_one_block split_tx_history = false /\
  both_backfills split_tx_history (fun n => Some (100 * n)) (fun _ => 0)
    (fun w => option_map Transfer.assetId (find_transfer "0xtx" w))
  = (Some "A1", Some "A2").
Proof. vm_compute. split; reflexivity. Qed.

(** A log out of block order: the single pass follows the log, the
    chunked backfill the blocks. *)
Example unordered_log_disagrees :
  blocks_ascending unordered_history = false /\
  both_backfills unordered_history (fun n => Some (100 * n)) (fun _ => 0)
    (fun w => option_map Asset.owner (find_asset "A1" w))
  = (Some "0xaa", Some "0xcc").
Proof. vm_compute. split; reflexivity. Qed.

(** No block timestamps: each run stores its own reading of the local
    clock. *)
Example missing_timestamp_disagrees :
  transfer_blocks_timestamped (fun _ => None) two_chunk_history = false /\
  both_backfills two_chunk_history (fun _ => None) (fun n => Z.of_nat n)
    (fun w => option_map Transfer.timestamp (find_transfer "0xt2" w))
  = (Some "11", Some "14").
Proof. vm_compute. split; reflexivity. Qed.

(** ** The ownership chain of one asset *)

Lemma linked_snoc prev rows r :
  linked prev rows ->
  Transfer.fromOwner r = end_of prev rows ->
  linked prev (rows ++ [r]) /\
  end_of prev (rows ++ [r]) = Some (Transfer.toOwner r).
Proof.
  revert prev. induction rows as [|x rows IH]; cbn; intros prev Hl Hr.
  - auto.
  - destruct Hl as [Hx Hl]. destruct (IH _ Hl Hr) as [H1 H2]. auto.
Qed.

Lemma linked_is_chain rows : linked None rows -> is_chain rows.
Proof.
  assert (forall prev rs, linked prev rs ->
            (forall r, nth_error rs 0 = Some r -> Transfer.fromOwner r = prev) /\
            (forall i r r', nth_error rs i = Some r ->
                            nth_error rs (S i) = Some r' ->
                            Transfer.fromOwner r' = Some (Transfer.toOwner r)))
    as H.
  { intros prev rs. revert prev.
    induction rs as [|x rs IH]; cbn; intros prev Hl.
    - split; [intros r [=]|intros [|i] r r' [=]].
    - destruct Hl as [Hx Hl]. destruct (IH _ Hl) as [H0 HS]. split.
      + now intros r [= <-].
      + intros [|i] r r' Hr Hr'; cbn in Hr, Hr'.
        * injection Hr as <-. now apply H0.
        * now apply (HS i). }
  intros Hl. exact (H None rows Hl).
Qed.

Lemma transfers_of_snoc pk l (t : Transfer.row) :
  List.filter (of_asset pk) (l ++ [t])
  = List.filter (of_asset pk) l ++ (if of_asset pk t then [t] else []).
Proof. apply filter_snoc. Qed.

Section Chain.
Context (env : Env) (Hff : fault_free env) (id : string).

Lemma fresh_steps_snoc steps w w' t :
  transfers w' = transfers w ++ [t] ->
  (forall o e h bn, In (o, e) steps -> metadata e = Some (h, bn) ->
                    h <> Transfer.transactionHash t) ->
  fresh_steps steps w -> fresh_steps steps w'.
Proof.
  intros Ht. induction steps as [|[o e] steps IH]; cbn; [auto|].
  intros Hne [(h & bn & M & F & D) Hrest]. split.
  - exists h, bn. repeat split; auto.
    unfold find_transfer in *. rewrite Ht, find_snoc, F.
    unfold has_hash. destruct (String.eqb_spec (Transfer.transactionHash t) h);
      [|reflexivity].
    exfalso. apply (Hne o e h bn); auto.
  - apply IH; auto. intros o' e' h' bn' Hin. apply (Hne o' e' h' bn'). auto.
Qed.

Lemma transfer_each_chain steps :
  forall w a,
    find_asset id w = Some a ->
    linked None (transfers_of id w) ->
    end_of None (transfers_of id w) = Some (Asset.owner a) ->
    fresh_steps steps w ->
    let run := transfer_each env id steps in
    outcome run w = Ok tt /\
    linked None (transfers_of id (after run w)) /\
    length (transfers_of id (after run w))
    = (length (transfers_of id w) + length steps)%nat.
Proof.
  induction steps as [|[newOwner event] steps IH]; intros w a Ha Hl He Hfresh;
    cbv zeta.
  - cbn. repeat split; auto.
  - destruct Hfresh as [(h & bn & M & F & D) Hrest].
    cbn [transfer_each]. unfold outcome, after, bind.
    destruct (handleAssetTransferred_run env Hff id newOwner event w)
      as (f1 & t1 & n1 & ->).
    unfold find_asset in Ha. unfold find_transfer in F.
    set (row := Transfer.mk (next_transfer_id (transfers w)) id
                  (Some (Asset.owner a)) (toLowerCase newOwner) (toString bn) h
                  (toString (match block_timestamp env bn with
                             | Some t => t
                             | None => f1
                             end)) t1).
    assert (transferred_transfers (block_timestamp env) f1 t1 id newOwner event
              (assets w) (transfers w) = transfers w ++ [row]) as Etr.
    { unfold transferred_transfers. now rewrite Ha, M, F. }
    rewrite Etr.
    set (w1 := {| assets := transferred_assets id newOwner (assets w);
                  transfers := transfers w ++ [row];
                  tick := n1; queries := queries w |}).
    assert (transfers_of id w1 = transfers_of id w ++ [row]) as Erows.
    { unfold transfers_of, w1. cbn [transfers]. rewrite transfers_of_snoc.
      unfold of_asset at 2. cbn. now rewrite String.eqb_refl. }
    destruct (linked_snoc None (transfers_of id w) row Hl) as [Hl1 He1].
    { cbn. now rewrite He. }
    destruct (IH w1 (Asset.set_owner a (toLowerCase newOwner))) as (Hok & Hlk & Hlen).
    + unfold find_asset, w1. cbn [assets].
      rewrite (transferred_assets_found _ _ _ _ Ha), find_retarget, Ha. cbn.
      unfold retarget. apply find_some in Ha as [_ ->]. reflexivity.
    + now rewrite Erows.
    + now rewrite Erows, He1.
    + apply (fresh_steps_snoc steps w w1 row); [reflexivity| |exact Hrest].
      intros o e h' bn' Hin M'. cbn. now apply (D o e h' bn').
    + unfold outcome, after in Hok, Hlk, Hlen. cbn [fst snd].
      repeat split; auto.
      rewrite Hlen, Erows, length_app. cbn. lia.
Qed.

End Chain.

(** C3 as stated fails when two Transferred events of the asset come
    from one transaction: the second one changes the owner but finds the
    hash taken and records nothing, so the next row starts from an owner
    that no row ends with. *)
Lemma batched_transfers_break_chain :
  let rows :=
    transfers_of "A1"
      (after (register_then_transfer quiet_env "A1" "0xAA" "Doc" 1000
                register_A1 batched_transfers) empty_world) in
  map Transfer.fromOwner rows = [None; Some "0xaa"; Some "0xcc"] /\
  map Transfer.toOwner rows = ["0xaa"; "0xbb"; "0xdd"] /\
  ~ is_chain rows.
Proof.
  vm_compute. repeat split. intros [_ H].
  specialize (H 1%nat _ _ eq_refl eq_refl). discriminate.
Qed.

(** It also fails when an event of the sequence lacks its transaction
    metadata: the owner changes without a row. *)
Lemma bare_transfer_breaks_chain :
  let rows :=
    transfers_of "A1"
      (after (register_then_transfer quiet_env "A1" "0xAA" "Doc" 1000
                register_A1 bare_transfers) empty_world) in
  map Transfer.fromOwner rows = [None; Some "0xbb"] /\
  map Transfer.toOwner rows = ["0xaa"; "0xcc"] /\
  ~ is_chain rows.
Proof.
  vm_compute. repeat split. intros [_ H].
  specialize (H 0%nat _ _ eq_refl eq_refl). discriminate.
Qed.

(** The chain, with the conditions on the steps in the recursive form
    the induction uses. *)
Lemma chain_from_fresh_steps env w id owner description timestamp event steps
    h0 b0 :
  fault_free env ->
  find_asset id w = None ->
  transfers_of id w = [] ->
  metadata event = Some (h0, b0) ->
  find_transfer h0 w = None ->
  (forall o e h bn, In (o, e) steps -> metadata e = Some (h, bn) -> h <> h0) ->
  fresh_steps steps w ->
  let run := register_then_transfer env id owner description timestamp event
               steps in
  outcome run w = Ok tt /\
  length (transfers_of id (after run w)) = S (length steps) /\
  is_chain (transfers_of id (after run w)).
Proof.
  intros Hff Ha Hrows M F Hne Hfresh. cbv zeta.
  unfold register_then_transfer, outcome, after, bind.
  destruct (handleAssetRegistered_run env Hff id owner description timestamp
              event w) as (a1 & t1 & n1 & ->).
  unfold find_asset in Ha. unfold find_transfer in F.
  unfold registered_assets, registered_transfers. rewrite Ha, M, F.
  set (row := Transfer.mk (next_transfer_id (transfers w)) id None
                (toLowerCase owner) (toString b0) h0 (toString timestamp) t1).
  set (asset := Asset.mk id (toLowerCase owner) description (toString timestamp) a1).
  set (w1 := {| assets := assets w ++ [asset]; transfers := transfers w ++ [row];
                tick := n1; queries := queries w |}).
  assert (transfers_of id w1 = [row]) as Erows.
  { unfold transfers_of in *. unfold w1. cbn [transfers].
    rewrite transfers_of_snoc, Hrows. unfold of_asset. cbn.
    now rewrite String.eqb_refl. }
  destruct (transfer_each_chain env Hff id steps w1 asset) as (Hok & Hl & Hlen).
  - unfold find_asset, w1. cbn [assets]. rewrite find_snoc, Ha.
    unfold has_hash, has_id. cbn. now rewrite String.eqb_refl.
  - rewrite Erows. cbn. auto.
  - rewrite Erows. reflexivity.
  - apply (fresh_steps_snoc steps w w1 row); [reflexivity| |exact Hfresh].
    intros o e h bn Hin M'. cbn. now apply (Hne o e h bn).
  - unfold outcome, after in Hok, Hl, Hlen.
    split; [exact Hok|]. split; [|now apply linked_is_chain].
    rewrite Hlen, Erows. reflexivity.
Qed.

(** Metadata on every step, with distinct and new hashes, is what
    [fresh_steps] asks for. *)
Lemma fresh_steps_intro steps w :
  (forall s, In s steps -> step_hash s <> None) ->
  NoDup (map step_hash steps) ->
  (forall h, In (Some h) (map step_hash steps) -> find_transfer h w = None) ->
  fresh_steps steps w.
Proof.
  induction steps as [|[o e] steps IH]; cbn [fresh_steps map]; intros Hm Hnd Hnew;
    [exact I|].
  inversion Hnd as [|? ? Hnotin Hnd']; subst. split.
  - pose proof (Hm (o, e) (or_introl eq_refl)) as Hsome.
    unfold step_hash in Hsome, Hnotin, Hnew. cbn [snd] in Hsome, Hnotin, Hnew.
    destruct (metadata e) as [[h bn]|] eqn:M; [|contradiction].
    exists h, bn. repeat split.
    + apply Hnew. now left.
    + intros o' e' h' bn' Hin M' ->. apply Hnotin.
      apply list_elem_of_In, in_map_iff. exists (o', e'). split; [|exact Hin].
      unfold step_hash. cbn [snd]. now rewrite M'.
  - apply IH; auto.
    + intros s Hs. apply Hm. now right.
    + intros h Hh. apply Hnew. now right.
Qed.

(** C3, amended.  For an asset that the store does not know yet (no
    Asset row, no Transfer rows), when nothing rejects, the Registered
    event and every Transferred event carry transaction metadata, and
    their transaction hashes are new to the store and pairwise distinct:
    applying the Registered event and then the N Transferred events in
    order completes, leaves N+1 Transfer rows for the asset, and these
    rows, in insertion order, form a chain. *)
Theorem transfer_chain env w id owner description timestamp event steps h0 b0 :
  fault_free env ->
  find_asset id w = None ->
  transfers_of id w = [] ->
  metadata event = Some (h0, b0) ->
  (forall s, In s steps -> step_hash s <> None) ->
  NoDup (Some h0 :: map step_hash steps) ->
  (forall h, In (Some h) (Some h0 :: map step_hash steps) ->
             find_transfer h w = None) ->
  let run := register_then_transfer env id owner description timestamp event
               steps in
  outcome run w = Ok tt /\
  length (transfers_of id (after run w)) = S (length steps) /\
  is_chain (transfers_of id (after run w)).
Proof.
  intros Hff Ha Hrows M Hm Hnd Hnew.
  inversion Hnd as [|? ? Hnotin Hnd']; subst.
  apply (chain_from_fresh_steps env w id owner description timestamp event steps
           h0 b0); auto.
  - apply Hnew. now left.
  - intros o e h bn Hin M' ->. apply Hnotin.
    apply list_elem_of_In, in_map_iff. exists (o, e). split; [|exact Hin].
    unfold step_hash. cbn [snd]. now rewrite M'.
  - apply fresh_steps_intro; auto. intros h Hh. apply Hnew. now right.
Qed.

(** A1 registered, then transferred twice in two transactions. *)
Lemma transfer_chain_witness :
  let run := register_then_transfer quiet_env "A1" "0xAA" "Doc" 1000 register_A1
               plain_transfers in
  outcome run empty_world = Ok tt /\
  length (transfers_of "A1" (after run empty_world)) = 3%nat /\
  is_chain (transfers_of "A1" (after run empty_world)).
Proof.
  apply (transfer_chain quiet_env empty_world "A1" "0xAA" "Doc" 1000 register_A1
           plain_transfers "0xt1" 10).
  - intros n. reflexivity.
  - reflexivity.
  - reflexivity.
  - vm_compute. reflexivity.
  - intros s [<-|[<-|[]]]; vm_compute; discriminate.
  - apply (bool_decide_unpack _). vm_compute. exact I.
  - intros h [H|[H|[H|[]]]]; vm_compute in H; injection H as <-; reflexivity.
Defined.

(** ** Numbers are persisted as their decimal text *)

Lemma parse_toString z : parseDecimal (toString z) = Some z.
Proof.
  unfold parseDecimal, toString. rewrite NilZero.isi.
  - cbn. f_equal. apply DecimalZ.of_to.
  - destruct z; cbn; try discriminate.
    intros [= H]. now apply DecimalPos.Unsigned.to_uint_nonnil in H.
  - destruct z; cbn; try discriminate.
    intros [= H]. now apply DecimalPos.Unsigned.to_uint_nonnil in H.
Qed.

Lemma toString_inj z z' : toString z = toString z' -> z = z'.
Proof.
  intros H. apply (f_equal parseDecimal) in H.
  rewrite !parse_toString in H. now injection H.
Qed.












Ltac run_cases :=
  unfold_run;
  repeat (simpl_world;
          match goal with
          | |- context [rejects ?e ?n] => destruct (rejects e n)
          | |- context [block_timestamp ?e ?n] => destruct (block_timestamp e n)
          | |- context [existsb ?f ?l] => destruct (existsb f l)
          end);
  simpl_world.

Lemma handleAssetRegistered_tables env id owner description timestamp event w :
  let w' := after (handleAssetRegistered env id owner description timestamp
                     event) w in
  exists at1 at2,
    (assets w' = assets w \/
     assets w' = registered_assets at1 id owner description timestamp (assets w)) /\
    (transfers w' = transfers w \/
     assets w' = registered_assets at1 id owner description timestamp (assets w) /\
     transfers w'
     = registered_transfers at2 id owner timestamp event (transfers w)).
Proof.
  cbv zeta. unfold registered_assets, registered_transfers.
  unfold_run.
  destruct (rejects env (tick w)); simpl_world; [exists 0, 0; auto|].
  destruct (List.find (has_id id) (assets w)) as [a|] eqn:Fa; simpl_world.
  - destruct (metadata event) as [[h bn]|]; simpl_world; [|exists 0, 0; auto].
    destruct (rejects env (S (tick w))); simpl_world; [exists 0, 0; auto|].
    destruct (List.find (has_hash h) (transfers w)) as [t|] eqn:Ft; simpl_world;
      [exists 0, 0; auto|].
    destruct (rejects env (S (S (tick w)))); simpl_world; [exists 0, 0; auto|].
    rewrite !existsb_find, Ft, Fa. simpl_world.
    exists 0. eexists. split; [auto|]. right. split; reflexivity.
  - destruct (rejects env (S (tick w))); simpl_world; [exists 0, 0; auto|].
    rewrite existsb_find. cbn [Asset.id]. rewrite Fa. simpl_world.
    destruct (metadata event) as [[h bn]|]; simpl_world;
      [|eexists; exists 0; split; [right; reflexivity|auto]].
    destruct (rejects env (S (S (tick w)))); simpl_world;
      [eexists; exists 0; split; [right; reflexivity|auto]|].
    destruct (List.find (has_hash h) (transfers w)) as [t|] eqn:Ft; simpl_world;
      [eexists; exists 0; split; [right; reflexivity|auto]|].
    destruct (rejects env (S (S (S (tick w))))); simpl_world;
      [eexists; exists 0; split; [right; reflexivity|auto]|].
    rewrite !existsb_find, Ft, find_snoc, Fa.
    match goal with
    | |- context [has_id id ?a] =>
        replace (has_id id a) with true by (symmetry; apply String.eqb_refl)
    end.
    simpl_world.
    eexists. eexists. split; [right; reflexivity|]. right. split; reflexivity.
Qed.

Lemma handleAssetTransferred_tables env id newOwner event w :
  let w' := after (handleAssetTransferred env id newOwner event) w in
  exists fb at_,
    (assets w' = assets w /\ transfers w' = transfers w) \/
    (assets w' = transferred_assets id newOwner (assets w) /\
     (transfers w' = transfers w \/
      transfers w'
      = transferred_transfers (block_timestamp env) fb at_ id newOwner event
          (assets w) (transfers w))).
Proof.
  cbv zeta. unfold transferred_assets, transferred_transfers.
  unfold_run.
  destruct (rejects env (tick w)); simpl_world; [exists 0, 0; auto|].
  destruct (List.find (has_id id) (assets w)) as [a|] eqn:Fa; simpl_world;
    [|exists 0, 0; auto].
  destruct (rejects env (S (tick w))); simpl_world; [exists 0, 0; auto|].
  assert (Asset.id (Asset.set_owner a (toLowerCase newOwner)) = id) as ->
    by (cbn; eauto using find_has_id).
  cbn [Asset.owner Asset.set_owner].
  change (fun x => if has_id id x
                   then Asset.set_owner x (toLowerCase newOwner) else x)
    with (retarget id (toLowerCase newOwner)).
  destruct (metadata event) as [[h bn]|]; simpl_world; [|exists 0, 0; auto].
  destruct (rejects env (S (S (tick w)))); simpl_world; [exists 0, 0; auto|].
  destruct (List.find (has_hash h) (transfers w)) as [t|] eqn:Ft; simpl_world;
    [exists 0, 0; auto|].
  destruct (rejects env (S (S (S (tick w))))); simpl_world; [exists 0, 0; auto|].
  destruct (block_timestamp env bn) as [ts|]; simpl_world;
    (destruct (rejects env (S (S (S (S (tick w)))))); simpl_world;
     [exists 0, 0; auto|]);
    rewrite (existsb_find (has_hash h)), Ft, existsb_retarget, existsb_find, Fa;
    simpl_world;
    first [ solve [exists 0; eexists; right; split;
                   [reflexivity|right; reflexivity]]
          | solve [eexists; eexists; right; split;
                   [reflexivity|right; reflexivity]] ].
Qed.

(** ** Lifting a relation from the handlers to the syncs *)

Lemma keeps_bind {A B} (R : World -> World -> Prop) (m : M A) (k : A -> M B) :
  (forall w, R w w) ->
  (forall a b c, R a b -> R b c -> R a c) ->
  keeps R m -> (forall a, keeps R (k a)) -> keeps R (bind m k).
Proof.
  intros Hrefl Htrans Hm Hk w. unfold after, bind.
  specialize (Hm w). unfold after in Hm.
  destruct (m w) as [[a|e] w1]; cbn [snd] in *; [|exact Hm].
  eapply Htrans; [exact Hm|]. apply Hk.
Qed.

Lemma keeps_try_catch {A} (R : World -> World -> Prop) (m : M A)
    (h : Error -> M A) :
  (forall a b c, R a b -> R b c -> R a c) ->
  keeps R m -> (forall e, keeps R (h e)) -> keeps R (try_catch m h).
Proof.
  intros Htrans Hm Hh w. unfold after, try_catch.
  specialize (Hm w). unfold after in Hm.
  destruct (m w) as [[a|e] w1]; cbn [snd] in *; [exact Hm|].
  eapply Htrans; [exact Hm|]. apply Hh.
Qed.

Section Lift.
Context (env : Env) (R : World -> World -> Prop).
Context (R_trans : forall a b c, R a b -> R b c -> R a c)
        (R_tables : forall w w', assets w' = assets w ->
                                 transfers w' = transfers w -> R w w')
        (R_registered : forall id owner description timestamp event,
            keeps R (handleAssetRegistered env id owner description timestamp
                       event))
        (R_transferred : forall id newOwner event,
            keeps R (handleAssetTransferred env id newOwner event)).

Lemma R_refl w : R w w.
Proof. now apply R_tables. Qed.

Lemma keeps_pure {A} (r : result A) : keeps R (fun w => (r, w)).
Proof. intros w. apply R_refl. Qed.

Lemma for_each_keeps (f : Event -> M unit) events :
  (forall e, keeps R (f e)) -> keeps R (for_each events f).
Proof.
  intros Hf. induction events as [|e events IH]; cbn [for_each].
  - apply (keeps_pure (Ok tt)).
  - apply keeps_bind; auto using R_refl.
Qed.

Lemma apply_registered_keeps e : keeps R (apply_registered env e).
Proof.
  unfold apply_registered. destruct (args e).
  - apply R_registered.
  - apply (keeps_pure (Throw TypeError)).
Qed.

Lemma apply_transferred_keeps e : keeps R (apply_transferred env e).
Proof. unfold apply_transferred. destruct (args e); apply R_transferred. Qed.

Lemma queryFilter_keeps kind a b : keeps R (queryFilter env kind a b).
Proof.
  intros w. unfold after, queryFilter, await. cbn [tick log_query].
  destruct (rejects env (tick w)); cbn [snd]; now apply R_tables.
Qed.

Lemma sync_chunk_keeps a b : keeps R (sync_chunk env a b).
Proof.
  unfold sync_chunk.
  apply keeps_bind; auto using R_refl, queryFilter_keeps. intros evs.
  apply keeps_bind; auto using R_refl, for_each_keeps, apply_registered_keeps.
  intros _.
  apply keeps_bind; auto using R_refl, queryFilter_keeps. intros evs'.
  apply keeps_bind; auto using R_refl, for_each_keeps, apply_transferred_keeps.
  intros _ w. now apply R_tables.
Qed.

Lemma sync_loop_keeps fuel K start cur : keeps R (sync_loop env fuel K start cur).
Proof.
  revert start. induction fuel as [|fuel IH]; intros start; cbn [sync_loop];
    destruct (start <=? cur);
    try apply (keeps_pure (Ok tt)); try apply (keeps_pure (Throw LoopFuel)).
  apply keeps_bind; auto using R_refl.
  apply keeps_try_catch; auto using sync_chunk_keeps.
  intros e. apply (keeps_pure (Ok tt)).
Qed.

Lemma syncHistoricalEvents_by_keeps K fromBlock :
  keeps R (syncHistoricalEvents_by env K fromBlock).
Proof.
  unfold syncHistoricalEvents_by.
  apply keeps_try_catch; auto. 2: intros e; apply (keeps_pure (Throw e)).
  apply keeps_bind; auto using R_refl, sync_loop_keeps.
  intros w. unfold after, getBlockNumber, await.
  destruct (rejects env (tick w)); cbn [snd]; now apply R_tables.
Qed.

Lemma syncHistoricalEvents_keeps fromBlock :
  keeps R (syncHistoricalEvents env fromBlock).
Proof. apply syncHistoricalEvents_by_keeps. Qed.

Lemma syncHistoricalEvents_single_pass_keeps fromBlock :
  keeps R (syncHistoricalEvents_single_pass env fromBlock).
Proof.
  unfold syncHistoricalEvents_single_pass.
  apply keeps_try_catch; auto. 2: intros e; apply (keeps_pure (Throw e)).
  apply keeps_bind; auto using R_refl, queryFilter_keeps. intros evs.
  apply keeps_bind; auto using R_refl, for_each_keeps, apply_registered_keeps.
  intros _.
  apply keeps_bind; auto using R_refl, queryFilter_keeps. intros evs'.
  apply for_each_keeps, apply_transferred_keeps.
Qed.

End Lift.

(** ** Referential integrity *)

Lemma existsb_registered_assets pk at_ id owner description timestamp l :
  existsb (has_id pk) l = true ->
  existsb (has_id pk)
    (registered_assets at_ id owner description timestamp l) = true.
Proof.
  intros H. unfold registered_assets.
  destruct (List.find (has_id id) l); [exact H|].
  rewrite existsb_app, H. reflexivity.
Qed.

Lemma existsb_transferred_assets pk id newOwner l :
  existsb (has_id pk) (transferred_assets id newOwner l)
  = existsb (has_id pk) l.
Proof.
  unfold transferred_assets.
  destruct (List.find (has_id id) l); [apply existsb_retarget|reflexivity].
Qed.

Lemma in_registered_transfers t at_ id owner timestamp event l :
  In t (registered_transfers at_ id owner timestamp event l) ->
  In t l \/
  (Transfer.assetId t = id /\ Transfer.fromOwner t = None /\
   Transfer.toOwner t = toLowerCase owner).
Proof.
  unfold registered_transfers.
  destruct (metadata event) as [[h bn]|]; [|auto].
  destruct (List.find (has_hash h) l); [auto|].
  intros H. apply in_app_or in H as [H|[<-|[]]]; auto.
Qed.

Lemma in_transferred_transfers t bts fb at_ id newOwner event la l :
  In t (transferred_transfers bts fb at_ id newOwner event la l) ->
  In t l \/
  (Transfer.assetId t = id /\ Transfer.toOwner t = toLowerCase newOwner /\
   exists a, List.find (has_id id) la = Some a /\
             Transfer.fromOwner t = Some (Asset.owner a)).
Proof.
  unfold transferred_transfers.
  destruct (List.find (has_id id) la) as [a|]; [|auto].
  destruct (metadata event) as [[h bn]|]; [|auto].
  destruct (List.find (has_hash h) l); [auto|].
  intros H. apply in_app_or in H as [H|[<-|[]]]; eauto 7.
Qed.

Lemma handleAssetRegistered_references env id owner description timestamp event :
  keeps (fun w w' => references_hold w -> references_hold w')
        (handleAssetRegistered env id owner description timestamp event).
Proof.
  intros w Href t Hin.
  destruct (handleAssetRegistered_tables env id owner description timestamp
              event w) as (at1 & at2 & HA & HT).
  cbv zeta in HA, HT.
  destruct HT as [HT|[HA' HT]].
  - rewrite HT in Hin. specialize (Href t Hin).
    destruct HA as [-> | ->]; [exact Href|].
    now apply existsb_registered_assets.
  - rewrite HT in Hin. rewrite HA'.
    apply in_registered_transfers in Hin as [Hin|(-> & _)].
    + now apply existsb_registered_assets, Href.
    + rewrite existsb_find.
      now destruct (registered_find id owner description timestamp at1
                      (assets w)) as [a ->].
Qed.

Lemma handleAssetTransferred_references env id newOwner event :
  keeps (fun w w' => references_hold w -> references_hold w')
        (handleAssetTransferred env id newOwner event).
Proof.
  intros w Href t Hin.
  destruct (handleAssetTransferred_tables env id newOwner event w)
    as (fb & at_ & [[HA HT]|[HA HT]]); cbv zeta in HA, HT.
  - rewrite HA. rewrite HT in Hin. now apply Href.
  - rewrite HA, existsb_transferred_assets.
    destruct HT as [HT|HT]; rewrite HT in Hin; [now apply Href|].
    apply in_transferred_transfers in Hin as [Hin|(-> & _ & a & Fa & _)].
    + now apply Href.
    + now rewrite existsb_find, Fa.
Qed.

(** ** The store only grows *)

Lemma frozen_retarget pk o x : frozen (retarget pk o x) = frozen x.
Proof. unfold retarget. now destruct (has_id pk x). Qed.

Lemma grows_refl w : grows w w.
Proof. split; exists []; now rewrite app_nil_r. Qed.

Lemma grows_trans a b c : grows a b -> grows b c -> grows a c.
Proof.
  intros [[t1 Ht1] [a1 Ha1]] [[t2 Ht2] [a2 Ha2]]. split.
  - exists (t1 ++ t2). now rewrite Ht2, Ht1, app_assoc.
  - exists (a1 ++ a2). now rewrite Ha2, Ha1, app_assoc.
Qed.

Lemma grows_tables w w' :
  assets w' = assets w -> transfers w' = transfers w -> grows w w'.
Proof. intros HA HT. split; exists []; now rewrite ?HA, ?HT, app_nil_r. Qed.

Lemma registered_assets_grow at_ id owner description timestamp l :
  exists added,
    map frozen (registered_assets at_ id owner description timestamp l)
    = map frozen l ++ added.
Proof.
  unfold registered_assets. destruct (List.find (has_id id) l).
  - exists []. now rewrite app_nil_r.
  - eexists. now rewrite map_app.
Qed.

Lemma registered_transfers_grow at_ id owner timestamp event l :
  exists added,
    registered_transfers at_ id owner timestamp event l = l ++ added.
Proof.
  unfold registered_transfers.
  destruct (metadata event) as [[h bn]|]; [|exists []; now rewrite app_nil_r].
  destruct (List.find (has_hash h) l); [exists []; now rewrite app_nil_r|].
  eexists. reflexivity.
Qed.

Lemma transferred_assets_frozen id newOwner l :
  map frozen (transferred_assets id newOwner l) = map frozen l.
Proof.
  unfold transferred_assets. destruct (List.find (has_id id) l); [|reflexivity].
  rewrite map_map. apply map_ext. intros x. apply frozen_retarget.
Qed.

Lemma transferred_transfers_grow bts fb at_ id newOwner event la l :
  exists added,
    transferred_transfers bts fb at_ id newOwner event la l = l ++ added.
Proof.
  unfold transferred_transfers.
  destruct (List.find (has_id id) la); [|exists []; now rewrite app_nil_r].
  destruct (metadata event) as [[h bn]|]; [|exists []; now rewrite app_nil_r].
  destruct (List.find (has_hash h) l); [exists []; now rewrite app_nil_r|].
  eexists. reflexivity.
Qed.

Lemma handleAssetRegistered_grows env id owner description timestamp event :
  keeps grows (handleAssetRegistered env id owner description timestamp event).
Proof.
  intros w.
  destruct (handleAssetRegistered_tables env id owner description timestamp
              event w) as (at1 & at2 & HA & HT).
  cbv zeta in HA, HT. split.
  - destruct HT as [-> | [_ ->]]; [exists []; now rewrite app_nil_r|].
    apply registered_transfers_grow.
  - destruct HA as [-> | ->]; [exists []; now rewrite app_nil_r|].
    apply registered_assets_grow.
Qed.

Lemma handleAssetTransferred_grows env id newOwner event :
  keeps grows (handleAssetTransferred env id newOwner event).
Proof.
  intros w.
  destruct (handleAssetTransferred_tables env id newOwner event w)
    as (fb & at_ & [[HA HT]|[HA HT]]); cbv zeta in HA, HT.
  - now apply grows_tables.
  - split.
    + destruct HT as [-> | ->]; [exists []; now rewrite app_nil_r|].
      apply transferred_transfers_grow.
    + rewrite HA, transferred_assets_frozen. exists []. now rewrite app_nil_r.
Qed.

(** ** Addresses are kept in lower case *)

Lemma lower_ascii_idem c : lower_ascii (lower_ascii c) = lower_ascii c.
Proof. destruct c as [[] [] [] [] [] [] [] []]; reflexivity. Qed.

Lemma toLowerCase_idem s : toLowerCase (toLowerCase s) = toLowerCase s.
Proof.
  induction s as [|c s IH]; cbn; [reflexivity|].
  now rewrite lower_ascii_idem, IH.
Qed.

Lemma handleAssetRegistered_lowercase env id owner description timestamp event :
  keeps (fun w w' => addresses_lowercase w -> addresses_lowercase w')
        (handleAssetRegistered env id owner description timestamp event).
Proof.
  intros w [HA HT].
  destruct (handleAssetRegistered_tables env id owner description timestamp
              event w) as (at1 & at2 & HA' & HT').
  cbv zeta in HA', HT'. split.
  - intros a Hin. destruct HA' as [HA' | HA']; rewrite HA' in Hin; [auto|].
    unfold registered_assets in Hin.
    destruct (List.find (has_id id) (assets w)); [auto|].
    apply in_app_or in Hin as [Hin|[<-|[]]]; [auto|]. apply toLowerCase_idem.
  - intros t Hin. destruct HT' as [HT' | [_ HT']]; rewrite HT' in Hin; [auto|].
    apply in_registered_transfers in Hin as [Hin|(_ & Hfrom & Hto)]; [auto|].
    rewrite Hto, Hfrom. split; [apply toLowerCase_idem|discriminate].
Qed.

Lemma handleAssetTransferred_lowercase env id newOwner event :
  keeps (fun w w' => addresses_lowercase w -> addresses_lowercase w')
        (handleAssetTransferred env id newOwner event).
Proof.
  intros w [HA HT].
  destruct (handleAssetTransferred_tables env id newOwner event w)
    as (fb & at_ & [[HA' HT']|[HA' HT']]); cbv zeta in HA', HT'.
  - split; intros x Hin; rewrite ?HA', ?HT' in Hin; auto.
  - split.
    + intros a Hin. rewrite HA' in Hin. unfold transferred_assets in Hin.
      destruct (List.find (has_id id) (assets w)); [|auto].
      apply in_map_iff in Hin as (x & <- & Hx). unfold retarget.
      destruct (has_id id x); [apply toLowerCase_idem|auto].
    + intros t Hin. destruct HT' as [HT' | HT']; rewrite HT' in Hin; [auto|].
      apply in_transferred_transfers in Hin
        as [Hin|(_ & Hto & a & Fa & Hfrom)]; [auto|].
      rewrite Hto, Hfrom. split; [apply toLowerCase_idem|].
      intros o [= <-]. apply HA. now apply find_some in Fa.
Qed.

(** ** What every entry point keeps *)

(** X1.  The primary key of Asset and the unique transaction hash of
    Transfer stay unique under both handlers, the chunked backfill and
    the single pass, in any environment (whatever rejects, wherever). *)
Theorem engine_keeps_keys_unique env w :
  unique_keys w ->
  (forall id owner description timestamp event,
     unique_keys (after (handleAssetRegistered env id owner description
                           timestamp event) w)) /\
  (forall id newOwner event,
     unique_keys (after (handleAssetTransferred env id newOwner event) w)) /\
  (forall fromBlock,
     unique_keys (after (syncHistoricalEvents env fromBlock) w)) /\
  (forall fromBlock,
     unique_keys (after (syncHistoricalEvents_single_pass env fromBlock) w)).
Proof.
  intros H. split; [|split; [|split]]; intros.
  - now apply handleAssetRegistered_unique.
  - now apply handleAssetTransferred_unique.
  - now apply syncHistoricalEvents_by_unique.
  - now apply syncHistoricalEvents_single_pass_unique.
Qed.

(** A store with A1 and its registration row respects its keys. *)
Lemma engine_keeps_keys_unique_witness :
  let env := flaky_chain in
  let w := world_A1 in
  (forall id owner description timestamp event,
     unique_keys (after (handleAssetRegistered env id owner description
                           timestamp event) w)) /\
  (forall id newOwner event,
     unique_keys (after (handleAssetTransferred env id newOwner event) w)) /\
  (forall fromBlock,
     unique_keys (after (syncHistoricalEvents env fromBlock) w)) /\
  (forall fromBlock,
     unique_keys (after (syncHistoricalEvents_single_pass env fromBlock) w)).
Proof.
  apply (engine_keeps_keys_unique flaky_chain world_A1).
  split; apply (bool_decide_unpack _); vm_compute; exact I.
Defined.

(** X2.  Referential integrity: when every Transfer row refers to an
    Asset row of the store, it still does after either handler, the
    chunked backfill or the single pass, in any environment.  No Transfer
    row is ever left without its Asset. *)
Theorem engine_keeps_references env w :
  references_hold w ->
  (forall id owner description timestamp event,
     references_hold (after (handleAssetRegistered env id owner description
                               timestamp event) w)) /\
  (forall id newOwner event,
     references_hold (after (handleAssetTransferred env id newOwner event) w)) /\
  (forall fromBlock,
     references_hold (after (syncHistoricalEvents env fromBlock) w)) /\
  (forall fromBlock,
     references_hold (after (syncHistoricalEvents_single_pass env fromBlock) w)).
Proof.
  intros H.
  assert (forall a b c : World,
            (references_hold a -> references_hold b) ->
            (references_hold b -> references_hold c) ->
            references_hold a -> references_hold c) as Htrans by auto.
  assert (forall a b : World,
            assets b = assets a -> transfers b = transfers a ->
            references_hold a -> references_hold b) as Htables.
  { intros a b HA HT Ha t Hin. rewrite HA. rewrite HT in Hin. now apply Ha. }
  split; [|split; [|split]]; intros.
  - now apply handleAssetRegistered_references.
  - now apply handleAssetTransferred_references.
  - apply (syncHistoricalEvents_keeps env _ Htrans Htables
             (handleAssetRegistered_references env)
             (handleAssetTransferred_references env) fromBlock w H).
  - apply (syncHistoricalEvents_single_pass_keeps env _ Htrans Htables
             (handleAssetRegistered_references env)
             (handleAssetTransferred_references env) fromBlock w H).
Qed.

Lemma engine_keeps_references_witness :
  let env := flaky_chain in
  let w := world_A1 in
  (forall id owner description timestamp event,
     references_hold (after (handleAssetRegistered env id owner description
                               timestamp event) w)) /\
  (forall id newOwner event,
     references_hold (after (handleAssetTransferred env id newOwner event) w)) /\
  (forall fromBlock,
     references_hold (after (syncHistoricalEvents env fromBlock) w)) /\
  (forall fromBlock,
     references_hold (after (syncHistoricalEvents_single_pass env fromBlock) w)).
Proof.
  apply (engine_keeps_references flaky_chain world_A1).
  intros t [<-|[]]. reflexivity.
Defined.

(** X3.  The store only grows.  After either handler, the chunked
    backfill or the single pass, in any environment, the Transfer rows
    that were there are still the first rows of the table, unchanged,
    and the Asset rows that were there are still the first rows of
    theirs with the same id, description, timestamp and registeredAt:
    nothing is deleted, no Transfer row is rewritten, and of an Asset row
    only the owner can change. *)
Theorem engine_only_grows env w :
  (forall id owner description timestamp event,
     grows w (after (handleAssetRegistered env id owner description timestamp
                       event) w)) /\
  (forall id newOwner event,
     grows w (after (handleAssetTransferred env id newOwner event) w)) /\
  (forall fromBlock, grows w (after (syncHistoricalEvents env fromBlock) w)) /\
  (forall fromBlock,
     grows w (after (syncHistoricalEvents_single_pass env fromBlock) w)).
Proof.
  split; [|split; [|split]]; intros.
  - apply handleAssetRegistered_grows.
  - apply handleAssetTransferred_grows.
  - apply (syncHistoricalEvents_keeps env grows grows_trans grows_tables
             (handleAssetRegistered_grows env)
             (handleAssetTransferred_grows env)).
  - apply (syncHistoricalEvents_single_pass_keeps env grows grows_trans
             grows_tables (handleAssetRegistered_grows env)
             (handleAssetTransferred_grows env)).
Qed.

(** X4.  Addresses stay in lower case: when every Asset owner and every
    Transfer fromOwner and toOwner of the store is in lower case, the
    same holds after either handler, the chunked backfill or the single
    pass, in any environment and whatever the case of the addresses in
    the events. *)
Theorem engine_keeps_addresses_lowercase env w :
  addresses_lowercase w ->
  (forall id owner description timestamp event,
     addresses_lowercase
       (after (handleAssetRegistered env id owner description timestamp event)
              w)) /\
  (forall id newOwner event,
     addresses_lowercase
       (after (handleAssetTransferred env id newOwner event) w)) /\
  (forall fromBlock,
     addresses_lowercase (after (syncHistoricalEvents env fromBlock) w)) /\
  (forall fromBlock,
     addresses_lowercase
       (after (syncHistoricalEvents_single_pass env fromBlock) w)).
Proof.
  intros H.
  assert (forall a b c : World,
            (addresses_lowercase a -> addresses_lowercase b) ->
            (addresses_lowercase b -> addresses_lowercase c) ->
            addresses_lowercase a -> addresses_lowercase c) as Htrans by auto.
  assert (forall a b : World,
            assets b = assets a -> transfers b = transfers a ->
            addresses_lowercase a -> addresses_lowercase b) as Htables.
  { intros a b HA HT. unfold addresses_lowercase. now rewrite HA, HT. }
  split; [|split; [|split]]; intros.
  - now apply handleAssetRegistered_lowercase.
  - now apply handleAssetTransferred_lowercase.
  - apply (syncHistoricalEvents_keeps env _ Htrans Htables
             (handleAssetRegistered_lowercase env)
             (handleAssetTransferred_lowercase env) fromBlock w H).
  - apply (syncHistoricalEvents_single_pass_keeps env _ Htrans Htables
             (handleAssetRegistered_lowercase env)
             (handleAssetTransferred_lowercase env) fromBlock w H).
Qed.

Lemma engine_keeps_addresses_lowercase_witness :
  let env := flaky_chain in
  let w := world_A1 in
  (forall id owner description timestamp event,
     addresses_lowercase
       (after (handleAssetRegistered env id owner description timestamp event)
              w)) /\
  (forall id newOwner event,
     addresses_lowercase
       (after (handleAssetTransferred env id newOwner event) w)) /\
  (forall fromBlock,
     addresses_lowercase (after (syncHistoricalEvents env fromBlock) w)) /\
  (forall fromBlock,
     addresses_lowercase
       (after (syncHistoricalEvents_single_pass env fromBlock) w)).
Proof.
  apply (engine_keeps_addresses_lowercase flaky_chain world_A1).
  split.
  - intros a [<-|[]]. reflexivity.
  - intros t [<-|[]]. split; [reflexivity|]. intros o H. discriminate H.
Defined.

(** ** How a handler ends *)

Ltac ok_or_rejected :=
  simpl_world;
  first [ left; split; [reflexivity|lia]
        | right; eexists; split; [reflexivity|]; split; [eassumption|];
          split; [lia|reflexivity] ].

(** A handler that runs alone returns normally, or throws the rejection
    of a call it awaited and stops there. *)
Lemma handlers_end env w :
  (forall id owner description timestamp event,
     let run := handleAssetRegistered env id owner description timestamp event in
     (outcome run w = Ok tt /\ (tick w <= tick (after run w))%nat) \/
     exists n, outcome run w = Throw (Rejected n) /\
               rejects env n = true /\ (tick w <= n)%nat /\
               tick (after run w) = S n) /\
  (forall id newOwner event,
     let run := handleAssetTransferred env id newOwner event in
     (outcome run w = Ok tt /\ (tick w <= tick (after run w))%nat) \/
     exists n, outcome run w = Throw (Rejected n) /\
               rejects env n = true /\ (tick w <= n)%nat /\
               tick (after run w) = S n).
Proof.
  split; intros; subst run; unfold_run.
  - destruct (rejects env (tick w)) eqn:R0; simpl_world; [ok_or_rejected|].
    destruct (List.find (has_id id) (assets w)) as [a|] eqn:Fa; simpl_world.
    + destruct (metadata event) as [[h bn]|]; simpl_world; [|ok_or_rejected].
      destruct (rejects env (S (tick w))) eqn:R1; simpl_world;
        [ok_or_rejected|].
      destruct (List.find (has_hash h) (transfers w)) as [t|] eqn:Ft;
        simpl_world; [ok_or_rejected|].
      destruct (rejects env (S (S (tick w)))) eqn:R2; simpl_world;
        [ok_or_rejected|].
      rewrite !existsb_find, Ft, Fa. simpl_world. ok_or_rejected.
    + destruct (rejects env (S (tick w))) eqn:R1; simpl_world;
        [ok_or_rejected|].
      rewrite existsb_find. cbn [Asset.id]. rewrite Fa. simpl_world.
      destruct (metadata event) as [[h bn]|]; simpl_world; [|ok_or_rejected].
      destruct (rejects env (S (S (tick w)))) eqn:R2; simpl_world;
        [ok_or_rejected|].
      destruct (List.find (has_hash h) (transfers w)) as [t|] eqn:Ft;
        simpl_world; [ok_or_rejected|].
      destruct (rejects env (S (S (S (tick w))))) eqn:R3; simpl_world;
        [ok_or_rejected|].
      rewrite !existsb_find, Ft, find_snoc, Fa.
      match goal with
      | |- context [has_id id ?a] =>
          replace (has_id id a) with true by (symmetry; apply String.eqb_refl)
      end.
      simpl_world. ok_or_rejected.
  - destruct (rejects env (tick w)) eqn:R0; simpl_world; [ok_or_rejected|].
    destruct (List.find (has_id id) (assets w)) as [a|] eqn:Fa; simpl_world;
      [|ok_or_rejected].
    destruct (rejects env (S (tick w))) eqn:R1; simpl_world; [ok_or_rejected|].
    assert (Asset.id (Asset.set_owner a (toLowerCase newOwner)) = id) as ->
      by (cbn; eauto using find_has_id).
    cbn [Asset.owner Asset.set_owner].
    change (fun x => if has_id id x
                     then Asset.set_owner x (toLowerCase newOwner) else x)
      with (retarget id (toLowerCase newOwner)).
    destruct (metadata event) as [[h bn]|]; simpl_world; [|ok_or_rejected].
    destruct (rejects env (S (S (tick w)))) eqn:R2; simpl_world;
      [ok_or_rejected|].
    destruct (List.find (has_hash h) (transfers w)) as [t|] eqn:Ft; simpl_world;
      [ok_or_rejected|].
    destruct (rejects env (S (S (S (tick w))))) eqn:R3; simpl_world;
      [ok_or_rejected|].
    destruct (block_timestamp env bn) as [ts|]; simpl_world;
      (destruct (rejects env (S (S (S (S (tick w)))))) eqn:R4; simpl_world;
       [ok_or_rejected|]);
      rewrite (existsb_find (has_hash h)), Ft, existsb_retarget, existsb_find,
        Fa;
      simpl_world; ok_or_rejected.
Qed.

Lemma handle_ends env event w :
  (handle env event w = (Ok tt, after (handle env event) w) /\
   (tick w <= tick (after (handle env event) w))%nat) \/
  exists n, outcome (handle env event) w = Throw (Rejected n) /\
            rejects env n = true /\ (tick w <= n)%nat /\
            tick (after (handle env event) w) = S n.
Proof.
  destruct (handlers_end env w) as [Hreg Htfr]. unfold handle.
  destruct (args event) as [id owner d t|id newOwner].
  - destruct (Hreg id owner d t event) as [[Hok Hle]|Hthrow];
      [left|right; exact Hthrow].
    split; [|exact Hle]. unfold outcome, after in *.
    destruct (handleAssetRegistered env id owner d t event w) as [r w'].
    cbn in *. now subst r.
  - destruct (Htfr id newOwner event) as [[Hok Hle]|Hthrow];
      [left|right; exact Hthrow].
    split; [|exact Hle]. unfold outcome, after in *.
    destruct (handleAssetTransferred env id newOwner event w) as [r w'].
    cbn in *. now subst r.
Qed.

Lemma handle_advances env event w :
  (tick w <= tick (after (handle env event) w))%nat.
Proof.
  destruct (handle_ends env event w) as [[_ H]|(n & _ & _ & Hn & ->)]; lia.
Qed.

Lemma for_each_handle_ends env events :
  forall w,
    let run := for_each events (handle env) in
    (outcome run w = Ok tt /\ (tick w <= tick (after run w))%nat) \/
    exists n, outcome run w = Throw (Rejected n) /\
              rejects env n = true /\ (tick w <= n)%nat /\
              tick (after run w) = S n.
Proof.
  induction events as [|event events IH]; intros w run; subst run.
  - left. cbn. split; [reflexivity|lia].
  - cbn [for_each].
    pose proof (handle_ends env event w) as He.
    pose proof (IH (after (handle env event) w)) as IH'. cbv zeta in IH'.
    unfold outcome, after, bind in *.
    destruct (handle env event w) as [r w1]. cbn [fst snd] in *.
    destruct He as [[Hok Hle]|(n & Hn & R & Hle & Ht)].
    + injection Hok as ->.
      destruct IH' as [[Hok' Hle']|(n & Hn & R & Hle' & Ht)].
      * left. split; [exact Hok'|lia].
      * right. exists n. split; [exact Hn|]. split; [exact R|].
        split; [lia|exact Ht].
    + subst r. right. exists n. cbn [fst snd]. auto.
Qed.

(** X5.  Handlers that run one after the other, each awaited to its end
    before the next starts (as both backfills run them), never fail on
    a constraint of the store.  Because a handler looks a row up before
    it inserts it, and inserts the Asset row before the Transfer row
    that refers to it, neither the primary key of Asset, nor the unique
    transaction hash, nor the foreign key of Transfer is violated: in
    any environment the sequence returns normally, or it throws the
    rejection of a call it awaited and stops at that suspension point.
    Handlers whose calls overlap, as the callbacks of the subscription
    may, are not what this is about. *)
Theorem sequential_handlers_throw_only_rejections env events w :
  let run := for_each events (handle env) in
  outcome run w = Ok tt \/
  exists n, outcome run w = Throw (Rejected n) /\
            rejects env n = true /\ (tick w <= n)%nat /\
            tick (after run w) = S n.
Proof.
  cbv zeta.
  destruct (for_each_handle_ends env events w) as [[Hok _]|Hthrow];
    [left; exact Hok|right; exact Hthrow].
Qed.

(** ** One log entry, seen through two envelopes *)

Lemma registered_transfers_envelope at_ id owner timestamp event event' l :
  metadata event' = metadata event ->
  registered_transfers at_ id owner timestamp event' l
  = registered_transfers at_ id owner timestamp event l.
Proof. intros Hm. unfold registered_transfers. now rewrite Hm. Qed.

Lemma transferred_transfers_envelope bts fb at_ id newOwner event event' la l :
  metadata event' = metadata event ->
  transferred_transfers bts fb at_ id newOwner event' la l
  = transferred_transfers bts fb at_ id newOwner event la l.
Proof. intros Hm. unfold transferred_transfers. now rewrite Hm. Qed.

Lemma transferred_transfers_twice bts fb at_ fb' at' id newOwner event la l :
  let l1 := transferred_transfers bts fb at_ id newOwner event la l in
  transferred_transfers bts fb' at' id newOwner event
    (transferred_assets id newOwner la) l1 = l1.
Proof.
  cbv zeta.
  remember (transferred_transfers bts fb at_ id newOwner event la l) as l1
    eqn:E.
  unfold transferred_transfers in E.
  destruct (List.find (has_id id) la) as [a|] eqn:Fa.
  - destruct (metadata event) as [[h bn]|] eqn:Hm.
    + destruct (List.find (has_hash h) l) as [t|] eqn:Ft; subst l1.
      * eapply transferred_transfers_settled; eauto.
      * eapply transferred_transfers_settled; [exact Hm|].
        rewrite find_snoc, Ft. unfold has_hash at 1.
        cbn [Transfer.transactionHash]. rewrite String.eqb_refl. reflexivity.
    + subst l1. unfold transferred_transfers. rewrite Hm.
      now destruct (List.find (has_id id) (transferred_assets id newOwner la)).
  - subst l1. unfold transferred_transfers, transferred_assets.
    now rewrite Fa, Fa.
Qed.

(** X6.  An event that was handled once is recognised again under
    another envelope: when nothing rejects, handling an event whose
    envelope gives the same transaction hash and block number (the same
    log entry, once delivered by the subscription and once returned by
    [queryFilter], say) returns normally and leaves both tables as the
    first handling left them. *)
Theorem replay_under_other_envelope env w event event' :
  fault_free env ->
  metadata event' = metadata event ->
  (forall id owner description timestamp,
     let w1 := after (handleAssetRegistered env id owner description timestamp
                        event) w in
     let again := handleAssetRegistered env id owner description timestamp
                    event' in
     outcome again w1 = Ok tt /\
     assets (after again w1) = assets w1 /\
     transfers (after again w1) = transfers w1) /\
  (forall id newOwner,
     let w1 := after (handleAssetTransferred env id newOwner event) w in
     let again := handleAssetTransferred env id newOwner event' in
     outcome again w1 = Ok tt /\
     assets (after again w1) = assets w1 /\
     transfers (after again w1) = transfers w1).
Proof.
  intros Hff Hm. split; intros; subst w1 again; unfold outcome, after.
  - destruct (handleAssetRegistered_run env Hff id owner description timestamp
                event w) as (a1 & t1 & n1 & ->). cbn [fst snd].
    match goal with |- context [handleAssetRegistered _ _ _ _ _ _ ?w] =>
      destruct (handleAssetRegistered_run env Hff id owner description
                  timestamp event' w) as (a2 & t2 & n2 & ->) end.
    cbn [fst snd assets transfers]. split; [reflexivity|]. split.
    + destruct (registered_find id owner description timestamp a1 (assets w))
        as [a Ha].
      eapply registered_assets_settled; eauto.
    + rewrite (registered_transfers_envelope _ _ _ _ event event') by exact Hm.
      apply registered_transfers_settled.
  - destruct (handleAssetTransferred_run env Hff id newOwner event w)
      as (f1 & t1 & n1 & ->). cbn [fst snd].
    match goal with |- context [handleAssetTransferred _ _ _ _ ?w] =>
      destruct (handleAssetTransferred_run env Hff id newOwner event' w)
        as (f2 & t2 & n2 & ->) end.
    cbn [fst snd assets transfers]. split; [reflexivity|]. split.
    + apply transferred_assets_idem.
    + rewrite (transferred_transfers_envelope _ _ _ _ _ event event') by exact Hm.
      apply transferred_transfers_twice.
Qed.

(** The entry of transaction 0xt2 in block 20, first as [queryFilter]
    returns it, then as the subscription delivers it. *)
Lemma replay_under_other_envelope_witness :
  let env := quiet_env in
  let w := world_A1 in
  let event := queried (AssetTransferredArgs "A1" "0xBB") "0xt2" 20 in
  let event' := delivered (AssetTransferredArgs "A1" "0xBB") "0xt2" 20 in
  (forall id owner description timestamp,
     let w1 := after (handleAssetRegistered env id owner description timestamp
                        event) w in
     let again := handleAssetRegistered env id owner description timestamp
                    event' in
     outcome again w1 = Ok tt /\
     assets (after again w1) = assets w1 /\
     transfers (after again w1) = transfers w1) /\
  (forall id newOwner,
     let w1 := after (handleAssetTransferred env id newOwner event) w in
     let again := handleAssetTransferred env id newOwner event' in
     outcome again w1 = Ok tt /\
     assets (after again w1) = assets w1 /\
     transfers (after again w1) = transfers w1).
Proof.
  apply (replay_under_other_envelope quiet_env world_A1
           (queried (AssetTransferredArgs "A1" "0xBB") "0xt2" 20)
           (delivered (AssetTransferredArgs "A1" "0xBB") "0xt2" 20)).
  - intros n. reflexivity.
  - reflexivity.
Defined.

(** ** The block ranges the chunked backfill asks for *)

Lemma chunk_ranges_bounds K H :
  1 <= K ->
  forall n a, (Z.to_nat (H - a + 1) <= n)%nat ->
  forall s e, In (s, e) (chunk_ranges K a H) ->
              a <= s <= e /\ e <= H /\ e - s < K.
Proof.
  intros HK. induction n as [|n IH]; intros a Hn s e Hin.
  - rewrite chunk_ranges_done in Hin by lia. destruct Hin.
  - destruct (Z_lt_ge_dec H a) as [Hlt|Hge].
    + rewrite chunk_ranges_done in Hin by lia. destruct Hin.
    + rewrite chunk_ranges_step in Hin by lia.
      destruct Hin as [Heq|Hin].
      * inversion Heq; subst. lia.
      * apply IH in Hin; lia.
Qed.

Lemma chunk_ranges_cover K H b :
  1 <= K ->
  forall n a, (Z.to_nat (H - a + 1) <= n)%nat ->
  length (List.filter (fun r => (fst r <=? b) && (b <=? snd r))
            (chunk_ranges K a H))
  = if (a <=? b) && (b <=? H) then 1%nat else 0%nat.
Proof.
  intros HK. induction n as [|n IH]; intros a Hn.
  - rewrite chunk_ranges_done by lia.
    destruct (a <=? b) eqn:E1, (b <=? H) eqn:E2; try reflexivity. lia.
  - destruct (Z_lt_ge_dec H a) as [Hlt|Hge].
    + rewrite chunk_ranges_done by lia.
      destruct (a <=? b) eqn:E1, (b <=? H) eqn:E2; try reflexivity. lia.
    + rewrite chunk_ranges_step by lia. cbn [List.filter fst snd].
      specialize (IH (a + K) ltac:(lia)).
      destruct (a <=? b) eqn:E1, (b <=? Z.min (a + K - 1) H) eqn:E2,
               (a + K <=? b) eqn:E3, (b <=? H) eqn:E4;
        cbn [andb length] in *; rewrite IH; try reflexivity; lia.
Qed.

(** X7.  The chunked backfill asks for every block of its range exactly
    once.  When the height query is answered, the Registered queries
    the backfill issues have ranges that lie within [fromBlock] and the
    chain height, hold at most [BLOCK_CHUNK_SIZE] blocks each, and
    together cover every block from [fromBlock] to the height exactly
    once, whatever rejects later; when [fromBlock] is above the height
    no query is issued. *)
Theorem backfill_queries_partition env fromBlock w :
  rejects env (tick w) = false ->
  let run := syncHistoricalEvents env fromBlock in
  exists issued,
    queried_ranges AssetRegistered (queries (after run w))
    = queried_ranges AssetRegistered (queries w) ++ issued /\
    (forall q, In q issued ->
       exists toBlock,
         snd q = Some toBlock /\
         fromBlock <= fst q <= toBlock /\ toBlock <= chain_height env /\
         toBlock - fst q < BLOCK_CHUNK_SIZE) /\
    (forall b, fromBlock <= b <= chain_height env ->
               length (List.filter (covers b) issued) = 1%nat) /\
    (chain_height env < fromBlock -> issued = []).
Proof.
  intros R0. cbv zeta.
  exists (map (fun r => (fst r, Some (snd r)))
            (chunk_ranges BLOCK_CHUNK_SIZE fromBlock (chain_height env))).
  assert (1 <= BLOCK_CHUNK_SIZE) as HK by (unfold BLOCK_CHUNK_SIZE; lia).
  split; [|split; [|split]].
  - unfold after, syncHistoricalEvents.
    rewrite (sync_fuel_enough env BLOCK_CHUNK_SIZE fromBlock w) by trivial.
    cbn [snd]. rewrite fold_attempt_queries. reflexivity.
  - intros q Hin. apply in_map_iff in Hin as ([s e] & <- & Hin).
    cbn [fst snd]. exists e. split; [reflexivity|].
    eapply chunk_ranges_bounds in Hin; [|exact HK|reflexivity]. lia.
  - intros b Hb.
    transitivity
      (length (List.filter (fun r => (fst r <=? b) && (b <=? snd r))
                 (chunk_ranges BLOCK_CHUNK_SIZE fromBlock (chain_height env)))).
    + generalize (chunk_ranges BLOCK_CHUNK_SIZE fromBlock (chain_height env)).
      intros l. induction l as [|[s e] l IH]; [reflexivity|].
      cbn [map List.filter covers fst snd].
      destruct ((s <=? b) && (b <=? e)); cbn [length]; now rewrite IH.
    + rewrite (chunk_ranges_cover _ _ _ HK _ _ (Nat.le_refl _)).
      destruct (fromBlock <=? b) eqn:E1, (b <=? chain_height env) eqn:E2;
        try reflexivity; lia.
  - intros Hlt. now rewrite chunk_ranges_done.
Qed.

Lemma backfill_queries_partition_witness :
  let env := flaky_chain in
  let w := empty_world in
  let fromBlock := 3 in
  let run := syncHistoricalEvents env fromBlock in
  exists issued,
    queried_ranges AssetRegistered (queries (after run w))
    = queried_ranges AssetRegistered (queries w) ++ issued /\
    (forall q, In q issued ->
       exists toBlock,
         snd q = Some toBlock /\
         fromBlock <= fst q <= toBlock /\ toBlock <= chain_height env /\
         toBlock - fst q < BLOCK_CHUNK_SIZE) /\
    (forall b, fromBlock <= b <= chain_height env ->
               length (List.filter (covers b) issued) = 1%nat) /\
    (chain_height env < fromBlock -> issued = []).
Proof.
  apply (backfill_queries_partition flaky_chain 3 empty_world).
  reflexivity.
Defined.

(** ** A second pass over the same log *)

Lemma facts_eq (s s' : Facts) :
  asset_map s = asset_map s' -> transfer_map s = transfer_map s' -> s = s'.
Proof. destruct s, s'. cbn. now intros -> ->. Qed.

Lemma facts_apply_asset_mono ts s l k :
  is_Some (asset_map s !! k) -> is_Some (asset_map (facts_apply ts s l) !! k).
Proof.
  intros H. unfold facts_apply, facts_registered, facts_transferred.
  destruct (el_args l) as [id owner d t|id newOwner]; cbn [asset_map].
  - destruct (asset_map s !! id); [exact H|].
    apply lookup_insert_is_Some'. now right.
  - destruct (asset_map s !! id) as [[[[pk prev] d] t]|]; [|exact H].
    cbn [asset_map]. apply lookup_insert_is_Some'. now right.
Qed.

Lemma facts_apply_transfer_mono ts s l h :
  is_Some (transfer_map s !! h) ->
  is_Some (transfer_map (facts_apply ts s l) !! h).
Proof.
  intros H. unfold facts_apply, facts_registered, facts_transferred.
  destruct (el_args l) as [id owner d t|id newOwner]; cbn [transfer_map].
  - destruct (metadata (as_event l)) as [[h' bn]|]; [|exact H].
    destruct (transfer_map s !! h'); [exact H|].
    apply lookup_insert_is_Some'. now right.
  - destruct (asset_map s !! id) as [[[[pk prev] d] t]|]; [|exact H].
    cbn [transfer_map].
    destruct (metadata (as_event l)) as [[h' bn]|]; [|exact H].
    destruct (transfer_map s !! h'); [exact H|].
    apply lookup_insert_is_Some'. now right.
Qed.

Lemma fold_asset_mono ts logs s k :
  is_Some (asset_map s !! k) ->
  is_Some (asset_map (fold_left (facts_apply ts) logs s) !! k).
Proof.
  revert s. induction logs as [|l logs IH]; intros s H; [exact H|].
  cbn [fold_left]. now apply IH, facts_apply_asset_mono.
Qed.

Lemma fold_transfer_mono ts logs s h :
  is_Some (transfer_map s !! h) ->
  is_Some (transfer_map (fold_left (facts_apply ts) logs s) !! h).
Proof.
  revert s. induction logs as [|l logs IH]; intros s H; [exact H|].
  cbn [fold_left]. now apply IH, facts_apply_transfer_mono.
Qed.

(** A log entry is known to the facts when applying it would add
    nothing: its asset is there and, if its envelope passes the guard,
    so is its transaction hash. *)
Lemma facts_registered_known id owner description timestamp event s :
  let s' := facts_registered id owner description timestamp event s in
  is_Some (asset_map s' !! id) /\
  forall h bn, metadata event = Some (h, bn) -> is_Some (transfer_map s' !! h).
Proof.
  cbv zeta. unfold facts_registered. cbn [asset_map transfer_map]. split.
  - destruct (asset_map s !! id) eqn:E; [rewrite E; eauto|].
    rewrite lookup_insert_eq. eauto.
  - intros h bn ->.
    destruct (transfer_map s !! h) eqn:E; [rewrite E; eauto|].
    rewrite lookup_insert_eq. eauto.
Qed.

Lemma facts_registered_settled id owner description timestamp event s :
  is_Some (asset_map s !! id) ->
  (forall h bn, metadata event = Some (h, bn) -> is_Some (transfer_map s !! h)) ->
  facts_registered id owner description timestamp event s = s.
Proof.
  intros [a Ha] Ht. apply facts_eq; unfold facts_registered;
    cbn [asset_map transfer_map].
  - now rewrite Ha.
  - destruct (metadata event) as [[h bn]|]; [|reflexivity].
    destruct (Ht h bn eq_refl) as [t ->]. reflexivity.
Qed.

Lemma fold_settled ts logs s :
  (forall l, In l logs -> facts_apply ts s l = s) ->
  fold_left (facts_apply ts) logs s = s.
Proof.
  induction logs as [|l logs IH]; intros H; [reflexivity|].
  cbn [fold_left]. rewrite (H l) by now left.
  apply IH. intros l' Hl'. apply H. now right.
Qed.

Lemma fold_registered_settles ts logs s l :
  In l logs ->
  kind_of (el_args l) = AssetRegistered ->
  let s' := fold_left (facts_apply ts) logs s in
  is_Some (asset_map s' !! asset_of (el_args l)) /\
  forall h bn, metadata (as_event l) = Some (h, bn) ->
               is_Some (transfer_map s' !! h).
Proof.
  cbv zeta. revert s. induction logs as [|l0 logs IH]; intros s Hin Hk;
    [destruct Hin|].
  cbn [fold_left]. destruct Hin as [->|Hin]; [|now apply IH].
  unfold facts_apply at 2 4.
  destruct (el_args l) as [id owner d t|]; [|discriminate Hk].
  cbn [asset_of].
  destruct (facts_registered_known id owner d t (as_event l) s) as [Ha Ht].
  split.
  - now apply fold_asset_mono.
  - intros h bn Hm. eapply fold_transfer_mono, Ht, Hm.
Qed.

Lemma transfers_asset_map ts logs :
  (forall l, In l logs -> kind_of (el_args l) = AssetTransferred) ->
  forall s k,
    asset_map (fold_left (facts_apply ts) logs s) !! k
    = match asset_map s !! k with
      | Some (pk, o, d, t) => Some (pk, last_owner k o logs, d, t)
      | None => None
      end.
Proof.
  induction logs as [|l logs IH]; intros Hk s k.
  - cbn. now destruct (asset_map s !! k) as [[[[pk o] d] t]|].
  - cbn [fold_left]. rewrite IH by (intros; apply Hk; now right).
    specialize (Hk l (or_introl eq_refl)).
    unfold last_owner. cbn [fold_left]. fold (last_owner k).
    unfold facts_apply.
    destruct (el_args l) as [|id newOwner]; [discriminate Hk|].
    unfold facts_transferred.
    destruct (asset_map s !! id) as [[[[pk prev] d] t]|] eqn:E.
    + cbn [asset_map]. destruct (String.eqb_spec id k) as [->|Hne].
      * rewrite lookup_insert_eq, E. reflexivity.
      * rewrite lookup_insert_ne by exact Hne. reflexivity.
    + destruct (String.eqb_spec id k) as [->|Hne]; [|reflexivity].
      now rewrite E.
Qed.

Lemma transfers_same_assets ts logs s k :
  (forall l, In l logs -> kind_of (el_args l) = AssetTransferred) ->
  is_Some (asset_map (fold_left (facts_apply ts) logs s) !! k) ->
  is_Some (asset_map s !! k).
Proof.
  intros Hk. rewrite transfers_asset_map by exact Hk.
  destruct (asset_map s !! k); [eauto|]. intros [x Hx]. discriminate Hx.
Qed.

Lemma facts_transferred_known ts id newOwner event s h bn :
  is_Some (asset_map s !! id) ->
  metadata event = Some (h, bn) ->
  is_Some (transfer_map (facts_transferred ts id newOwner event s) !! h).
Proof.
  intros [[[[pk prev] d] t] Ha] Hm. unfold facts_transferred.
  rewrite Ha, Hm. cbn [transfer_map].
  destruct (transfer_map s !! h) eqn:E; [rewrite E; eauto|].
  rewrite lookup_insert_eq. eauto.
Qed.

Lemma fold_transferred_settles ts logs s l id newOwner h bn :
  In l logs ->
  el_args l = AssetTransferredArgs id newOwner ->
  is_Some (asset_map s !! id) ->
  metadata (as_event l) = Some (h, bn) ->
  is_Some (transfer_map (fold_left (facts_apply ts) logs s) !! h).
Proof.
  revert s. induction logs as [|l0 logs IH]; intros s Hin Ha Hs Hm;
    [destruct Hin|].
  cbn [fold_left]. destruct Hin as [->|Hin].
  - apply fold_transfer_mono. unfold facts_apply. rewrite Ha.
    now apply (facts_transferred_known ts id newOwner (as_event l) s h bn).
  - apply IH; auto. now apply facts_apply_asset_mono.
Qed.

Lemma fold_transfer_map_settled ts logs :
  (forall l, In l logs -> kind_of (el_args l) = AssetTransferred) ->
  forall s,
    (forall l id newOwner h bn,
       In l logs -> el_args l = AssetTransferredArgs id newOwner ->
       is_Some (asset_map s !! id) ->
       metadata (as_event l) = Some (h, bn) ->
       is_Some (transfer_map s !! h)) ->
    transfer_map (fold_left (facts_apply ts) logs s) = transfer_map s.
Proof.
  induction logs as [|l logs IH]; intros Hk s Hs; [reflexivity|].
  cbn [fold_left].
  assert (transfer_map (facts_apply ts s l) = transfer_map s) as Hstep.
  { pose proof (Hk l (or_introl eq_refl)) as Hkl.
    unfold facts_apply.
    destruct (el_args l) as [|id newOwner] eqn:Ea; [discriminate Hkl|].
    unfold facts_transferred.
    destruct (asset_map s !! id) as [[[[pk prev] d] t]|] eqn:E; [|reflexivity].
    cbn [transfer_map].
    destruct (metadata (as_event l)) as [[h bn]|] eqn:Hm; [|reflexivity].
    destruct (Hs l id newOwner h bn) as [x ->]; auto. now left. }
  rewrite IH, Hstep; [reflexivity|intros; apply Hk; now right|].
  intros l' id newOwner h bn Hin Ha Hsome Hm. rewrite Hstep.
  apply (Hs l' id newOwner h bn); [now right|exact Ha| |exact Hm].
  apply (transfers_same_assets ts [l] s id); [|exact Hsome].
  intros l0 [<-|[]]. apply Hk. now left.
Qed.

Lemma last_owner_settles k logs :
  forall o, last_owner k (last_owner k o logs) logs = last_owner k o logs.
Proof.
  assert (forall o,
            (forall o', last_owner k o' logs = o') \/
            (forall o', last_owner k o' logs = last_owner k o logs)) as Hcases.
  { induction logs as [|l logs IH]; intros o; [left; reflexivity|].
    unfold last_owner. cbn [fold_left]. fold (last_owner k).
    destruct (el_args l) as [|id newOwner]; [apply IH|].
    destruct (String.eqb id k); [|apply IH]. right. reflexivity. }
  intros o. destruct (Hcases o) as [H|H].
  - now rewrite !H.
  - apply H.
Qed.

(** One pass over a log settles the facts: a second pass over the same
    entries leaves them as they are. *)
Lemma facts_pass_settles history ts a b s :
  facts_pass history ts a b (facts_pass history ts a b s)
  = facts_pass history ts a b s.
Proof.
  unfold facts_pass.
  set (Rs := logs_between history AssetRegistered a b).
  set (Ts := logs_between history AssetTransferred a b).
  assert (forall l, In l Rs -> kind_of (el_args l) = AssetRegistered) as HR
    by (intros l Hl; now apply logs_between_kind in Hl).
  assert (forall l, In l Ts -> kind_of (el_args l) = AssetTransferred) as HT
    by (intros l Hl; now apply logs_between_kind in Hl).
  set (s1 := fold_left (facts_apply ts) Rs s).
  set (s2 := fold_left (facts_apply ts) Ts s1).
  assert (fold_left (facts_apply ts) Rs s2 = s2) as ->.
  { apply fold_settled. intros l Hl.
    destruct (fold_registered_settles ts Rs s l Hl (HR l Hl)) as [Ha Ht].
    fold s1 in Ha, Ht. specialize (HR l Hl).
    unfold facts_apply.
    destruct (el_args l) as [id owner d t|]; [|discriminate HR].
    apply facts_registered_settled.
    - now apply fold_asset_mono.
    - intros h bn Hm. eapply fold_transfer_mono, Ht, Hm. }
  apply facts_eq.
  - apply map_eq. intros k. rewrite transfers_asset_map by exact HT.
    unfold s2 at 1 2. rewrite transfers_asset_map by exact HT.
    destruct (asset_map s1 !! k) as [[[[pk o] d] t]|]; [|reflexivity].
    now rewrite last_owner_settles.
  - apply fold_transfer_map_settled; [exact HT|].
    intros l id newOwner h bn Hl Ha Hs Hm.
    apply (fold_transferred_settles ts Ts s1 l id newOwner h bn); auto.
    now apply (transfers_same_assets ts Ts s1 id).
Qed.

(** ** From equal facts to equal tables *)

Lemma no_new_rows {A} (key : A -> string) (l added : list A) :
  NoDup (map key (l ++ added)) ->
  (forall x, In x (l ++ added) -> exists y, In y l /\ key y = key x) ->
  added = [].
Proof.
  intros Hnd Hold.
  assert (map key (l ++ added) ⊆+ map key l) as Hsub.
  { apply NoDup_submseteq; [exact Hnd|]. intros k Hk.
    apply list_elem_of_In, in_map_iff in Hk as (x & <- & Hx).
    destruct (Hold x Hx) as (y & Hy & <-).
    apply list_elem_of_In, in_map. exact Hy. }
  apply submseteq_length in Hsub.
  rewrite !length_map, length_app in Hsub.
  destruct added; [reflexivity|cbn in Hsub; lia].
Qed.

Lemma find_in_unique {A} (key : A -> string) (l : list A) (x : A) :
  NoDup (map key l) -> In x l ->
  List.find (fun y => String.eqb (key y) (key x)) l = Some x.
Proof.
  induction l as [|y l IH]; intros Hnd Hin; [destruct Hin|].
  cbn [map] in Hnd. apply NoDup_cons in Hnd as [Hy Hnd]. cbn [List.find].
  destruct Hin as [->|Hin]; [now rewrite String.eqb_refl|].
  destruct (String.eqb_spec (key y) (key x)) as [E|_]; [|now apply IH].
  exfalso. apply Hy. rewrite E. apply list_elem_of_In, in_map. exact Hin.
Qed.

Lemma same_frozen_same_rows l1 :
  forall l2,
    map frozen l2 = map frozen l1 ->
    (forall a1 a2, In a1 l1 -> In a2 l2 -> Asset.id a1 = Asset.id a2 ->
                   Asset.owner a1 = Asset.owner a2) ->
    l2 = l1.
Proof.
  induction l1 as [|a1 l1 IH]; intros [|a2 l2] Hf Ho; try discriminate Hf;
    [reflexivity|].
  cbn [map] in Hf. inversion Hf as [[Hid Hd Ht Hr Hrest]].
  f_equal.
  - assert (Asset.owner a1 = Asset.owner a2) as Hown
      by (apply Ho; [now left|now left|now symmetry]).
    destruct a1, a2. cbn in *. congruence.
  - apply IH; [exact Hrest|]. intros; apply Ho; auto; now right.
Qed.

(** A run that only adds rows and leaves the facts of every key as they
    were has changed neither table. *)
Lemma settled_tables w1 w2 s :
  unique_keys w1 -> unique_keys w2 -> grows w1 w2 ->
  represents w1 s -> represents w2 s ->
  assets w2 = assets w1 /\ transfers w2 = transfers w1.
Proof.
  intros [Ha1 Ht1] [Ha2 Ht2] [[addedT HT] [addedA HA]] [Ra1 Rt1] [Ra2 Rt2].
  unfold find_asset, find_transfer in *.
  assert (forall pk a2, List.find (has_id pk) (assets w2) = Some a2 ->
            exists a1, List.find (has_id pk) (assets w1) = Some a1 /\
                       asset_facts a1 = asset_facts a2) as Hassets.
  { intros pk a2 F2. pose proof (Ra2 pk) as E. rewrite Ra1, F2 in E.
    destruct (List.find (has_id pk) (assets w1)) as [a1|]; [|discriminate E].
    exists a1. split; [reflexivity|]. cbn in E. congruence. }
  assert (forall h t2, List.find (has_hash h) (transfers w2) = Some t2 ->
            exists t1, List.find (has_hash h) (transfers w1) = Some t1)
    as Htransfers.
  { intros h t2 F2. pose proof (Rt2 h) as E. rewrite Rt1, F2 in E.
    destruct (List.find (has_hash h) (transfers w1)) as [t1|]; [|discriminate E].
    eauto. }
  split.
  - assert (addedA = []) as ->.
    { apply (no_new_rows (fun f => fst (fst (fst f))) (map frozen (assets w1))).
      - rewrite <- HA, map_map. exact Ha2.
      - rewrite <- HA. intros x Hx. apply in_map_iff in Hx as (a2 & <- & Hin).
        pose proof (find_in_unique Asset.id _ a2 Ha2 Hin) as F2.
        destruct (Hassets _ _ F2) as (a1 & F1 & _).
        exists (frozen a1). split.
        + apply in_map. now apply find_some in F1.
        + cbn. now apply find_has_id in F1. }
    rewrite app_nil_r in HA.
    apply same_frozen_same_rows; [exact HA|].
    intros a1 a2 Hin1 Hin2 Hid.
    pose proof (find_in_unique Asset.id _ a2 Ha2 Hin2) as F2.
    destruct (Hassets _ _ F2) as (a1' & F1 & Hfacts).
    pose proof (find_in_unique Asset.id _ a1 Ha1 Hin1) as F1'.
    rewrite Hid in F1'. unfold has_id in F1. rewrite F1' in F1.
    inversion F1; subst a1'. unfold asset_facts in Hfacts. congruence.
  - assert (addedT = []) as ->; [|now rewrite app_nil_r in HT].
    apply (no_new_rows Transfer.transactionHash (transfers w1)).
    + rewrite <- HT. exact Ht2.
    + rewrite <- HT. intros t2 Hin.
      pose proof (find_in_unique Transfer.transactionHash _ t2 Ht2 Hin) as F2.
      destruct (Htransfers _ _ F2) as (t1 & F1).
      exists t1. split; [now apply find_some in F1|].
      now apply find_has_hash in F1.
Qed.

Lemma syncHistoricalEvents_by_grows env K fromBlock w :
  grows w (after (syncHistoricalEvents_by env K fromBlock) w).
Proof.
  apply (syncHistoricalEvents_by_keeps env grows grows_trans grows_tables
           (handleAssetRegistered_grows env)
           (handleAssetTransferred_grows env)).
Qed.

Lemma syncHistoricalEvents_single_pass_grows env fromBlock w :
  grows w (after (syncHistoricalEvents_single_pass env fromBlock) w).
Proof.
  apply (syncHistoricalEvents_single_pass_keeps env grows grows_trans
           grows_tables (handleAssetRegistered_grows env)
           (handleAssetTransferred_grows env)).
Qed.

(** X8.  A backfill over a range that has been backfilled changes
    nothing.  On a chain whose log is in block order, keeps a
    transaction in one block, registers an asset before it transfers it
    and reports a time for every block with a transfer, a backfill
    (chunked or in one pass) that follows a backfill of the same range
    (chunked or in one pass) returns normally and leaves both tables
    exactly as it found them: no row added, no owner changed, although
    on its way it sets the owner of a transferred asset back to each
    intermediate owner. *)
Theorem backfill_replay_changes_nothing
    history height timestamps local_clock chunk_size fromBlock w :
  1 <= chunk_size ->
  blocks_ascending history = true ->
  tx_in_one_block history = true ->
  registered_first history = true ->
  transfer_blocks_timestamped timestamps history = true ->
  unique_keys w ->
  let env := chain_source history height timestamps local_clock in
  let chunked := syncHistoricalEvents_by env chunk_size fromBlock in
  let single := syncHistoricalEvents_single_pass env fromBlock in
  forall first again,
    In first [chunked; single] -> In again [chunked; single] ->
    let w1 := after first w in
    outcome again w1 = Ok tt /\
    assets (after again w1) = assets w1 /\
    transfers (after again w1) = transfers w1.
Proof.
  intros HK Hasc Htx Hreg Hts Hu env chunked single first again Hf Ha w1.
  set (s := facts_of w).
  set (s1 := facts_pass history timestamps fromBlock height s).
  pose proof (facts_of_represents w) as Hr. fold s in Hr.
  assert (unique_keys w1 /\ represents w1 s1) as [Hu1 Hr1].
  { subst w1. destruct Hf as [<-|[<-|[]]].
    - split; [now apply syncHistoricalEvents_by_unique|].
      now apply chunked_sync_refines.
    - split; [now apply syncHistoricalEvents_single_pass_unique|].
      now apply single_pass_sync_refines. }
  assert (outcome again w1 = Ok tt /\ unique_keys (after again w1) /\
          grows w1 (after again w1) /\ represents (after again w1) s1)
    as (Hok & Hu2 & Hg & Hr2).
  { destruct Ha as [<-|[<-|[]]].
    - destruct (chunked_sync_refines history height timestamps local_clock
                  Hasc Htx Hreg Hts chunk_size fromBlock w1 s1 HK Hr1)
        as [Hok Hr2].
      unfold s1 in Hr2. rewrite facts_pass_settles in Hr2. fold s1 in Hr2.
      split; [exact Hok|]. split; [now apply syncHistoricalEvents_by_unique|].
      split; [apply syncHistoricalEvents_by_grows|exact Hr2].
    - destruct (single_pass_sync_refines history height timestamps local_clock
                  Hts fromBlock w1 s1 Hr1) as [Hok Hr2].
      unfold s1 in Hr2. rewrite facts_pass_settles in Hr2. fold s1 in Hr2.
      split; [exact Hok|].
      split; [now apply syncHistoricalEvents_single_pass_unique|].
      split; [apply syncHistoricalEvents_single_pass_grows|exact Hr2]. }
  split; [exact Hok|].
  now apply (settled_tables w1 (after again w1) s1).
Qed.

(** The single pass after the chunked backfill of the two-chunk log. *)
Lemma backfill_replay_changes_nothing_witness :
  let env := two_chunk_chain in
  let w := empty_world in
  let chunked := syncHistoricalEvents_by env 10 0 in
  let single := syncHistoricalEvents_single_pass env 0 in
  let w1 := after chunked w in
  outcome single w1 = Ok tt /\
  assets (after single w1) = assets w1 /\
  transfers (after single w1) = transfers w1.
Proof.
  apply (backfill_replay_changes_nothing two_chunk_history 20
           (fun n => Some (100 * n)) (fun _ => 0) 10 0 empty_world).
  - lia.
  - vm_compute. reflexivity.
  - vm_compute. reflexivity.
  - vm_compute. reflexivity.
  - vm_compute. reflexivity.
  - split; apply (bool_decide_unpack _); vm_compute; exact I.
  - left. reflexivity.
  - right. left. reflexivity.
Defined.

(** ** The assets a backfill leaves *)

Lemma registrations_asset_map ts logs :
  (forall l, In l logs -> kind_of (el_args l) = AssetRegistered) ->
  forall s k,
    asset_map (fold_left (facts_apply ts) logs s) !! k
    = match asset_map s !! k with
      | Some row => Some row
      | None =>
          match List.find (registers k) logs with
          | Some l => registered_facts l
          | None => None
          end
      end.
Proof.
  induction logs as [|l logs IH]; intros Hk s k.
  - cbn. now destruct (asset_map s !! k).
  - cbn [fold_left List.find]. rewrite IH by (intros; apply Hk; now right).
    specialize (Hk l (or_introl eq_refl)).
    unfold facts_apply. unfold registers at 2.
    destruct (el_args l) as [id owner d t|] eqn:Ea; [|discriminate Hk].
    cbn [asset_of]. unfold facts_registered. cbn [asset_map].
    destruct (String.eqb_spec id k) as [->|Hne].
    + unfold registered_facts at 2. rewrite Ea.
      destruct (asset_map s !! k) as [row|] eqn:E; [now rewrite E|].
      now rewrite lookup_insert_eq.
    + destruct (asset_map s !! id) eqn:E; [reflexivity|].
      now rewrite lookup_insert_ne.
Qed.

Lemma facts_pass_asset history ts a b s k :
  asset_map (facts_pass history ts a b s) !! k
  = chain_facts history a b k (asset_map s !! k).
Proof.
  unfold facts_pass, chain_facts.
  rewrite transfers_asset_map
    by (intros l Hl; now apply logs_between_kind in Hl).
  rewrite registrations_asset_map
    by (intros l Hl; now apply logs_between_kind in Hl).
  reflexivity.
Qed.

(** X9.  A backfill leaves every asset with the owner the log gives it.
    On a chain as in X8, after a backfill (chunked or in one pass) from
    [fromBlock], the Asset row of an id is the row the store held
    before, or else the row of the id's first Registered entry in the
    range, with the owner of the last Transferred entry of that id in
    the range when there is one; an id that was not in the store and is
    not registered in the range has no row. *)
Theorem backfill_rebuilds_assets
    history height timestamps local_clock chunk_size fromBlock w :
  1 <= chunk_size ->
  blocks_ascending history = true ->
  tx_in_one_block history = true ->
  registered_first history = true ->
  transfer_blocks_timestamped timestamps history = true ->
  let env := chain_source history height timestamps local_clock in
  let chunked := syncHistoricalEvents_by env chunk_size fromBlock in
  let single := syncHistoricalEvents_single_pass env fromBlock in
  forall sync pk,
    In sync [chunked; single] ->
    option_map asset_facts (find_asset pk (after sync w))
    = chain_facts history fromBlock height pk
        (option_map asset_facts (find_asset pk w)).
Proof.
  intros HK Hasc Htx Hreg Hts env chunked single sync pk Hs.
  pose proof (facts_of_represents w) as Hr.
  assert (represents (after sync w)
            (facts_pass history timestamps fromBlock height (facts_of w)))
    as [Hr' _].
  { destruct Hs as [<-|[<-|[]]].
    - now apply chunked_sync_refines.
    - now apply single_pass_sync_refines. }
  rewrite <- Hr', facts_pass_asset. f_equal. apply Hr.
Qed.

(** Asset A1 after the chunked backfill of the two-chunk log. *)
Lemma backfill_rebuilds_assets_witness :
  let env := two_chunk_chain in
  let w := empty_world in
  let chunked := syncHistoricalEvents_by env 10 0 in
  option_map asset_facts (find_asset "A1" (after chunked w))
  = chain_facts two_chunk_history 0 20 "A1"
      (option_map asset_facts (find_asset "A1" w)).
Proof.
  apply (backfill_rebuilds_assets two_chunk_history 20
           (fun n => Some (100 * n)) (fun _ => 0) 10 0 empty_world).
  - lia.
  - vm_compute. reflexivity.
  - vm_compute. reflexivity.
  - vm_compute. reflexivity.
  - vm_compute. reflexivity.
  - left. reflexivity.
Defined.

(** ** The listener's life cycle *)

Lemma call_keeps_subscriptions l c :
  Listener.subscriptions l
  = (if Listener.isListening l
     then [AssetRegistered; AssetTransferred] else []) ->
  Listener.subscriptions (call l c)
  = (if Listener.isListening (call l c)
     then [AssetRegistered; AssetTransferred] else []).
Proof.
  destruct l as [[|] subs]; destruct c; cbn; intros ->; reflexivity.
Qed.

Lemma calls_keep_subscriptions calls :
  forall l,
    Listener.subscriptions l
    = (if Listener.isListening l
       then [AssetRegistered; AssetTransferred] else []) ->
    let l' := fold_left call calls l in
    Listener.subscriptions l'
    = (if Listener.isListening l'
       then [AssetRegistered; AssetTransferred] else []).
Proof.
  induction calls as [|c calls IH]; intros l H; [exact H|].
  cbn [fold_left]. now apply IH, call_keeps_subscriptions.
Qed.

Lemma callback_run env event w :
  callback env event w = (Ok tt, after (handle env event) w).
Proof.
  unfold callback, try_catch, after, ret.
  destruct (handle env event w) as [[[]|e] w']; reflexivity.
Qed.

(** X10.  However often and in whatever order [startListening] and
    [stopListening] are called on a new listener, the contract holds
    one callback for each event name while the listener is listening
    and none while it is not.  So an event that is delivered is handled
    exactly once by a listening listener and not at all by a stopped
    one, and the delivery never throws, whatever the handler threw. *)
Theorem listener_handles_once calls env event w :
  let l := fold_left call calls new_listener in
  Listener.subscriptions l
  = (if Listener.isListening l
     then [AssetRegistered; AssetTransferred] else []) /\
  deliver env l event w
  = (Ok tt, if Listener.isListening l then after (handle env event) w else w) /\
  Listener.isListening (call l StartListening) = true /\
  Listener.isListening (call l StopListening) = false.
Proof.
  cbv zeta.
  pose proof (calls_keep_subscriptions calls new_listener eq_refl) as H.
  cbv zeta in H. split; [exact H|]. split; [|split]; clear H.
  - pose proof (calls_keep_subscriptions calls new_listener eq_refl) as H.
    cbv zeta in H. unfold deliver. rewrite H.
    destruct (Listener.isListening (fold_left call calls new_listener));
      [|reflexivity].
    destruct (args event); cbn [kind_of List.filter same_kind call_each];
      unfold bind; rewrite callback_run; reflexivity.
  - generalize (fold_left call calls new_listener). intros l.
    cbn [call]. unfold startListening.
    destruct (Listener.isListening l) eqn:E; [exact E|reflexivity].
  - generalize (fold_left call calls new_listener). intros l.
    cbn [call]. unfold stopListening.
    destruct (Listener.isListening l) eqn:E; [reflexivity|exact E].
Qed.

(** ** Start-up *)

Lemma syncHistoricalEvents_by_rejected env K fromBlock w :
  rejects env (tick w) = true ->
  syncHistoricalEvents_by env K fromBlock w
  = (Throw (Rejected (tick w)), next_point w).
Proof.
  intros R0.
  unfold syncHistoricalEvents_by, try_catch, bind, getBlockNumber, await, throw.
  now rewrite R0.
Qed.

Lemma sleep_run w : sleep w = (Ok tt, next_point w).
Proof. reflexivity. Qed.

Lemma try_catch_bind_run {A B} (m : M A) (k : A -> M B) handler w :
  try_catch (bind m k) handler w
  = match m w with
    | (Ok a, w') => try_catch (k a) handler w'
    | (Throw e, w') => handler e w'
    end.
Proof. unfold try_catch, bind. now destruct (m w) as [[a|e] w']. Qed.

(** X11.  Start-up never throws, and what it leaves is decided by the
    schema synchronisation, the two settings, the constructor and the
    height query.  When the schema synchronisation rejects, the process
    exits with code 1 and the store is as the synchronisation left it.
    Otherwise the server starts, on the store the synchronisation left:
    without a contract address or an RPC URL, or when the constructor
    throws, there is no listener and nothing more happens; for a
    setting that is unset, zero or negative no query is issued and the
    listener listens (so a setting of 0 does not backfill from the
    first block); for a setting above zero the backfill runs from that
    block and the listener listens after it, unless the height query
    rejects, in which case nothing is written and the listener exists
    but never starts listening. *)
Theorem startup_outcomes
    env schema_sync constructs contractAddress rpcUrl SYNC_FROM_BLOCK w :
  let run :=
    startup env schema_sync constructs contractAddress rpcUrl SYNC_FROM_BLOCK in
  let n := default 0 SYNC_FROM_BLOCK in
  let w0 := after schema_sync w in
  match outcome schema_sync w with
  | Throw error => run w = (Ok (Exited 1), w0)
  | Ok _ =>
      if truthy_string contractAddress && truthy_string rpcUrl then
        if constructs then
          if n >? 0 then
            if rejects env (tick w0) then
              run w = (Ok (Serving (Some new_listener)), next_point w0)
            else
              run w = (Ok (Serving (Some (startListening new_listener))),
                       next_point (after (syncHistoricalEvents env n) w0))
          else
            run w = (Ok (Serving (Some (startListening new_listener))),
                     next_point w0)
        else run w = (Ok (Serving None), w0)
      else run w = (Ok (Serving None), w0)
  end.
Proof.
  cbv zeta. unfold startup, outcome, after.
  rewrite try_catch_bind_run.
  destruct (schema_sync w) as [[[]|error] w0]; cbn [fst snd]; [|reflexivity].
  destruct (truthy_string contractAddress && truthy_string rpcUrl);
    [|reflexivity].
  destruct constructs; [|reflexivity].
  destruct (default 0 SYNC_FROM_BLOCK >? 0) eqn:Hn.
  - destruct (rejects env (tick w0)) eqn:R0.
    + unfold try_catch, bind, syncHistoricalEvents.
      rewrite (syncHistoricalEvents_by_rejected env BLOCK_CHUNK_SIZE _ w0 R0).
      reflexivity.
    + unfold try_catch, bind, syncHistoricalEvents.
      rewrite (sync_fuel_enough env BLOCK_CHUNK_SIZE _ w0)
        by (trivial; unfold BLOCK_CHUNK_SIZE; lia).
      rewrite sleep_run. reflexivity.
  - reflexivity.
Qed.

(** The schema synchronisation as one awaited call that leaves the
    tables alone: on the chain whose first call rejects the process
    exits; on the quiet chain the server starts, and with a setting of
    1 the backfill has stored A1 by then. *)
Example startup_runs :
  let schema_sync := await quiet_env (ret tt) in
  outcome (startup quiet_env schema_sync true (Some "0xC0") (Some "http://rpc")
             (Some 1)) empty_world
  = Ok (Serving (Some (startListening new_listener))) /\
  outcome (startup quiet_env schema_sync false (Some "0xC0") (Some "http://rpc")
             (Some 1)) empty_world
  = Ok (Serving None) /\
  outcome (startup quiet_env (throw (Rejected 0)) true (Some "0xC0")
             (Some "http://rpc") (Some 1)) empty_world
  = Ok (Exited 1).
Proof. vm_compute. repeat split. Qed.

(** ** The routes *)

Lemma insert_by_perm {A} (le : A -> A -> bool) x l :
  Permutation (insert_by le x l) (x :: l).
Proof.
  induction l as [|y l IH]; cbn [insert_by]; [reflexivity|].
  destruct (le x y); [reflexivity|].
  rewrite IH. apply perm_swap.
Qed.

Lemma order_by_perm {A} (le : A -> A -> bool) l :
  Permutation (order_by le l) l.
Proof.
  induction l as [|x l IH]; [reflexivity|].
  cbn [order_by fold_right]. fold (order_by le l).
  rewrite insert_by_perm. now constructor.
Qed.

Lemma order_by_in {A} (le : A -> A -> bool) l x :
  In x (order_by le l) <-> In x l.
Proof.
  split; apply Permutation_in;
    [apply order_by_perm|symmetry; apply order_by_perm].
Qed.

Lemma insert_by_sorted {A} (le : A -> A -> bool) x l :
  (forall a b, le a b = false -> le b a = true) ->
  (forall a b c, le a b = true -> le b c = true -> le a c = true) ->
  StronglySorted (fun a b => le a b = true) l ->
  StronglySorted (fun a b => le a b = true) (insert_by le x l).
Proof.
  intros Htotal Htrans. induction l as [|y l IH]; intros Hs; cbn [insert_by].
  - repeat constructor.
  - apply StronglySorted_inv in Hs as [Hs Hy].
    destruct (le x y) eqn:E.
    + constructor; [now constructor|].
      constructor; [exact E|].
      eapply Forall_impl; [exact Hy|]. intros z Hz. cbv beta in *. eauto.
    + constructor; [now apply IH|].
      apply Forall_forall. intros z Hz.
      apply list_elem_of_In in Hz.
      apply (Permutation_in _ (insert_by_perm le x l)) in Hz as [<-|Hz].
      * now apply Htotal.
      * rewrite Forall_forall in Hy. apply Hy, list_elem_of_In, Hz.
Qed.

Lemma order_by_sorted {A} (le : A -> A -> bool) l :
  (forall a b, le a b = false -> le b a = true) ->
  (forall a b c, le a b = true -> le b c = true -> le a c = true) ->
  StronglySorted (fun a b => le a b = true) (order_by le l).
Proof.
  intros Htotal Htrans. induction l as [|x l IH]; [constructor|].
  cbn [order_by fold_right]. now apply insert_by_sorted.
Qed.

Lemma asset_id_not_valid assetId :
  negb (truthy_string (Some assetId))
  || negb (String.prefix "0x" assetId)
  || Nat.ltb (String.length assetId) 3
  = negb (String.prefix "0x" assetId && Nat.leb 3 (String.length assetId)).
Proof.
  destruct assetId as [|c s]; [reflexivity|]. cbn [truthy_string String.eqb negb orb].
  destruct (String.prefix "0x" (String c s)); cbn [negb orb andb];
    [|reflexivity].
  destruct (Nat.ltb_spec (String.length (String c s)) 3),
           (Nat.leb_spec 3 (String.length (String c s)));
    try reflexivity; lia.
Qed.

Lemma address_not_valid address :
  negb (truthy_string (Some address))
  || negb (Nat.eqb (String.length address) 42)
  || negb (String.prefix "0x" address)
  = negb (Nat.eqb (String.length address) 42 && String.prefix "0x" address).
Proof.
  destruct address as [|c s]; [reflexivity|].
  cbn [truthy_string String.eqb negb orb].
  now destruct (Nat.eqb _ 42), (String.prefix "0x" (String c s)).
Qed.

(** X12.  The two routes answer every request, and only read.  A
    request whose parameter fails the format check gets 400 before the
    database is asked anything; a request that passes it gets 500 when
    the query rejects and otherwise 200 with the parameter (the address
    in lower case) and a count that is the number of rows returned.
    The route never throws, and the tables are as they were. *)
Theorem routes_reject_or_answer env w :
  (forall assetId,
     let run := get_asset_transfers env assetId in
     assets (after run w) = assets w /\ transfers (after run w) = transfers w /\
     if String.prefix "0x" assetId && Nat.leb 3 (String.length assetId)
     then
       if rejects env (tick w) then outcome run w = Ok ServerError
       else exists rows, outcome run w = Ok (Json assetId (length rows) rows)
     else run w = (Ok BadRequest, w)) /\
  (forall address,
     let run := get_assets_by_owner env address in
     assets (after run w) = assets w /\ transfers (after run w) = transfers w /\
     if Nat.eqb (String.length address) 42 && String.prefix "0x" address
     then
       if rejects env (tick w) then outcome run w = Ok ServerError
       else exists rows,
              outcome run w = Ok (Json (toLowerCase address) (length rows) rows)
     else run w = (Ok BadRequest, w)).
Proof.
  split; intros; subst run.
  - unfold get_asset_transfers. rewrite asset_id_not_valid.
    destruct (String.prefix "0x" assetId && Nat.leb 3 (String.length assetId));
      cbn [negb]; [|repeat split].
    unfold outcome, after, try_catch, bind, Transfer_findAll_of, await, ret.
    destruct (rejects env (tick w)); simpl_world; repeat split. eauto.
  - unfold get_assets_by_owner. rewrite address_not_valid.
    destruct (Nat.eqb (String.length address) 42 && String.prefix "0x" address);
      cbn [negb]; [|repeat split].
    unfold outcome, after, try_catch, bind, Asset_findAll_owned, await, ret.
    destruct (rejects env (tick w)); simpl_world; repeat split. eauto.
Qed.

Lemma get_assets_by_owner_run env address w :
  rejects env (tick w) = false ->
  String.length address = 42%nat ->
  String.prefix "0x" address = true ->
  exists rows,
    outcome (get_assets_by_owner env address) w
    = Ok (Json (toLowerCase address) (length rows) rows) /\
    forall id,
      In id (map (fun r => Asset.id (fst r)) rows)
      <-> exists a, In a (assets w) /\ Asset.id a = id /\
                    Asset.owner a = toLowerCase address.
Proof.
  intros R0 Hlen Hpre. unfold get_assets_by_owner.
  rewrite address_not_valid, Hlen, Hpre. cbn [Nat.eqb andb negb].
  unfold outcome, try_catch, bind, Asset_findAll_owned, await, ret.
  rewrite R0. simpl_world. eexists. split; [reflexivity|].
  intros id. rewrite map_map. cbn [fst]. rewrite in_map_iff. split.
  - intros (a & <- & Hin). apply order_by_in, filter_In in Hin as [Hin Ho].
    exists a. repeat split; [exact Hin|]. now apply String.eqb_eq in Ho.
  - intros (a & Hin & <- & Ho). exists a. split; [reflexivity|].
    apply order_by_in, filter_In. split; [exact Hin|].
    now apply String.eqb_eq.
Qed.

Lemma owner_route_by_current_owner env address w id a :
  fault_free env -> unique_keys w ->
  find_asset id w = Some a ->
  String.length address = 42%nat ->
  String.prefix "0x" address = true ->
  exists rows,
    outcome (get_assets_by_owner env address) w
    = Ok (Json (toLowerCase address) (length rows) rows) /\
    (In id (map (fun r => Asset.id (fst r)) rows)
     <-> toLowerCase address = Asset.owner a).
Proof.
  intros Hff [Hnd _] Hfind Hlen Hpre.
  destruct (get_assets_by_owner_run env address w (Hff _) Hlen Hpre)
    as (rows & Hrun & Hrows).
  exists rows. split; [exact Hrun|]. rewrite Hrows.
  unfold find_asset in Hfind.
  pose proof (find_has_id _ _ _ Hfind) as Hid.
  apply find_some in Hfind as [Hin _].
  split.
  - intros (a' & Hin' & Hid' & Ho).
    assert (a' = a) as -> by (eapply NoDup_key_inj; eauto; congruence).
    now symmetry.
  - intros Ho. exists a. now repeat split.
Qed.

(** X13.  The owner route follows the handlers, whatever the case of the
    addresses.  When nothing rejects and the store respects its keys:
    after a Registered event for a new id, and after a Transferred event
    for an id of the store, a well-formed address lists the asset if and
    only if it is, up to the case of its letters, the owner (the new
    owner) of the event; so the previous owner's list no longer has the
    asset after a transfer to another address. *)
Theorem owner_route_follows_handlers env w id event address :
  fault_free env ->
  unique_keys w ->
  String.length address = 42%nat ->
  String.prefix "0x" address = true ->
  (forall owner description timestamp,
     find_asset id w = None ->
     let w1 := after (handleAssetRegistered env id owner description timestamp
                        event) w in
     exists rows,
       outcome (get_assets_by_owner env address) w1
       = Ok (Json (toLowerCase address) (length rows) rows) /\
       (In id (map (fun r => Asset.id (fst r)) rows)
        <-> toLowerCase address = toLowerCase owner)) /\
  (forall newOwner a,
     find_asset id w = Some a ->
     let w1 := after (handleAssetTransferred env id newOwner event) w in
     exists rows,
       outcome (get_assets_by_owner env address) w1
       = Ok (Json (toLowerCase address) (length rows) rows) /\
       (In id (map (fun r => Asset.id (fst r)) rows)
        <-> toLowerCase address = toLowerCase newOwner)).
Proof.
  intros Hff Hu Hlen Hpre. split.
  - intros owner description timestamp Hnew w1.
    assert (unique_keys w1) as Hu1
      by now apply handleAssetRegistered_unique.
    assert (exists a1, find_asset id w1 = Some a1 /\
                       Asset.owner a1 = toLowerCase owner) as (a1 & F1 & <-).
    { subst w1. unfold after, find_asset in *.
      destruct (handleAssetRegistered_run env Hff id owner description
                  timestamp event w) as (t1 & t2 & n & ->).
      cbn [snd assets]. unfold registered_assets. rewrite Hnew.
      rewrite find_snoc, Hnew. unfold has_id at 1. cbn [Asset.id].
      rewrite String.eqb_refl. eauto. }
    now apply owner_route_by_current_owner.
  - intros newOwner a Hfound w1.
    assert (unique_keys w1) as Hu1
      by now apply handleAssetTransferred_unique.
    assert (exists a1, find_asset id w1 = Some a1 /\
                       Asset.owner a1 = toLowerCase newOwner)
      as (a1 & F1 & <-).
    { subst w1. unfold after, find_asset in *.
      destruct (handleAssetTransferred_run env Hff id newOwner event w)
        as (t1 & t2 & n & ->).
      cbn [snd assets]. rewrite (transferred_assets_found _ _ _ _ Hfound).
      rewrite find_retarget, Hfound. cbn [option_map].
      eexists. split; [reflexivity|].
      apply retarget_owner. apply find_some in Hfound. apply Hfound. }
    now apply owner_route_by_current_owner.
Qed.

(** The asset 0x01 of [sample_address], transferred to another address
    and looked up under the same address in upper-case digits. *)
Lemma owner_route_follows_handlers_witness :
  let env := quiet_env in
  let w := world_0x01 in
  let id := "0x01" in
  let event := transfer_A1 in
  let address := "0xBBBBBBBBBBBBBBBBBBBBBBBBBBBBBBBBBBBBBBBB" in
  (forall owner description timestamp,
     find_asset id w = None ->
     let w1 := after (handleAssetRegistered env id owner description timestamp
                        event) w in
     exists rows,
       outcome (get_assets_by_owner env address) w1
       = Ok (Json (toLowerCase address) (length rows) rows) /\
       (In id (map (fun r => Asset.id (fst r)) rows)
        <-> toLowerCase address = toLowerCase owner)) /\
  (forall newOwner a,
     find_asset id w = Some a ->
     let w1 := after (handleAssetTransferred env id newOwner event) w in
     exists rows,
       outcome (get_assets_by_owner env address) w1
       = Ok (Json (toLowerCase address) (length rows) rows) /\
       (In id (map (fun r => Asset.id (fst r)) rows)
        <-> toLowerCase address = toLowerCase newOwner)).
Proof.
  apply (owner_route_follows_handlers quiet_env world_0x01 "0x01" transfer_A1
           "0xBBBBBBBBBBBBBBBBBBBBBBBBBBBBBBBBBBBBBBBB").
  - intros n. reflexivity.
  - split; apply (bool_decide_unpack _); vm_compute; exact I.
  - reflexivity.
  - reflexivity.
Defined.

Lemma StronglySorted_weaken {A} (R R' : A -> A -> Prop) l :
  (forall a b, R a b -> R' a b) ->
  StronglySorted R l -> StronglySorted R' l.
Proof.
  intros HR. induction 1 as [|x l Hs IH Hx]; constructor; [exact IH|].
  eapply Forall_impl; [exact Hx|]. auto.
Qed.

Lemma order_by_strict {A} (le : A -> A -> bool) (lt : A -> A -> Prop) l :
  (forall a b, lt a b -> le a b = true) ->
  StronglySorted lt l -> order_by le l = l.
Proof.
  intros Hle. induction l as [|x l IH]; intros Hs; [reflexivity|].
  apply StronglySorted_inv in Hs as [Hs Hx].
  cbn [order_by fold_right]. fold (order_by le l). rewrite IH by exact Hs.
  destruct l as [|y l]; [reflexivity|]. cbn [insert_by].
  apply Forall_cons in Hx as [Hxy _]. now rewrite (Hle _ _ Hxy).
Qed.

(** X14.  The transfers route returns the history of one asset.  For an
    id that passes the format check, when the query is answered and
    every Transfer row of the store has its Asset: the rows returned are
    the Transfer rows of that id, each of them once, in ascending order
    of [transferredAt], each with the id, description and current owner
    of the asset; and when the local times of the rows strictly
    increase in the table, the rows come in table order. *)
Theorem transfers_route_history env w assetId :
  rejects env (tick w) = false ->
  String.prefix "0x" assetId = true ->
  (3 <= String.length assetId)%nat ->
  references_hold w ->
  exists rows,
    outcome (get_asset_transfers env assetId) w
    = Ok (Json assetId (length rows) rows) /\
    Permutation (map fst rows) (transfers_of assetId w) /\
    StronglySorted
      (fun t t' => Transfer.transferredAt t <= Transfer.transferredAt t')
      (map fst rows) /\
    (forall t included,
       In (t, included) rows ->
       exists a, find_asset assetId w = Some a /\
                 included = Some (asset_attributes a)) /\
    (StronglySorted
       (fun t t' => Transfer.transferredAt t < Transfer.transferredAt t')
       (transfers_of assetId w) ->
     map fst rows = transfers_of assetId w).
Proof.
  intros R0 Hpre Hlen Href. unfold get_asset_transfers.
  rewrite asset_id_not_valid, Hpre.
  destruct (Nat.leb_spec 3 (String.length assetId)) as [_|]; [|lia].
  cbn [andb negb].
  unfold outcome, try_catch, bind, Transfer_findAll_of, await, ret.
  rewrite R0. simpl_world. eexists. split; [reflexivity|].
  rewrite map_map. cbn [fst]. rewrite map_id. unfold transfers_of.
  split; [apply order_by_perm|]. split; [|split].
  - eapply StronglySorted_weaken;
      [|apply (order_by_sorted transferredAt_asc)].
    + intros t t' H. now apply Z.leb_le in H.
    + intros a b H. unfold transferredAt_asc in *.
      apply Z.leb_gt in H. apply Z.leb_le. lia.
    + intros a b c H1 H2. unfold transferredAt_asc in *.
      apply Z.leb_le in H1, H2. apply Z.leb_le. lia.
  - intros t included Hin. apply in_map_iff in Hin as (t' & Heq & Hin).
    inversion Heq; subst t' included. clear Heq.
    apply order_by_in, filter_In in Hin as [Hin Hof].
    apply String.eqb_eq in Hof. rewrite Hof.
    specialize (Href t Hin). rewrite existsb_find, Hof in Href.
    unfold find_asset.
    destruct (List.find (has_id assetId) (assets w)) as [a|];
      [|discriminate Href].
    eauto.
  - intros Hs. eapply order_by_strict; [|exact Hs].
    intros a b H. apply Z.leb_le. cbv beta in H. lia.
Qed.

Lemma transfers_route_history_witness :
  let env := quiet_env in
  let w := world_0x01 in
  let assetId := "0x01" in
  exists rows,
    outcome (get_asset_transfers env assetId) w
    = Ok (Json assetId (length rows) rows) /\
    Permutation (map fst rows) (transfers_of assetId w) /\
    StronglySorted
      (fun t t' => Transfer.transferredAt t <= Transfer.transferredAt t')
      (map fst rows) /\
    (forall t included,
       In (t, included) rows ->
       exists a, find_asset assetId w = Some a /\
                 included = Some (asset_attributes a)) /\
    (StronglySorted
       (fun t t' => Transfer.transferredAt t < Transfer.transferredAt t')
       (transfers_of assetId w) ->
     map fst rows = transfers_of assetId w).
Proof.
  apply (transfers_route_history quiet_env world_0x01 "0x01").
  - reflexivity.
  - reflexivity.
  - vm_compute. lia.
  - intros t [<-|[]]. reflexivity.
Defined.

(** ** The contract and its event log *)

Lemma snoc_split {A} (l : list A) e before x rest :
  l ++ [e] = before ++ x :: rest ->
  (rest = [] /\ before = l /\ x = e) \/
  (exists rest', rest = rest' ++ [e] /\ l = before ++ x :: rest').
Proof.
  intros H. induction rest as [|y rest' _] using rev_ind.
  - left. apply app_inj_tail in H as [-> ->]. auto.
  - right. rewrite app_comm_cons, app_assoc in H.
    apply app_inj_tail in H as [-> ->]. eauto.
Qed.

Lemma registered_ids_snoc log e :
  AssetRegistry.registered_ids (log ++ [e])
  = AssetRegistry.registered_ids log
    ++ match e with
       | AssetRegistry.AssetRegistered id _ _ _ => [id]
       | AssetRegistry.AssetTransferred _ _ => []
       end.
Proof.
  unfold AssetRegistry.registered_ids. rewrite flat_map_app. cbn.
  now rewrite app_nil_r.
Qed.

Lemma log_owner_snoc id log e :
  AssetRegistry.log_owner id (log ++ [e])
  = match e with
    | AssetRegistry.AssetRegistered id' owner _ _ =>
        if id' =? id then owner else AssetRegistry.log_owner id log
    | AssetRegistry.AssetTransferred id' newOwner =>
        if id' =? id then newOwner else AssetRegistry.log_owner id log
    end.
Proof. unfold AssetRegistry.log_owner. now rewrite fold_left_app. Qed.

Lemma getAsset_insert id id' a (s : AssetRegistry.State) assets_by log o :
  AssetRegistry.Asset.owner
    (AssetRegistry.getAsset id'
       {| AssetRegistry.owner := o;
          AssetRegistry._assets := <[id := a]> (AssetRegistry._assets s);
          AssetRegistry._assetsByOwner := assets_by;
          AssetRegistry.emitted := log |})
  = if id =? id' then AssetRegistry.Asset.owner a
    else AssetRegistry.Asset.owner (AssetRegistry.getAsset id' s).
Proof.
  unfold AssetRegistry.getAsset. cbn [AssetRegistry._assets].
  destruct (Z.eqb_spec id id') as [->|Hne].
  - now rewrite lookup_insert_eq.
  - now rewrite lookup_insert_ne.
Qed.

Lemma constructor_consistent deployer :
  AssetRegistry.consistent (AssetRegistry.constructor deployer).
Proof.
  unfold AssetRegistry.consistent. cbn [AssetRegistry.constructor
    AssetRegistry.emitted AssetRegistry.registered_ids flat_map
    AssetRegistry.log_owner fold_left].
  split; [constructor|]. split; [reflexivity|]. split.
  - intros id. split; [intros []|intros H; now destruct H].
  - intros before id newOwner rest H. destruct before; discriminate H.
Qed.

Lemma transact_consistent keccak256 s tx :
  AssetRegistry.tx_sender tx <> 0 ->
  AssetRegistry.consistent s ->
  AssetRegistry.consistent (AssetRegistry.transact keccak256 s tx).
Proof.
  intros Hsender Hs. pose proof Hs as (Hnd & Hown & Hreg & Hlog).
  unfold AssetRegistry.transact, AssetRegistry.attempt.
  destruct tx as [sender now [d|id newOwner]];
    cbn [AssetRegistry.tx_sender AssetRegistry.tx_time AssetRegistry.tx_call]
      in *.
  - unfold AssetRegistry.registerNewAsset.
    set (id := keccak256 sender d now).
    destruct (Z.eqb_spec (AssetRegistry.Asset.owner (AssetRegistry.getAsset id s)) 0)
      as [Hfree|Htaken]; cbn [negb from_option Datatypes.id];
      [|exact Hs].
    rewrite Hown in Hfree.
    assert (~ In id (AssetRegistry.registered_ids (AssetRegistry.emitted s)))
      as Hnew by (rewrite Hreg; tauto).
    unfold AssetRegistry.consistent. cbn [AssetRegistry.emitted].
    split; [|split; [|split]].
    + rewrite registered_ids_snoc. apply NoDup_app. split; [exact Hnd|].
      split; [|apply NoDup_singleton].
      intros x Hx Hx'. apply list_elem_of_In in Hx.
      apply list_elem_of_In in Hx' as [<-|[]]. contradiction.
    + intros id'. rewrite getAsset_insert, log_owner_snoc.
      cbn [AssetRegistry.Asset.owner].
      destruct (id =? id'); [reflexivity|apply Hown].
    + intros id'. rewrite registered_ids_snoc, log_owner_snoc, in_app_iff.
      destruct (Z.eqb_spec id id') as [->|Hne].
      * split; [auto|]. intros _. right. now left.
      * rewrite Hreg. split; [|tauto].
        intros [H|[H|[]]]; [exact H|contradiction].
    + intros before id' newOwner rest Hsplit.
      apply snoc_split in Hsplit as [(_ & _ & Heq)|(rest' & _ & Hsplit)];
        [discriminate Heq|].
      eapply Hlog, Hsplit.
  - unfold AssetRegistry.transferAsset.
    destruct (Z.eqb_spec
                (AssetRegistry.Asset.owner (AssetRegistry.getAsset id s)) sender)
      as [Hmine|]; cbn [negb from_option Datatypes.id]; [|exact Hs].
    destruct (Z.eqb_spec newOwner 0) as [|Hnz]; cbn [from_option Datatypes.id];
      [exact Hs|].
    destruct (Z.eqb_spec
                (AssetRegistry.Asset.owner (AssetRegistry.getAsset id s)) newOwner)
      as [|Hother]; cbn [from_option Datatypes.id]; [exact Hs|].
    rewrite Hown in Hmine, Hother.
    assert (In id (AssetRegistry.registered_ids (AssetRegistry.emitted s)))
      as Hknown by (apply Hreg; lia).
    unfold AssetRegistry.consistent. cbn [AssetRegistry.emitted].
    split; [|split; [|split]].
    + rewrite registered_ids_snoc, app_nil_r. exact Hnd.
    + intros id'. rewrite getAsset_insert, log_owner_snoc.
      cbn [AssetRegistry.Asset.owner].
      destruct (id =? id'); [reflexivity|apply Hown].
    + intros id'. rewrite registered_ids_snoc, log_owner_snoc, app_nil_r.
      destruct (Z.eqb_spec id id') as [->|Hne]; [tauto|apply Hreg].
    + intros before id' newOwner' rest Hsplit.
      apply snoc_split in Hsplit as [(_ & -> & Heq)|(rest' & _ & Hsplit)].
      * inversion Heq; subst id' newOwner'. auto.
      * eapply Hlog, Hsplit.
Qed.

Lemma transactions_consistent keccak256 deployer txs :
  Forall (fun tx => AssetRegistry.tx_sender tx <> 0) txs ->
  AssetRegistry.consistent
    (fold_left (AssetRegistry.transact keccak256) txs
       (AssetRegistry.constructor deployer)).
Proof.
  intros Hsenders.
  generalize (constructor_consistent deployer).
  generalize (AssetRegistry.constructor deployer).
  induction Hsenders as [|tx txs Htx _ IH]; intros s Hs; [exact Hs|].
  cbn [fold_left]. now apply IH, transact_consistent.
Qed.

(** X15.  The contract's state and its event log never part, and the
    log is one the backend can replay.  After any transactions sent
    from addresses other than [address(0)], whatever they call and
    whichever of them revert: no id has two Registered entries; the
    owner [getAsset] reports for an id is the owner of the last log
    entry for that id, and it is [address(0)] exactly for the ids
    without a Registered entry; and every Transferred entry comes after
    the Registered entry of its id and names a new owner that is neither
    [address(0)] nor the owner the log gave the id until then. *)
Theorem contract_state_follows_log keccak256 deployer txs :
  Forall (fun tx => AssetRegistry.tx_sender tx <> 0) txs ->
  let s := fold_left (AssetRegistry.transact keccak256) txs
             (AssetRegistry.constructor deployer) in
  let log := AssetRegistry.emitted s in
  NoDup (AssetRegistry.registered_ids log) /\
  (forall id,
     AssetRegistry.Asset.owner (AssetRegistry.getAsset id s)
     = AssetRegistry.log_owner id log) /\
  (forall id,
     In id (AssetRegistry.registered_ids log)
     <-> AssetRegistry.Asset.owner (AssetRegistry.getAsset id s) <> 0) /\
  (forall before id newOwner rest,
     log = before ++ AssetRegistry.AssetTransferred id newOwner :: rest ->
     In id (AssetRegistry.registered_ids before) /\ newOwner <> 0 /\
     AssetRegistry.log_owner id before <> newOwner).
Proof.
  intros Hsenders. cbv zeta.
  destruct (transactions_consistent keccak256 deployer txs Hsenders)
    as (Hnd & Hown & Hreg & Hlog).
  split; [exact Hnd|]. split; [exact Hown|]. split; [|exact Hlog].
  intros id. rewrite Hown. apply Hreg.
Qed.

Lemma contract_state_follows_log_witness :
  let txs :=
    [ {| AssetRegistry.tx_sender := 1; AssetRegistry.tx_time := 100;
         AssetRegistry.tx_call := AssetRegistry.RegisterNewAsset "Doc" |};
      {| AssetRegistry.tx_sender := 1; AssetRegistry.tx_time := 110;
         AssetRegistry.tx_call := AssetRegistry.TransferAsset 1100 2 |};
      {| AssetRegistry.tx_sender := 1; AssetRegistry.tx_time := 120;
         AssetRegistry.tx_call := AssetRegistry.TransferAsset 1100 3 |} ] in
  let s := fold_left (AssetRegistry.transact AssetRegistry.sample_keccak256) txs
             (AssetRegistry.constructor 9) in
  let log := AssetRegistry.emitted s in
  NoDup (AssetRegistry.registered_ids log) /\
  (forall id,
     AssetRegistry.Asset.owner (AssetRegistry.getAsset id s)
     = AssetRegistry.log_owner id log) /\
  (forall id,
     In id (AssetRegistry.registered_ids log)
     <-> AssetRegistry.Asset.owner (AssetRegistry.getAsset id s) <> 0) /\
  (forall before id newOwner rest,
     log = before ++ AssetRegistry.AssetTransferred id newOwner :: rest ->
     In id (AssetRegistry.registered_ids before) /\ newOwner <> 0 /\
     AssetRegistry.log_owner id before <> newOwner).
Proof.
  apply (contract_state_follows_log AssetRegistry.sample_keccak256 9).
  repeat constructor; cbn; lia.
Defined.

Lemma transact_index keccak256 s tx :
  (forall who, AssetRegistry.getAssetsByOwner who s
               = AssetRegistry.registrations_of who (AssetRegistry.emitted s)) ->
  forall who,
    AssetRegistry.getAssetsByOwner who (AssetRegistry.transact keccak256 s tx)
    = AssetRegistry.registrations_of who
        (AssetRegistry.emitted (AssetRegistry.transact keccak256 s tx)).
Proof.
  intros H who. unfold AssetRegistry.transact, AssetRegistry.attempt.
  destruct tx as [sender now [d|id newOwner]];
    cbn [AssetRegistry.tx_sender AssetRegistry.tx_time AssetRegistry.tx_call].
  - unfold AssetRegistry.registerNewAsset.
    destruct (negb _); cbn [from_option Datatypes.id]; [apply H|].
    unfold AssetRegistry.getAssetsByOwner at 1.
    cbn [AssetRegistry._assetsByOwner AssetRegistry.emitted].
    unfold AssetRegistry.registrations_of. rewrite flat_map_app.
    fold (AssetRegistry.registrations_of who (AssetRegistry.emitted s)).
    cbn [flat_map]. rewrite app_nil_r.
    destruct (Z.eqb_spec sender who) as [->|Hne].
    + rewrite lookup_insert_eq. cbn [from_option Datatypes.id]. now rewrite H.
    + rewrite lookup_insert_ne by exact Hne. rewrite app_nil_r. apply H.
  - unfold AssetRegistry.transferAsset.
    destruct (negb _); cbn [from_option Datatypes.id]; [apply H|].
    destruct (newOwner =? 0); cbn [from_option Datatypes.id]; [apply H|].
    destruct (_ =? newOwner); cbn [from_option Datatypes.id]; [apply H|].
    unfold AssetRegistry.getAssetsByOwner at 1.
    cbn [AssetRegistry._assetsByOwner AssetRegistry.emitted].
    unfold AssetRegistry.registrations_of. rewrite flat_map_app.
    cbn [flat_map]. rewrite !app_nil_r. apply H.
Qed.

(** X16.  [getAssetsByOwner] lists what an address registered, not what
    it owns.  After any transactions, the list of an address holds the
    structs of the Registered entries of that address, in log order,
    each still naming that address as owner: a transfer moves the asset
    in [getAsset] and leaves both parties' lists as they were. *)
Theorem assets_by_owner_lists_registrations keccak256 deployer txs who :
  let s := fold_left (AssetRegistry.transact keccak256) txs
             (AssetRegistry.constructor deployer) in
  AssetRegistry.getAssetsByOwner who s
  = AssetRegistry.registrations_of who (AssetRegistry.emitted s) /\
  Forall (fun a => AssetRegistry.Asset.owner a = who)
         (AssetRegistry.getAssetsByOwner who s) /\
  forall sender id newOwner s',
    AssetRegistry.transferAsset sender id newOwner s = Some s' ->
    AssetRegistry.Asset.owner (AssetRegistry.getAsset id s') = newOwner /\
    AssetRegistry.getAssetsByOwner who s' = AssetRegistry.getAssetsByOwner who s.
Proof.
  cbv zeta.
  assert (forall who,
            AssetRegistry.getAssetsByOwner who
              (fold_left (AssetRegistry.transact keccak256) txs
                 (AssetRegistry.constructor deployer))
            = AssetRegistry.registrations_of who
                (AssetRegistry.emitted
                   (fold_left (AssetRegistry.transact keccak256) txs
                      (AssetRegistry.constructor deployer)))) as Hindex.
  { assert (forall who,
              AssetRegistry.getAssetsByOwner who
                (AssetRegistry.constructor deployer)
              = AssetRegistry.registrations_of who
                  (AssetRegistry.emitted (AssetRegistry.constructor deployer)))
      as H0 by reflexivity.
    revert H0. generalize (AssetRegistry.constructor deployer).
    induction txs as [|tx txs IH]; intros s Hs; [exact Hs|].
    cbn [fold_left]. apply IH. now apply transact_index. }
  split; [apply Hindex|]. split.
  - rewrite Hindex. unfold AssetRegistry.registrations_of.
    apply Forall_forall. intros a Ha. apply list_elem_of_In in Ha.
    apply in_flat_map in Ha as ([id o d t|] & _ & Ha); [|destruct Ha].
    destruct (Z.eqb_spec o who) as [->|]; [|destruct Ha].
    destruct Ha as [<-|[]]. reflexivity.
  - intros sender id newOwner s'. unfold AssetRegistry.transferAsset.
    destruct (negb _); [discriminate|].
    destruct (newOwner =? 0); [discriminate|].
    destruct (_ =? newOwner); [discriminate|].
    intros [= <-]. split; [|reflexivity].
    rewrite getAsset_insert, Z.eqb_refl. reflexivity.
Qed.

(** ** What a handler leaves alone *)

Lemma find_registered_assets_other pk at_ id owner description timestamp l :
  pk <> id ->
  List.find (has_id pk) (registered_assets at_ id owner description timestamp l)
  = List.find (has_id pk) l.
Proof.
  intros Hne. unfold registered_assets.
  destruct (List.find (has_id id) l); [reflexivity|].
  rewrite find_snoc. unfold has_id at 2. cbn [Asset.id].
  destruct (String.eqb_spec id pk) as [E|_]; [now symmetry in E|].
  now destruct (List.find (has_id pk) l).
Qed.

Lemma find_transferred_assets_other pk id newOwner l :
  pk <> id ->
  List.find (has_id pk) (transferred_assets id newOwner l)
  = List.find (has_id pk) l.
Proof.
  intros Hne. unfold transferred_assets.
  destruct (List.find (has_id id) l); [|reflexivity].
  rewrite find_retarget.
  destruct (List.find (has_id pk) l) as [a|] eqn:F; [|reflexivity].
  cbn [option_map]. f_equal. unfold retarget, has_id.
  rewrite (find_has_id _ _ _ F).
  destruct (String.eqb_spec pk id); [contradiction|reflexivity].
Qed.

Lemma filter_registered_transfers_other pk at_ id owner timestamp event l :
  pk <> id ->
  List.filter (of_asset pk) (registered_transfers at_ id owner timestamp event l)
  = List.filter (of_asset pk) l.
Proof.
  intros Hne. unfold registered_transfers.
  destruct (metadata event) as [[h bn]|]; [|reflexivity].
  destruct (List.find (has_hash h) l); [reflexivity|].
  rewrite filter_snoc. unfold of_asset at 2. cbn [Transfer.assetId].
  destruct (String.eqb_spec id pk) as [E|_]; [now symmetry in E|].
  apply app_nil_r.
Qed.

Lemma filter_transferred_transfers_other pk bts fb at_ id newOwner event la l :
  pk <> id ->
  List.filter (of_asset pk)
    (transferred_transfers bts fb at_ id newOwner event la l)
  = List.filter (of_asset pk) l.
Proof.
  intros Hne. unfold transferred_transfers.
  destruct (List.find (has_id id) la); [|reflexivity].
  destruct (metadata event) as [[h bn]|]; [|reflexivity].
  destruct (List.find (has_hash h) l); [reflexivity|].
  rewrite filter_snoc. unfold of_asset at 2. cbn [Transfer.assetId].
  destruct (String.eqb_spec id pk) as [E|_]; [now symmetry in E|].
  apply app_nil_r.
Qed.

(** X17.  A handler touches the rows of its own asset only.  In any
    environment, and wherever a call rejects, handling an event for one
    id leaves the Asset row of every other id as it was, field by
    field, and the Transfer rows of every other id the same rows in the
    same order. *)
Theorem handlers_leave_other_assets env w pk :
  (forall id owner description timestamp event,
     pk <> id ->
     let w' := after (handleAssetRegistered env id owner description timestamp
                        event) w in
     find_asset pk w' = find_asset pk w /\
     transfers_of pk w' = transfers_of pk w) /\
  (forall id newOwner event,
     pk <> id ->
     let w' := after (handleAssetTransferred env id newOwner event) w in
     find_asset pk w' = find_asset pk w /\
     transfers_of pk w' = transfers_of pk w).
Proof.
  split.
  - intros id owner description timestamp event Hne w'.
    destruct (handleAssetRegistered_tables env id owner description timestamp
                event w) as (at1 & at2 & HA & HT).
    cbv zeta in HA, HT. fold w' in HA, HT.
    unfold find_asset, transfers_of. split.
    + destruct HA as [-> | ->]; [reflexivity|].
      now apply find_registered_assets_other.
    + destruct HT as [-> | [_ ->]]; [reflexivity|].
      now apply filter_registered_transfers_other.
  - intros id newOwner event Hne w'.
    destruct (handleAssetTransferred_tables env id newOwner event w)
      as (fb & at_ & [[HA HT]|[HA HT]]);
      cbv zeta in HA, HT; fold w' in HA, HT;
      unfold find_asset, transfers_of; rewrite HA.
    + now rewrite HT.
    + split; [now apply find_transferred_assets_other|].
      destruct HT as [-> | ->]; [reflexivity|].
      now apply filter_transferred_transfers_other.
Qed.


(** ** The backfill of the contract's log *)

Lemma logs_between_all history kind a b :
  (forall l, In l history -> a <= el_block l <= b) ->
  logs_between history kind a b = List.filter (of_kind kind) history.
Proof.
  intros Hin. unfold logs_between, of_kind.
  apply filter_ext_in. intros l Hl. specialize (Hin l Hl).
  destruct (Z.leb_spec a (el_block l)), (Z.leb_spec (el_block l) b);
    try lia. now rewrite andb_true_r.
Qed.

Lemma consistent_replayable s :
  AssetRegistry.consistent s -> replayable (AssetRegistry.emitted s).
Proof.
  intros (Hnd & _ & _ & Hlog). split; [exact Hnd|].
  intros before id newOwner rest H. now apply (Hlog _ _ _ _ H).
Qed.

Lemma replayable_prefix log e : replayable (log ++ [e]) -> replayable log.
Proof.
  intros [Hnd Hlog]. split.
  - rewrite registered_ids_snoc in Hnd. now apply NoDup_app in Hnd as [Hnd _].
  - intros before id newOwner rest ->.
    apply (Hlog before id newOwner (rest ++ [e])).
    now rewrite <- app_assoc.
Qed.

Lemma aligned_snoc {A B C} (g : A -> C) (f : B -> C) history log e :
  map g history = map f (log ++ [e]) ->
  exists earlier l,
    history = earlier ++ [l] /\ map g earlier = map f log /\ g l = f e.
Proof.
  intros H. rewrite map_app in H. cbn [map] in H.
  destruct (exists_last (l := history)) as (earlier & l & ->).
  { intros ->. destruct (map f log); discriminate H. }
  rewrite map_app in H. cbn [map] in H.
  apply app_inj_tail in H as [H1 H2]. eauto.
Qed.

Lemma aligned_in {A B C} (g : A -> C) (f : B -> C) history log x :
  map g history = map f log -> In x history ->
  exists e, In e log /\ g x = f e.
Proof.
  intros H Hin. apply (in_map g) in Hin. rewrite H in Hin.
  apply in_map_iff in Hin as (e & He & Hin). eauto.
Qed.

Lemma transferred_needs_registered log id newOwner :
  replayable log ->
  In (AssetRegistry.AssetTransferred id newOwner) log ->
  In id (AssetRegistry.registered_ids log).
Proof.
  intros [_ Hlog] Hin. apply in_split in Hin as (before & rest & ->).
  specialize (Hlog before id newOwner rest eq_refl).
  unfold AssetRegistry.registered_ids in *. rewrite flat_map_app.
  apply in_app_iff. now left.
Qed.

Lemma last_owner_snoc k o logs l :
  last_owner k o (logs ++ [l])
  = match el_args l with
    | AssetTransferredArgs id newOwner =>
        if String.eqb id k then toLowerCase newOwner else last_owner k o logs
    | AssetRegisteredArgs _ _ _ _ => last_owner k o logs
    end.
Proof. unfold last_owner. now rewrite fold_left_app. Qed.

Section Decoded.
Context (hex_id hex_address : Z -> string).
Context (hex_id_inj : forall a b, hex_id a = hex_id b -> a = b).

Lemma hex_id_eqb a b : String.eqb (hex_id a) (hex_id b) = (a =? b).
Proof.
  destruct (Z.eqb_spec a b) as [->|Hne]; [apply String.eqb_refl|].
  apply String.eqb_neq. intros H. now apply Hne, hex_id_inj.
Qed.

(** What the two phases of a pass find for an id in a history that
    renders a replayable log. *)
Lemma history_view log :
  replayable log ->
  forall history,
    map el_args history = map (decoded hex_id hex_address) log ->
    forall id,
      (~ In id (AssetRegistry.registered_ids log) ->
       List.find (registers (hex_id id))
         (List.filter (of_kind AssetRegistered) history) = None /\
       forall o, last_owner (hex_id id) o
                   (List.filter (of_kind AssetTransferred) history) = o) /\
      (In id (AssetRegistry.registered_ids log) ->
       exists l o d t,
         List.find (registers (hex_id id))
           (List.filter (of_kind AssetRegistered) history) = Some l /\
         registered_facts l = Some (hex_id id, o, d, t) /\
         last_owner (hex_id id) o
           (List.filter (of_kind AssetTransferred) history)
         = toLowerCase (hex_address (AssetRegistry.log_owner id log))).
Proof.
  induction log as [|e log IH] using rev_ind; intros Hrep history Hal id.
  - destruct history; [|discriminate Hal]. cbn. split; [auto|intros []].
  - apply aligned_snoc in Hal as (earlier & l & -> & Hal & Hl).
    pose proof (replayable_prefix _ _ Hrep) as Hrep'.
    destruct (IH Hrep' earlier Hal id) as [IHout IHin].
    rewrite !filter_snoc, registered_ids_snoc, log_owner_snoc.
    destruct e as [id0 o0 d0 t0|id0 n0]; cbn [decoded] in Hl.
    + assert (of_kind AssetRegistered l = true) as ->
        by (unfold of_kind; now rewrite Hl).
      assert (of_kind AssetTransferred l = false) as ->
        by (unfold of_kind; now rewrite Hl).
      rewrite app_nil_r.
      assert (~ In id0 (AssetRegistry.registered_ids log)) as Hfresh.
      { destruct Hrep as [Hnd _]. rewrite registered_ids_snoc in Hnd.
        apply NoDup_app in Hnd as (_ & Hdisj & _).
        intros Hin. apply (Hdisj id0); apply list_elem_of_In;
          [exact Hin|now left]. }
      assert (registers (hex_id id) l = (id0 =? id)) as Hregs
        by (unfold registers; rewrite Hl; cbn [asset_of]; apply hex_id_eqb).
      rewrite find_snoc, Hregs. split.
      * intros Hout. rewrite in_app_iff in Hout.
        destruct IHout as [-> Hkeep]; [tauto|].
        destruct (Z.eqb_spec id0 id) as [->|_]; [|auto].
        exfalso. apply Hout. right. now left.
      * intros Hin. apply in_app_iff in Hin.
        destruct (Z.eqb_spec id0 id) as [->|Hne].
        -- destruct (IHout Hfresh) as [-> Hkeep].
           exists l, (toLowerCase (hex_address o0)), d0, (toString t0).
           split; [reflexivity|]. split; [|apply Hkeep].
           unfold registered_facts. now rewrite Hl.
        -- destruct Hin as [Hin|[Hin|[]]]; [|contradiction].
           destruct (IHin Hin) as (l' & o & d & t & -> & Hfacts & Hlast).
           eauto 8.
    + assert (of_kind AssetRegistered l = false) as ->
        by (unfold of_kind; now rewrite Hl).
      assert (of_kind AssetTransferred l = true) as ->
        by (unfold of_kind; now rewrite Hl).
      rewrite !app_nil_r.
      assert (In id0 (AssetRegistry.registered_ids log)) as Hknown.
      { destruct Hrep as [_ Hlog]. apply (Hlog log id0 n0 []). reflexivity. }
      split.
      * intros Hout. destruct (IHout Hout) as [Hfind Hkeep].
        split; [exact Hfind|]. intros o. rewrite last_owner_snoc, Hl.
        rewrite hex_id_eqb.
        destruct (Z.eqb_spec id0 id) as [->|_]; [contradiction|apply Hkeep].
      * intros Hin. destruct (IHin Hin) as (l' & o & d & t & Hfind & Hfacts & Hlast).
        exists l', o, d, t. split; [exact Hfind|]. split; [exact Hfacts|].
        rewrite last_owner_snoc, Hl, hex_id_eqb.
        destruct (id0 =? id); [reflexivity|exact Hlast].
Qed.

Lemma blocks_ascending_snoc history l :
  blocks_ascending (history ++ [l]) = true ->
  blocks_ascending history = true /\
  forall x, In x history -> el_block x <= el_block l.
Proof.
  induction history as [|y history IH]; cbn [app blocks_ascending].
  - intros _. split; [reflexivity|intros x []].
  - intros H. apply andb_prop in H as [Hall Hasc].
    destruct (IH Hasc) as [Hasc' Hle].
    rewrite forallb_app in Hall. apply andb_prop in Hall as [Hall Hlast].
    split; [now rewrite Hall, Hasc'|].
    intros x [<-|Hx]; [|now apply Hle].
    cbn in Hlast. apply andb_prop in Hlast as [Hlast _].
    now apply Z.leb_le.
Qed.

(** The log of the contract has every registration before the transfers
    of its id, so a history that renders it in block order does too. *)
Lemma history_registered_first log :
  replayable log ->
  forall history,
    map el_args history = map (decoded hex_id hex_address) log ->
    blocks_ascending history = true ->
    forall t r,
      In t history -> In r history ->
      kind_of (el_args t) = AssetTransferred ->
      kind_of (el_args r) = AssetRegistered ->
      asset_of (el_args t) = asset_of (el_args r) ->
      el_block r <= el_block t.
Proof.
  induction log as [|e log IH] using rev_ind;
    intros Hrep history Hal Hasc t r Ht Hr Kt Kr Hsame.
  - destruct history; [destruct Ht|discriminate Hal].
  - apply aligned_snoc in Hal as (earlier & l & -> & Hal & Hl).
    pose proof (replayable_prefix _ _ Hrep) as Hrep'.
    apply blocks_ascending_snoc in Hasc as [Hasc Hle].
    apply in_app_iff in Ht as [Ht|[<-|[]]];
      apply in_app_iff in Hr as [Hr|[<-|[]]].
    + now apply (IH Hrep' earlier Hal Hasc t r).
    + exfalso.
      destruct (aligned_in _ _ _ _ _ Hal Ht) as (et & Het & Hargs).
      rewrite Hl in Kr, Hsame. rewrite Hargs in Kt, Hsame.
      destruct e as [id0 o0 d0 t0|]; [|discriminate Kr].
      destruct et as [|id1 n1]; [discriminate Kt|].
      cbn [decoded asset_of] in Hsame. apply hex_id_inj in Hsame as ->.
      apply (transferred_needs_registered _ _ _ Hrep') in Het.
      destruct Hrep as [Hnd _]. rewrite registered_ids_snoc in Hnd.
      apply NoDup_app in Hnd as (_ & Hdisj & _).
      apply (Hdisj id0); apply list_elem_of_In; [exact Het|now left].
    + now apply Hle.
    + rewrite Kt in Kr. discriminate Kr.
Qed.

Lemma registered_first_intro history :
  (forall t r,
     In t history -> In r history ->
     kind_of (el_args t) = AssetTransferred ->
     kind_of (el_args r) = AssetRegistered ->
     asset_of (el_args t) = asset_of (el_args r) ->
     el_block r <= el_block t) ->
  registered_first history = true.
Proof.
  intros H. unfold registered_first.
  apply forallb_forall. intros t Ht. apply forallb_forall. intros r Hr.
  destruct (kind_of (el_args t)) eqn:Kt; [reflexivity|].
  destruct (kind_of (el_args r)) eqn:Kr; [|reflexivity].
  cbn [same_kind andb].
  destruct (String.eqb_spec (asset_of (el_args t)) (asset_of (el_args r)))
    as [E|]; [|reflexivity].
  cbn [implb]. apply Z.leb_le. now apply H.
Qed.

End Decoded.

(** X18.  The backfill ends with the owners the contract has.  Take any
    transactions sent to the contract from addresses other than
    [address(0)], and a history that renders the contract's event log
    entry by entry (ids and addresses as text, ids told apart by their
    text), in block order, a transaction in one block, with a block time
    for every transfer, all within the range from [fromBlock] to the
    chain height.  After a backfill of that range into an empty store,
    chunked or in one pass, the store has an Asset row for an id exactly
    when [getAsset] reports an owner other than [address(0)] for it, and
    the row's owner is that owner's text in lower case. *)
Theorem backfill_agrees_with_contract
    keccak256 hex_id hex_address deployer txs
    history height timestamps local_clock chunk_size fromBlock :
  (forall a b, hex_id a = hex_id b -> a = b) ->
  Forall (fun tx => AssetRegistry.tx_sender tx <> 0) txs ->
  let s := fold_left (AssetRegistry.transact keccak256) txs
             (AssetRegistry.constructor deployer) in
  map el_args history
  = map (decoded hex_id hex_address) (AssetRegistry.emitted s) ->
  blocks_ascending history = true ->
  tx_in_one_block history = true ->
  transfer_blocks_timestamped timestamps history = true ->
  (forall l, In l history -> fromBlock <= el_block l <= height) ->
  1 <= chunk_size ->
  let env := chain_source history height timestamps local_clock in
  let chunked := syncHistoricalEvents_by env chunk_size fromBlock in
  let single := syncHistoricalEvents_single_pass env fromBlock in
  forall sync id,
    In sync [chunked; single] ->
    let onchain := AssetRegistry.Asset.owner (AssetRegistry.getAsset id s) in
    option_map Asset.owner (find_asset (hex_id id) (after sync empty_world))
    = if onchain =? 0 then None
      else Some (toLowerCase (hex_address onchain)).
Proof.
  intros Hinj Hsenders s Hal Hasc Htx Hts Hrange HK env chunked single
    sync id Hsync onchain.
  pose proof (transactions_consistent keccak256 deployer txs Hsenders) as Hs.
  fold s in Hs. pose proof (consistent_replayable s Hs) as Hrep.
  destruct Hs as (_ & Hown & Hreg & _).
  assert (registered_first history = true) as Hfirst.
  { apply registered_first_intro.
    now apply (history_registered_first hex_id hex_address Hinj
                 (AssetRegistry.emitted s) Hrep history Hal Hasc). }
  assert (represents (after sync empty_world)
            (facts_pass history timestamps fromBlock height
               (facts_of empty_world))) as [Hr _].
  { pose proof (facts_of_represents empty_world) as H0.
    destruct Hsync as [<-|[<-|[]]].
    - now apply chunked_sync_refines.
    - now apply single_pass_sync_refines. }
  specialize (Hr (hex_id id)). rewrite facts_pass_asset in Hr.
  change (asset_map (facts_of empty_world) !! hex_id id)
    with ((∅ : gmap string AssetFacts) !! hex_id id) in Hr.
  rewrite lookup_empty in Hr. unfold chain_facts in Hr.
  rewrite !logs_between_all in Hr by exact Hrange.
  destruct (history_view hex_id hex_address Hinj (AssetRegistry.emitted s)
              Hrep history Hal id) as [Hout Hin].
  subst onchain. rewrite Hown in *.
  destruct (Z.eqb_spec (AssetRegistry.log_owner id (AssetRegistry.emitted s)) 0)
    as [Hzero|Hnz].
  - destruct Hout as [Hfind _]; [rewrite Hreg; tauto|].
    rewrite Hfind in Hr.
    now destruct (find_asset (hex_id id) (after sync empty_world)).
  - destruct Hin as (l & o & d & t & Hfind & Hfacts & Hlast);
      [now apply Hreg|].
    rewrite Hfind, Hfacts, Hlast in Hr.
    destruct (find_asset (hex_id id) (after sync empty_world)) as [a|];
      [|discriminate Hr].
    cbn [option_map] in *. unfold asset_facts in Hr. congruence.
Qed.

Lemma backfill_agrees_with_contract_witness :
  let s := fold_left (AssetRegistry.transact AssetRegistry.sample_keccak256)
             sample_transactions (AssetRegistry.constructor 9) in
  let env := chain_source sample_contract_history 20
               (fun n => Some (100 * n)) (fun _ => 0) in
  let chunked := syncHistoricalEvents_by env 10 3 in
  let onchain :=
    AssetRegistry.Asset.owner (AssetRegistry.getAsset 1100 s) in
  option_map Asset.owner
    (find_asset (toString 1100) (after chunked empty_world))
  = if onchain =? 0 then None else Some (toLowerCase (toString onchain)).
Proof.
  apply (backfill_agrees_with_contract AssetRegistry.sample_keccak256
           toString toString 9 sample_transactions sample_contract_history
           20 (fun n => Some (100 * n)) (fun _ => 0) 10 3).
  - exact toString_inj.
  - repeat constructor; cbn; lia.
  - vm_compute. reflexivity.
  - vm_compute. reflexivity.
  - vm_compute. reflexivity.
  - vm_compute. reflexivity.
  - intros l [<-|[<-|[<-|[]]]]; cbn; lia.
  - lia.
  - left. reflexivity.
Defined.

(** ** Failing fast *)

Section FailFast.
Context (env : Env).

Lemma fail_fast_still {A} (m : M A) :
  (forall w, tick (after m w) = tick w) -> fail_fast env m.
Proof. intros H w k Hk. rewrite H in Hk. lia. Qed.

Lemma fail_fast_bind {A B} (m : M A) (k : A -> M B) :
  fail_fast env m -> (forall a, fail_fast env (k a)) ->
  fail_fast env (bind m k).
Proof.
  intros Hm Hk w n Hn R. unfold outcome, after, bind in *.
  specialize (Hm w n). unfold outcome, after in Hm.
  destruct (m w) as [[a|e] w1] eqn:E; cbn [fst snd] in *.
  - destruct (Nat.lt_ge_cases n (tick w1)) as [Hlt|Hge].
    + destruct Hm as [Hm _]; [lia|exact R|discriminate Hm].
    + apply (Hk a w1 n); [|exact R]. unfold after. lia.
  - destruct (Hm Hn R) as [He Ht]. split; [|exact Ht]. congruence.
Qed.

Lemma fail_fast_rethrow {A} (m : M A) :
  fail_fast env m -> fail_fast env (try_catch m (fun error => throw error)).
Proof.
  intros Hm w n Hn R. unfold outcome, after, try_catch, throw in *.
  specialize (Hm w n). unfold outcome, after in Hm.
  destruct (m w) as [[a|e] w1]; cbn [fst snd] in *; now apply Hm.
Qed.

Lemma fail_fast_await {A} (call : M A) :
  (forall w, tick (after call w) = tick w) ->
  fail_fast env (await env call).
Proof.
  intros Hcall w n Hn R. unfold outcome, after, await in *.
  destruct (rejects env (tick w)) eqn:R0; cbn [fst snd next_point tick] in *.
  - assert (n = tick w) as -> by lia. auto.
  - specialize (Hcall (next_point w)). unfold after in Hcall.
    rewrite Hcall in Hn. cbn [next_point tick] in Hn.
    assert (n = tick w) as -> by lia. congruence.
Qed.

Lemma fail_fast_for_each (f : Event -> M unit) events :
  (forall e, fail_fast env (f e)) -> fail_fast env (for_each events f).
Proof.
  intros Hf. induction events as [|e events IH]; cbn [for_each].
  - now apply fail_fast_still.
  - now apply fail_fast_bind.
Qed.

Lemma Asset_findByPk_fail_fast pk : fail_fast env (Asset_findByPk env pk).
Proof. now apply fail_fast_await. Qed.

Lemma Transfer_findOne_fail_fast h : fail_fast env (Transfer_findOne env h).
Proof. now apply fail_fast_await. Qed.

Lemma getBlock_fail_fast n : fail_fast env (getBlock env n).
Proof. now apply fail_fast_await. Qed.

Lemma queryFilter_fail_fast kind a b : fail_fast env (queryFilter env kind a b).
Proof.
  intros w n. unfold queryFilter.
  apply (fail_fast_await
           (fun w' => (Ok (chain_events env kind a b), w'))
           ltac:(reflexivity) (log_query (kind, a, b) w) n).
Qed.

Lemma Asset_create_fail_fast a : fail_fast env (Asset_create env a).
Proof.
  apply fail_fast_await. intros w. unfold after.
  now destruct (existsb _ _).
Qed.

Lemma Asset_save_fail_fast a : fail_fast env (Asset_save env a).
Proof. now apply fail_fast_await. Qed.

Lemma Transfer_create_fail_fast assetId fromOwner toOwner bn h ts at_ :
  fail_fast env (Transfer_create env assetId fromOwner toOwner bn h ts at_).
Proof.
  apply fail_fast_await. intros w. unfold after.
  destruct (existsb _ _); [reflexivity|]. now destruct (negb _).
Qed.

Lemma now_fail_fast : fail_fast env (now env).
Proof. now apply fail_fast_still. Qed.

Lemma ret_fail_fast {A} (a : A) : fail_fast env (ret a).
Proof. now apply fail_fast_still. Qed.

Lemma handleAssetRegistered_fail_fast id owner description timestamp event :
  fail_fast env (handleAssetRegistered env id owner description timestamp event).
Proof.
  unfold handleAssetRegistered.
  apply fail_fast_bind; [apply Asset_findByPk_fail_fast|]. intros existing.
  apply fail_fast_bind.
  - destruct existing; [apply ret_fail_fast|].
    apply fail_fast_bind; [apply now_fail_fast|].
    intros at_. apply Asset_create_fail_fast.
  - intros _. destruct (metadata event) as [[h bn]|]; [|apply ret_fail_fast].
    apply fail_fast_bind; [apply Transfer_findOne_fail_fast|].
    intros [t|]; [apply ret_fail_fast|].
    apply fail_fast_bind; [apply now_fail_fast|].
    intros at_. apply Transfer_create_fail_fast.
Qed.

Lemma handleAssetTransferred_fail_fast id newOwner event :
  fail_fast env (handleAssetTransferred env id newOwner event).
Proof.
  unfold handleAssetTransferred.
  apply fail_fast_bind; [apply Asset_findByPk_fail_fast|].
  intros [asset|]; [|apply ret_fail_fast].
  apply fail_fast_bind; [apply Asset_save_fail_fast|]. intros _.
  destruct (metadata event) as [[h bn]|]; [|apply ret_fail_fast].
  apply fail_fast_bind; [apply Transfer_findOne_fail_fast|].
  intros [t|]; [apply ret_fail_fast|].
  apply fail_fast_bind; [apply getBlock_fail_fast|]. intros block.
  apply fail_fast_bind.
  - destruct block; [apply ret_fail_fast|].
    apply fail_fast_bind; [apply now_fail_fast|]. intros t.
    apply ret_fail_fast.
  - intros ts. apply fail_fast_bind; [apply now_fail_fast|].
    intros at_. apply Transfer_create_fail_fast.
Qed.

Lemma syncHistoricalEvents_single_pass_fail_fast fromBlock :
  fail_fast env (syncHistoricalEvents_single_pass env fromBlock).
Proof.
  unfold syncHistoricalEvents_single_pass. apply fail_fast_rethrow.
  apply fail_fast_bind; [apply queryFilter_fail_fast|]. intros evs.
  apply fail_fast_bind.
  - apply fail_fast_for_each. intros e. unfold apply_registered.
    destruct (args e); [apply handleAssetRegistered_fail_fast|].
    now apply fail_fast_still.
  - intros _. apply fail_fast_bind; [apply queryFilter_fail_fast|].
    intros evs'. apply fail_fast_for_each. intros e. unfold apply_transferred.
    destruct (args e); apply handleAssetTransferred_fail_fast.
Qed.

End FailFast.

(** X19.  The handlers and the single-pass backfill fail fast; the
    chunked backfill does not.  In any environment, the first awaited
    call that rejects ends a handler, and ends the single pass, at that
    very suspension point, and its rejection is what the run throws:
    nothing is asked of the database or the chain after it.  The chunked
    backfill of the two-chunk chain passes the rejecting Registered
    query of its first chunk and goes on to return normally. *)
Theorem single_pass_fails_fast env w k :
  rejects env k = true ->
  (forall id owner description timestamp event,
     let run := handleAssetRegistered env id owner description timestamp event in
     (tick w <= k < tick (after run w))%nat ->
     outcome run w = Throw (Rejected k) /\ tick (after run w) = S k) /\
  (forall id newOwner event,
     let run := handleAssetTransferred env id newOwner event in
     (tick w <= k < tick (after run w))%nat ->
     outcome run w = Throw (Rejected k) /\ tick (after run w) = S k) /\
  (forall fromBlock,
     let run := syncHistoricalEvents_single_pass env fromBlock in
     (tick w <= k < tick (after run w))%nat ->
     outcome run w = Throw (Rejected k) /\ tick (after run w) = S k) /\
  (let run := syncHistoricalEvents flaky_chain 0 in
   rejects flaky_chain 1 = true /\
   (tick empty_world <= 1 < tick (after run empty_world))%nat /\
   outcome run empty_world = Ok tt).
Proof.
  intros R. split; [|split; [|split]].
  - intros id owner description timestamp event run Hk.
    now apply handleAssetRegistered_fail_fast.
  - intros id newOwner event run Hk.
    now apply handleAssetTransferred_fail_fast.
  - intros fromBlock run Hk.
    now apply syncHistoricalEvents_single_pass_fail_fast.
  - vm_compute. repeat split; lia.
Qed.

(** The single pass over the two-chunk chain, its Registered query
    rejecting. *)
Lemma single_pass_fails_fast_witness :
  let env := with_rejections (fun n => Nat.eqb n 0) two_chunk_chain in
  let w := empty_world in
  let k := 0%nat in
  (forall id owner description timestamp event,
     let run := handleAssetRegistered env id owner description timestamp event in
     (tick w <= k < tick (after run w))%nat ->
     outcome run w = Throw (Rejected k) /\ tick (after run w) = S k) /\
  (forall id newOwner event,
     let run := handleAssetTransferred env id newOwner event in
     (tick w <= k < tick (after run w))%nat ->
     outcome run w = Throw (Rejected k) /\ tick (after run w) = S k) /\
  (forall fromBlock,
     let run := syncHistoricalEvents_single_pass env fromBlock in
     (tick w <= k < tick (after run w))%nat ->
     outcome run w = Throw (Rejected k) /\ tick (after run w) = S k) /\
  (let run := syncHistoricalEvents flaky_chain 0 in
   rejects flaky_chain 1 = true /\
   (tick empty_world <= 1 < tick (after run empty_world))%nat /\
   outcome run empty_world = Ok tt).
Proof.
  apply (single_pass_fails_fast
           (with_rejections (fun n => Nat.eqb n 0) two_chunk_chain)
           empty_world 0%nat).
  reflexivity.
Defined.

(** ** Resilience of the backfill, chunk by chunk *)

Lemma apply_registered_handle env event :
  kind_of (args event) = AssetRegistered ->
  apply_registered env event = handle env event.
Proof.
  unfold apply_registered, handle.
  destruct (args event); [reflexivity|discriminate].
Qed.

Lemma apply_transferred_handle env event :
  kind_of (args event) = AssetTransferred ->
  apply_transferred env event = handle env event.
Proof.
  unfold apply_transferred, handle.
  destruct (args event); [discriminate|reflexivity].
Qed.

Lemma handled_cons env event events w :
  handled env (event :: events) w
  = handled env events (after (handle env event) w).
Proof. reflexivity. Qed.

Lemma handled_advances env events :
  forall w, (tick w <= tick (handled env events w))%nat.
Proof.
  induction events as [|event events IH]; intros w; cbn; [lia|].
  specialize (IH (after (handle env event) w)).
  pose proof (handle_advances env event w). unfold handled in IH. lia.
Qed.

(** When no call rejects on the way, the loop over the events handles
    every one of them. *)
Lemma for_each_answered env (f : Event -> M unit) events :
  (forall event, In event events -> f event = handle env event) ->
  forall w,
    answered env w (handled env events w) ->
    for_each events f w = (Ok tt, handled env events w).
Proof.
  induction events as [|event events IH]; intros Hf w Hans; [reflexivity|].
  cbn [for_each handled fold_left]. unfold bind.
  rewrite (Hf event) by now left.
  pose proof (handled_advances env events (after (handle env event) w)) as Hadv.
  destruct (handle_ends env event w) as [[Hok Hle]|(n & _ & R & Hle & Ht)].
  - rewrite Hok. apply IH.
    + intros e He. apply Hf. now right.
    + intros k Hk. apply Hans. cbn [handled fold_left].
      unfold handled in *. lia.
  - rewrite (Hans n) in R; [discriminate R|].
    cbn [handled fold_left]. unfold handled in *. lia.
Qed.

Lemma queryFilter_answered env kind a b w :
  rejects env (tick w) = false ->
  queryFilter env kind a b w
  = (Ok (chain_events env kind a b), next_point (log_query (kind, a, b) w)).
Proof.
  intros R. unfold queryFilter, await. cbn [log_query tick]. now rewrite R.
Qed.

(** A chunk whose calls are all answered runs to its end. *)
Lemma sync_chunk_answered env a b w :
  well_kinded env ->
  answered env w (chunk_applied env w (a, b)) ->
  sync_chunk env a b w = (Ok tt, chunk_applied env w (a, b)).
Proof.
  intros Hkind Hans. unfold chunk_applied in *. cbn [fst snd] in *.
  set (regs := chain_events env AssetRegistered a (Some b)) in *.
  set (tfrs := chain_events env AssetTransferred a (Some b)) in *.
  set (w1 := next_point (log_query (AssetRegistered, a, Some b) w)) in *.
  set (w2 := handled env regs w1) in *.
  set (w3 := next_point (log_query (AssetTransferred, a, Some b) w2)) in *.
  set (w4 := handled env tfrs w3) in *.
  assert (tick w1 = S (tick w)) as T1 by reflexivity.
  assert (tick w1 <= tick w2)%nat as T2 by apply handled_advances.
  assert (tick w3 = S (tick w2)) as T3 by reflexivity.
  assert (tick w3 <= tick w4)%nat as T4 by apply handled_advances.
  assert (tick (next_point w4) = S (tick w4)) as T5 by reflexivity.
  unfold sync_chunk, bind.
  rewrite queryFilter_answered by (apply Hans; lia). fold regs w1.
  rewrite (for_each_answered env (apply_registered env) regs).
  - fold w2. rewrite queryFilter_answered by (apply Hans; lia). fold tfrs w3.
    rewrite (for_each_answered env (apply_transferred env) tfrs).
    + reflexivity.
    + intros e He. apply apply_transferred_handle. now apply (Hkind _ _ _ _ He).
    + intros k Hk. apply Hans. fold w4 in Hk. lia.
  - intros e He. apply apply_registered_handle. now apply (Hkind _ _ _ _ He).
  - intros k Hk. apply Hans. fold w2 in Hk. lia.
Qed.

Lemma attempt_chunk_answered env w range :
  well_kinded env ->
  answered env w (chunk_applied env w range) ->
  attempt_chunk env w range = chunk_applied env w range.
Proof.
  destruct range as [a b]. intros Hkind Hans.
  unfold attempt_chunk, after. cbn [fst snd].
  now rewrite (sync_chunk_answered env a b w Hkind Hans).
Qed.

(** *** What was applied is in the store when the backfill ends *)

Lemma existsb_has_id pk l :
  existsb (has_id pk) l = true <-> In pk (map Asset.id l).
Proof.
  rewrite existsb_exists, in_map_iff. unfold has_id.
  split; intros (a & H1 & H2).
  - exists a. split; [now apply String.eqb_eq|exact H1].
  - exists a. split; [exact H2|now apply String.eqb_eq].
Qed.

Lemma grows_keeps_asset w w' pk :
  grows w w' ->
  existsb (has_id pk) (assets w) = true ->
  existsb (has_id pk) (assets w') = true.
Proof.
  intros [_ [added H]]. rewrite !existsb_has_id.
  assert (forall l, map Asset.id l
                    = map (fun f => fst (fst (fst f))) (map frozen l)) as E
    by (intros l; now rewrite map_map).
  rewrite !E, H, map_app, in_app_iff. auto.
Qed.

Lemma handle_grows env event w : grows w (after (handle env event) w).
Proof.
  unfold handle. destruct (args event).
  - apply handleAssetRegistered_grows.
  - apply handleAssetTransferred_grows.
Qed.

Lemma handled_grows env events :
  forall w, grows w (handled env events w).
Proof.
  induction events as [|event events IH]; intros w; [apply grows_refl|].
  cbn [handled fold_left]. eapply grows_trans; [apply handle_grows|apply IH].
Qed.

Lemma attempt_chunk_grows env w range : grows w (attempt_chunk env w range).
Proof.
  apply (sync_chunk_keeps env grows grows_trans grows_tables
           (handleAssetRegistered_grows env)
           (handleAssetTransferred_grows env)).
Qed.

Lemma attempt_chunks_grow env ranges :
  forall w, grows w (fold_left (attempt_chunk env) ranges w).
Proof.
  induction ranges as [|range ranges IH]; intros w; [apply grows_refl|].
  cbn [fold_left].
  eapply grows_trans; [apply attempt_chunk_grows|apply IH].
Qed.

(** A Registered event whose handler returns normally has its Asset row. *)
Lemma registered_ok_has_asset env id owner description timestamp event w :
  let run := handleAssetRegistered env id owner description timestamp event in
  outcome run w = Ok tt ->
  existsb (has_id id) (assets (after run w)) = true.
Proof.
  cbv zeta.
  destruct (handleAssetRegistered_tables env id owner description timestamp
              event w) as (at1 & at2 & HA & _). cbv zeta in HA.
  revert HA. unfold_run.
  destruct (rejects env (tick w)); simpl_world; [discriminate|].
  destruct (List.find (has_id id) (assets w)) as [a|] eqn:Fa; simpl_world.
  - intros [-> | ->] _.
    + now rewrite existsb_find, Fa.
    + unfold registered_assets. rewrite Fa. now rewrite existsb_find, Fa.
  - destruct (rejects env (S (tick w))); simpl_world; [discriminate|].
    rewrite existsb_find. cbn [Asset.id]. rewrite Fa. simpl_world.
    intros [HA | ->] _.
    + exfalso. revert HA.
      destruct (metadata event) as [[h bn]|]; simpl_world;
        repeat match goal with
               | |- context [rejects env ?n] =>
                   destruct (rejects env n); simpl_world
               | |- context [List.find (has_hash ?h) ?l] =>
                   destruct (List.find (has_hash h) l); simpl_world
               | |- context [existsb ?f ?l] =>
                   destruct (existsb f l); simpl_world
               end;
        intros HA; apply (f_equal (@length _)) in HA;
        rewrite length_app in HA; cbn in HA; lia.
    + unfold registered_assets. rewrite Fa, existsb_app. cbn.
      unfold has_id. cbn. rewrite String.eqb_refl. apply orb_true_r.
Qed.

Lemma handled_has_asset env events :
  forall w event id owner description timestamp,
    answered env w (handled env events w) ->
    In event events ->
    args event = AssetRegisteredArgs id owner description timestamp ->
    existsb (has_id id) (assets (handled env events w)) = true.
Proof.
  induction events as [|e events IH];
    intros w event id owner d t Hans Hin Hargs; [destruct Hin|].
  rewrite handled_cons in *.
  pose proof (handled_advances env events (after (handle env e) w)) as Hadv.
  pose proof (handle_advances env e w) as Hadv0.
  destruct Hin as [->|Hin].
  - apply (grows_keeps_asset (after (handle env event) w));
      [apply handled_grows|].
    destruct (handle_ends env event w) as [[Hok _]|(n & _ & R & Hle & Ht)].
    + unfold handle in *. rewrite Hargs in *.
      apply registered_ok_has_asset. unfold outcome. now rewrite Hok.
    + rewrite (Hans n) in R; [discriminate R|lia].
  - apply (IH _ event id owner d t); auto.
    intros k Hk. apply Hans. lia.
Qed.

(** C7.  [syncHistoricalEvents] from [fromBlock], in any environment.
    When the chain-height query rejects, the sync throws that rejection
    and touches neither table nor issues any query.  When it is
    answered, the sync returns normally whatever rejects later, and the
    world it leaves is the one obtained by running the body of every
    chunk of [[fromBlock, height]] in ascending order, each starting
    where the previous one stopped (a chunk that throws is abandoned at
    that point and the next one runs), one Registered query being
    issued for each chunk.  On a chain whose queries return events of
    their kind, every chunk whose own calls are all answered, whatever
    happened to the chunks before it and whatever happens to those
    after it, is fetched and applied: it leaves the world in which both
    of its queries were issued and every event they returned was
    handled by its handler, Registered events first; and the asset of
    every Registered event such a chunk fetched is in the store when
    the sync ends. *)
Theorem sync_survives_chunk_failures env fromBlock w :
  let run := syncHistoricalEvents env fromBlock in
  let ranges := chunk_ranges BLOCK_CHUNK_SIZE fromBlock (chain_height env) in
  (rejects env (tick w) = true ->
   outcome run w = Throw (Rejected (tick w)) /\
   assets (after run w) = assets w /\
   transfers (after run w) = transfers w /\
   queries (after run w) = queries w) /\
  (rejects env (tick w) = false ->
   outcome run w = Ok tt /\
   after run w = fold_left (attempt_chunk env) ranges (next_point w) /\
   queried_ranges AssetRegistered (queries (after run w))
   = queried_ranges AssetRegistered (queries w)
     ++ map (fun r => (fst r, Some (snd r))) ranges /\
   (well_kinded env ->
    forall before range rest,
      ranges = before ++ range :: rest ->
      let reached := fold_left (attempt_chunk env) before (next_point w) in
      answered env reached (chunk_applied env reached range) ->
      attempt_chunk env reached range = chunk_applied env reached range /\
      forall event id owner description timestamp,
        In event (chain_events env AssetRegistered (fst range)
                    (Some (snd range))) ->
        args event = AssetRegisteredArgs id owner description timestamp ->
        exists a, find_asset id (after run w) = Some a)).
Proof.
  cbv zeta. split.
  - intros R0. unfold outcome, after, syncHistoricalEvents,
      syncHistoricalEvents_by, try_catch, bind, getBlockNumber, await, throw.
    rewrite R0. simpl_world. repeat split.
  - intros R0. unfold outcome, after, syncHistoricalEvents.
    rewrite (sync_fuel_enough env BLOCK_CHUNK_SIZE fromBlock w)
      by (trivial; unfold BLOCK_CHUNK_SIZE; lia).
    cbn [fst snd]. split; [reflexivity|]. split; [reflexivity|].
    split; [now rewrite fold_attempt_queries|].
    intros Hkind before [a b] rest Hranges Hans.
    pose proof (attempt_chunk_answered env _ (a, b) Hkind Hans) as Hchunk.
    split; [exact Hchunk|].
    intros event id owner d t Hin Hargs. cbn [fst snd] in Hin.
    rewrite Hranges, fold_left_app. cbn [fold_left]. rewrite Hchunk.
    assert (existsb (has_id id)
              (assets
                 (fold_left (attempt_chunk env) rest
                    (chunk_applied env
                       (fold_left (attempt_chunk env) before (next_point w))
                       (a, b)))) = true) as Hex.
    { eapply grows_keeps_asset; [apply attempt_chunks_grow|].
      unfold chunk_applied in *. cbn [fst snd] in *.
      cbn [next_point assets].
      eapply grows_keeps_asset; [apply handled_grows|].
      cbn [next_point log_query assets].
      eapply (handled_has_asset env _ _ event id owner d t); eauto.
      intros k Hk. apply Hans.
      match goal with
      | |- (_ <= _ < tick (next_point (handled env ?evs ?w3)))%nat =>
          pose proof (handled_advances env evs w3)
      end.
      cbn [next_point log_query tick] in *. lia. }
    unfold find_asset. rewrite existsb_find in Hex.
    destruct (List.find (has_id id) _) as [x|]; [eauto|discriminate Hex].
Qed.

Lemma with_rejections_well_kinded r history height timestamps local_clock :
  well_kinded
    (with_rejections r (chain_source history height timestamps local_clock)).
Proof.
  intros kind a b event Hin. cbn in Hin.
  apply in_map_iff in Hin as (l & <- & Hin).
  apply logs_between_kind in Hin as (_ & Hk & _). exact Hk.
Qed.

(** The backfill of the two-chunk chain with the first chunk failing:
    the chunk of blocks 10 to 19, reached after the failed one, is
    applied, and A2, registered in block 15, is in the store. *)
Lemma sync_survives_chunk_failures_witness :
  let env := flaky_chain in
  let w := empty_world in
  let run := syncHistoricalEvents env 0 in
  let reached := attempt_chunk env (next_point w) (0, 9) in
  outcome run w = Ok tt /\
  attempt_chunk env reached (10, 19) = chunk_applied env reached (10, 19) /\
  exists a, find_asset "A2" (after run w) = Some a.
Proof.
  cbv zeta.
  destruct (sync_survives_chunk_failures flaky_chain 0 empty_world) as [_ H].
  destruct (H eq_refl) as (Hok & _ & _ & Hchunk).
  split; [exact Hok|].
  destruct (Hchunk (with_rejections_well_kinded _ _ _ _ _)
              [(0, 9)] (10, 19) [(20, 20)] eq_refl) as [Happlied Hassets].
  - intros k Hk. vm_compute in Hk.
    destruct k as [|[|k]]; [lia|lia|reflexivity].
  - split; [exact Happlied|].
    apply (Hassets (as_event {| el_args := AssetRegisteredArgs "A2" "0xCC" "Deed" 1500;
                                el_tx := "0xt3"; el_block := 15 |})
             "A2" "0xCC" "Deed" 1500).
    + vm_compute. left. reflexivity.
    + reflexivity.
Defined.
